(** * indexsupply/x : RLP codec, Kademlia table and discv4 handlers

    A shallow embedding of the Go sources and the properties proved
    about them.  Go values are modelled as follows.

    - [byte] is [Byte.byte]; byte arithmetic is done on [Z] and wrapped
      modulo 256 by [z2b].
    - [int] is [Z].  Lengths of slices that fit in memory never reach
      the 63-bit limit, so no wrap-around is written for [int].
    - A slice is a backing array together with its length ([slice]):
      indexing is checked against the length, re-slicing against the
      capacity, as the Go runtime does.
    - A run-time panic is the [Panic] result.
    - What a function reads from outside (the clock, the outcome of a
      write to the socket, the packages that are not part of these
      sources) is an argument of its model.
    - A handler runs under the write lock of the process and is
      modelled as one step; logging is left out. *)

From Stdlib Require Import ZArith List Lia Bool Permutation Sorted.
From Stdlib Require Import Strings.Byte.
From stdpp Require Import gmap strings.
Import ListNotations.
Local Open Scope Z_scope.

(** ** Results of partial Go code *)

Inductive result (A : Type) : Type :=
| Ok (a : A)
| Panic
| OutOfFuel.
Arguments Ok {A} a.
Arguments Panic {A}.
Arguments OutOfFuel {A}.

Definition rbind {A B : Type} (r : result A) (k : A -> result B) : result B :=
  match r with
  | Ok a => k a
  | Panic => Panic
  | OutOfFuel => OutOfFuel
  end.

Notation "'let*' x := e 'in' k" := (rbind e (fun x => k))
  (at level 10, x name, e at level 100, k at level 200).

(** ** Bytes *)

Definition b2z (b : byte) : Z := Z.of_N (Byte.to_N b).

Definition z2b (z : Z) : byte :=
  match Byte.of_N (Z.to_N (z mod 256)) with
  | Some b => b
  | None => x00
  end.

(** ** Slices *)

Record slice : Type := mkSlice { arr : list byte; len : Z }.

Definition cap (s : slice) : Z := Z.of_nat (length (arr s)).

(** The bytes a slice shows: [s[0], ..., s[len-1]]. *)
Definition visible (s : slice) : list byte := firstn (Z.to_nat (len s)) (arr s).

(** A slice of exactly these bytes followed by [spare] unused capacity. *)
Definition slice_of (bs spare : list byte) : slice :=
  {| arr := bs ++ spare; len := Z.of_nat (length bs) |}.

(** [s[i]] *)
Definition index (s : slice) (i : Z) : result byte :=
  if (0 <=? i) && (i <? len s)
  then Ok (nth (Z.to_nat i) (arr s) x00)
  else Panic.

(** [s[i:j]] *)
Definition reslice (s : slice) (i j : Z) : result slice :=
  if (0 <=? i) && (i <=? j) && (j <=? cap s)
  then Ok {| arr := skipn (Z.to_nat i) (arr s); len := j - i |}
  else Panic.

(** [s[i:]] *)
Definition slice_from (s : slice) (i : Z) : result slice :=
  if (0 <=? i) && (i <=? len s)
  then Ok {| arr := skipn (Z.to_nat i) (arr s); len := len s - i |}
  else Panic.

Module Rlp.

(** ** package rlp *)

Definition str1L : Z := 0.
Definition str1H : Z := 127.
Definition str55L : Z := 128.
Definition str55H : Z := 183.
Definition strNL : Z := 184.
Definition strNH : Z := 191.
Definition list55L : Z := 192.
Definition list55H : Z := 247.
Definition listNL : Z := 248.
Definition listNH : Z := 255.

(** [type Item struct { D []byte; L []*Item }]: [None] is the nil slice.
    The children are the Items pointed to; a tree in which a pointer is
    nil is a [PItem], below. *)
#[warnings="-register-all"]
Inductive Item : Type :=
| mkItem (D : option (list byte)) (L : option (list Item)).

(** [binary.PutUvarint(buf, x)] of the Go library, for a buffer with
    [room] bytes left: the bytes written, or a panic on [buf[i]] past
    the end of the buffer. *)
Fixpoint PutUvarint (room : nat) (x : Z) : result (list byte) :=
  match room with
  | O => Panic
  | S room' =>
      if 128 <=? x
      then let* rest := PutUvarint room' (Z.shiftr x 7) in
           Ok (z2b (Z.lor (x mod 256) 128) :: rest)
      else Ok [z2b x]
  end.

Definition MaxVarintLen64 : Z := 10.

(** [binary.Uvarint(buf)] of the Go library: the decoded value and the
    number of bytes read (0 when the buffer ends early, negative on
    overflow). *)
Fixpoint Uvarint_loop (buf : list byte) (i : Z) (x : Z) (s : Z) : Z * Z :=
  match buf with
  | [] => (0, 0)
  | b :: buf' =>
      if i =? MaxVarintLen64 then (0, - (i + 1))
      else if b2z b <? 128 then
        if (i =? MaxVarintLen64 - 1) && (1 <? b2z b) then (0, - (i + 1))
        else (Z.lor x ((Z.shiftl (b2z b) s) mod 2 ^ 64), i + 1)
      else Uvarint_loop buf' (i + 1)
             (Z.lor x ((Z.shiftl (Z.land (b2z b) 127) s) mod 2 ^ 64)) (s + 7)
  end.

Definition Uvarint (buf : list byte) : Z * Z := Uvarint_loop buf 0 0 0.

Definition encodeLength (t : Z) (l : Z) : result (list byte) :=
  let* buf := PutUvarint 8 (l mod 2 ^ 64) in
  Ok (z2b (t + Z.of_nat (length buf)) :: buf).

(** The tail of [Encode] for a list whose children encode to [out]. *)
Definition encodeList (out : list byte) : result (list byte) :=
  let m := Z.of_nat (length out) in
  if m <=? 55 then Ok (z2b (list55L + m) :: out)
  else let* hd := encodeLength list55H m in Ok (hd ++ out).

(** The loop [for i := range input.L { out = append(out, Encode(input.L[i])...) }]. *)
Fixpoint encodeChildren (enc : Item -> result (list byte))
    (cs : list Item) (out : list byte) : result (list byte) :=
  match cs with
  | [] => Ok out
  | c :: cs' => let* e := enc c in encodeChildren enc cs' (out ++ e)
  end.

Fixpoint Encode (input : Item) : result (list byte) :=
  match input with
  | mkItem (Some d) _ =>
      let n := Z.of_nat (length d) in
      if (n =? 1) && (b2z (nth 0 d x00) <=? str1H) then Ok d
      else if n <=? 55 then Ok (z2b (str55L + n) :: d)
      else let* hd := encodeLength str55H n in Ok (hd ++ d)
  | mkItem None None => encodeList []
  | mkItem None (Some cs) =>
      let* out := encodeChildren Encode cs [] in encodeList out
  end.

Definition decodeLength (t : Z) (input : slice) : result Z :=
  let* b0 := index input 0 in
  let n := (b2z b0 - t) mod 256 in
  let* s := reslice input 1 ((n + 1) mod 256) in
  Ok (n + fst (Uvarint (visible s))).

(** The length [n] of the item that starts at [input[i]], as computed
    by the switch inside the list loop of [Decode]. *)
Definition childLength (input : slice) (i : Z) : result Z :=
  let* b := index input i in
  if b2z b <=? str1H then Ok 1
  else if b2z b <=? str55H then Ok (1 + (b2z b - str55L) mod 256)
  else if b2z b <=? strNH then
    let* rest := slice_from input i in let* l := decodeLength str55H rest in Ok (1 + l)
  else if b2z b <=? list55H then Ok (1 + (b2z b - list55L) mod 256)
  else let* rest := slice_from input i in let* l := decodeLength list55H rest in Ok (1 + l).

(** The loop [for i < len(input) { ... }] of [Decode]; [dec] is the
    recursive call and [steps] bounds the number of iterations. *)
Fixpoint decodeChildren (dec : slice -> result Item) (input : slice)
    (steps : nat) (i : Z) (acc : list Item) {struct steps} : result Item :=
  if i <? len input then
    match steps with
    | O => OutOfFuel
    | S steps' =>
        let* n := childLength input i in
        let* s := reslice input i (i + n) in
        let* c := dec s in
        decodeChildren dec input steps' (i + n) (acc ++ [c])
    end
  else Ok (mkItem None (Some acc)).

Fixpoint Decode_fuel (fuel : nat) (input : slice) : result Item :=
  match fuel with
  | O => OutOfFuel
  | S fuel' =>
      let* b0 := index input 0 in
      if b2z b0 <=? str1H then Ok (mkItem (Some [b0]) None)
      else if b2z b0 <=? str55H then
        let n := (b2z b0 - str1H) mod 256 in
        let* s := reslice input 1 n in
        Ok (mkItem (Some (visible s)) None)
      else if b2z b0 <=? strNH then
        let i := (1 + (b2z b0 - str55H) mod 256) mod 256 in
        let* l := decodeLength str55H input in
        let* s := reslice input i (1 + l) in
        Ok (mkItem (Some (visible s)) None)
      else
        let i := if listNL <=? b2z b0
                 then 1 + (b2z b0 - list55H) mod 256 else 1 in
        decodeChildren (Decode_fuel fuel') input (Z.to_nat (len input)) i []
  end.

(** Every recursive call of [Decode] is on a slice whose backing array
    is strictly shorter, so one unit of fuel per byte of capacity is
    enough. *)
Definition Decode (input : slice) : result Item :=
  Decode_fuel (S (length (arr input))) input.

(** An Item sets exactly one of [D] and [L], and so do its children. *)
Fixpoint well_formed (it : Item) : bool :=
  match it with
  | mkItem (Some _) None => true
  | mkItem None (Some cs) => forallb well_formed cs
  | _ => false
  end.

(** An upper bound on the encoded size of an Item: at most nine header
    bytes for each node, plus its payload. *)
Fixpoint max_size (it : Item) : Z :=
  match it with
  | mkItem (Some d) _ => 9 + Z.of_nat (length d)
  | mkItem None None => 9
  | mkItem None (Some cs) => 9 + fold_right Z.add 0 (map max_size cs)
  end.

(** Following the words of the spec (section 4.1): "[big-endian(n, k)],
    where [k] is the minimum number of bytes needed to represent [n]"
    ([1 <= k <= 8]). *)
Fixpoint spec_big_endian (k : nat) (n : Z) : list byte :=
  match k with
  | O => []
  | S k' => if n <=? 0 then [] else spec_big_endian k' (n / 256) ++ [z2b n]
  end.

(** Following the words of the spec: "[[t + k] ‖ big-endian(n, k) ‖ payload]"
    with [t = 0xB7] for a string and [t = 0xF7] for a list. *)
Definition spec_long_form (t : Z) (payload : list byte) : list byte :=
  let be := spec_big_endian 8 (Z.of_nat (length payload)) in
  z2b (t + Z.of_nat (length be)) :: be ++ payload.

(** *** Predicates used to state the properties of the codec *)

(** The bytes [e] sit in the buffer of [s] from index [i] on, inside
    its length. *)
Definition holds_at (s : slice) (i : Z) (e : list byte) : Prop :=
  exists pre rest, arr s = pre ++ e ++ rest /\ Z.of_nat (length pre) = i /\
    i + Z.of_nat (length e) <= len s.

(** Wherever [e] sits in a buffer, the list loop of [Decode] measures
    it as one item of [length e] bytes. *)
Definition spans (e : list byte) : Prop :=
  forall s i, holds_at s i e -> childLength s i = Ok (Z.of_nat (length e)).

(** The index of the first child, as [Decode] computes it from the
    first byte of a list. *)
Definition header_len (b0 : byte) : Z :=
  if listNL <=? b2z b0 then 1 + (b2z b0 - list55H) mod 256 else 1.

(** [e] is measured as one item by the list loop and the recursive
    call [dec] makes the child [c] of it. *)
Definition good (dec : slice -> result Item) (c : Item) (e : list byte) : Prop :=
  (1 <= length e)%nat /\ spans e /\ forall rest, dec (slice_of e rest) = Ok c.

(** [e] is the encoding of [it], and decodes back to it. *)
Definition codes (it : Item) (e : list byte) : Prop :=
  Encode it = Ok e /\
  1 <= Z.of_nat (length e) <= max_size it /\
  spans e /\
  forall fuel rest, (length e <= fuel)%nat ->
    Decode_fuel fuel (slice_of e rest) = Ok it.

Definition fits (it : Item) : Prop := well_formed it = true /\ max_size it < 2 ^ 56.

Definition str (d : list byte) : Item := mkItem (Some d) None.
Definition lst (cs : list Item) : Item := mkItem None (Some cs).

(** The Item that [Encode] reads in an Item: [L] is not looked at when
    [D] is set, and a nil [L] is ranged over like an empty one. *)
Fixpoint canon (it : Item) : Item :=
  match it with
  | mkItem (Some d) _ => mkItem (Some d) None
  | mkItem None None => mkItem None (Some [])
  | mkItem None (Some cs) => mkItem None (Some (map canon cs))
  end.

(** The list loop of [Decode], started at index [i], finds items of
    the lengths [ns] one after the other, each starting inside the
    length of the buffer. *)
Fixpoint measured (s : slice) (i : Z) (ns : list Z) : Prop :=
  match ns with
  | [] => True
  | n :: ns' => i < len s /\ childLength s i = Ok n /\ measured s (i + n) ns'
  end.

(** *** Items behind pointers *)

(** [Item] above holds its children themselves.  In the program [L]
    is a slice of pointers and [Encode] takes a pointer, any of which
    may be nil: [PItem] keeps the pointers, [None] being nil. *)
#[warnings="-register-all"]
Inductive PItem : Type :=
| mkPItem (D : option (list byte)) (L : option (list (option PItem))).

(** The loop over [input.L] when it holds pointers: [Encode] of a nil
    pointer reads [input.D] and panics. *)
Fixpoint encodeChildrenP (enc : PItem -> result (list byte))
    (cs : list (option PItem)) (out : list byte) : result (list byte) :=
  match cs with
  | [] => Ok out
  | None :: _ => Panic
  | Some c :: cs' => let* e := enc c in encodeChildrenP enc cs' (out ++ e)
  end.

(** [Encode] on what a non-nil pointer points to. *)
Fixpoint EncodeP (input : PItem) : result (list byte) :=
  match input with
  | mkPItem (Some d) _ =>
      let n := Z.of_nat (length d) in
      if (n =? 1) && (b2z (nth 0 d x00) <=? str1H) then Ok d
      else if n <=? 55 then Ok (z2b (str55L + n) :: d)
      else let* hd := encodeLength str55H n in Ok (hd ++ d)
  | mkPItem None None => encodeList []
  | mkPItem None (Some cs) =>
      let* out := encodeChildrenP EncodeP cs [] in encodeList out
  end.

(** [Encode(input)] for a pointer [input]. *)
Definition EncodePtr (input : option PItem) : result (list byte) :=
  match input with
  | None => Panic
  | Some x => EncodeP x
  end.

(** What [Encode] reads behind a pointer, as an [Item]: the children
    of a node that sets [D] are not looked at, a nil [L] is ranged over
    like an empty one, and there is nothing to read ([None]) when a
    pointer that [Encode] follows is nil. *)
Fixpoint readChildren (rd : PItem -> option Item) (cs : list (option PItem))
    : option (list Item) :=
  match cs with
  | [] => Some []
  | None :: _ => None
  | Some c :: cs' =>
      match rd c, readChildren rd cs' with
      | Some c', Some r => Some (c' :: r)
      | _, _ => None
      end
  end.

Fixpoint readItem (x : PItem) : option Item :=
  match x with
  | mkPItem (Some d) _ => Some (mkItem (Some d) None)
  | mkPItem None None => Some (mkItem None (Some []))
  | mkPItem None (Some cs) =>
      match readChildren readItem cs with
      | Some cs' => Some (mkItem None (Some cs'))
      | None => None
      end
  end.

Definition readPtr (p : option PItem) : option Item :=
  match p with
  | None => None
  | Some x => readItem x
  end.

(** An [Item] as a tree of pointers, none of them nil. *)
Fixpoint lift (it : Item) : PItem :=
  match it with
  | mkItem d None => mkPItem d None
  | mkItem d (Some cs) => mkPItem d (Some (map (fun c => Some (lift c)) cs))
  end.

End Rlp.

Module Kademlia.

(** ** package discv4, kademlia.go *)

Definition maxBucketSize : Z := 16.
Definition addrByteSize : Z := 256.
Definition bucketsCount : Z := 20.
Definition minLogDistance : Z := addrByteSize + 1 - bucketsCount.

(** Modelled from the spec: package [enr] is not under src/.  A node
    record carries its 256-bit NodeID ([nodeAddr]) next to the rest of
    the record ([contents]); [NodeAddrHex] prints the NodeID in hex,
    which is one-to-one, so the key is the NodeID itself. *)
Record ENR : Type := mkENR { nodeAddr : Z; contents : Z }.

Definition NodeAddrHex (n : ENR) : Z := nodeAddr n.

(** Modelled from the spec: [enr.LogDistance] is not under src/;
    "log-distance(a, b) = 256 - leading_zero_bits(a XOR b); distance 0
    means identical". *)
Definition LogDistance (a b : ENR) : Z :=
  let x := Z.lxor (nodeAddr a) (nodeAddr b) in
  if x =? 0 then 0 else Z.log2 x + 1.

Record bucketEntry : Type := mkEntry { node : ENR; lastSeen : Z }.

(** An element of a [container/list] list: its identity (the pointer
    to the [list.Element]) and its value. *)
Definition Element : Type := (nat * bucketEntry)%type.

(** [entriesMap] is [None] for the nil map. *)
Record kBucket : Type := mkBucket {
  lru : list Element;
  entriesMap : option (gmap Z nat)
}.

(** *** container/list *)

(** The identity of a newly allocated element: one the list does not hold. *)
Definition fresh (l : list Element) : nat := S (fold_right Nat.max 0%nat (map fst l)).

Definition PushFront (v : bucketEntry) (l : list Element) : list Element * nat :=
  ((fresh l, v) :: l, fresh l).

Definition is_el (e : nat) (x : Element) : bool := Nat.eqb (fst x) e.

(** [l.MoveToFront(e)]: nothing happens when [e] is not an element of [l]. *)
Definition MoveToFront (e : nat) (l : list Element) : list Element :=
  match List.find (is_el e) l with
  | Some x => x :: List.filter (fun y => negb (is_el e y)) l
  | None => l
  end.

(** [l.Remove(e)] *)
Definition Remove (e : nat) (l : list Element) : list Element :=
  List.filter (fun y => negb (is_el e y)) l.

(** [l.Back()] *)
Definition Back (l : list Element) : option Element := last l.

(** Assignment to the fields of the entry that [el.Value] points to. *)
Definition setValue (e : nat) (v : bucketEntry) (l : list Element) : list Element :=
  map (fun x => if is_el e x then (e, v) else x) l.

(** *** kBucket *)

Definition nodes (bucket : kBucket) : list ENR :=
  map (fun x => node (snd x)) (lru bucket).

(** [bucket.store(node)]; [now] is the reading of [time.Now()]. *)
Definition store (now : Z) (bucket : kBucket) (n : ENR) : result kBucket :=
  let key := NodeAddrHex n in
  match match entriesMap bucket with Some m => m !! key | None => None end with
  | Some el =>
      Ok {| lru := MoveToFront el (setValue el (mkEntry n now) (lru bucket));
            entriesMap := entriesMap bucket |}
  | None =>
      let (l1, newEntry) := PushFront (mkEntry n now) (lru bucket) in
      match entriesMap bucket with
      | None => Panic
      | Some m =>
          let m1 := <[key := newEntry]> m in
          if maxBucketSize <? Z.of_nat (length l1) then
            match Back l1 with
            | Some lastEl =>
                Ok {| lru := Remove (fst lastEl) l1;
                      entriesMap :=
                        Some (delete (NodeAddrHex (node (snd lastEl))) m1) |}
            | None => Panic
            end
          else Ok {| lru := l1; entriesMap := Some m1 |}
      end
  end.

(** *** kademliaTable *)

Record kademliaTable : Type := mkTable {
  selfNode : ENR;
  buckets : list kBucket
}.

(** [newKademliaTable]: the lists are initialised, the maps are not. *)
Definition newKademliaTable (self : ENR) : kademliaTable :=
  {| selfNode := self;
     buckets := repeat {| lru := []; entriesMap := None |} (Z.to_nat bucketsCount) |}.

Definition Insert (now : Z) (kt : kademliaTable) (n : ENR) : result kademliaTable :=
  let distance := LogDistance (selfNode kt) n in
  let distance := if distance <? minLogDistance then minLogDistance else distance in
  let i := Z.to_nat (distance - minLogDistance) in
  match nth_error (buckets kt) i with
  | None => Panic
  | Some b =>
      let* b' := store now b n in
      Ok {| selfNode := selfNode kt;
            buckets := firstn i (buckets kt) ++ b' :: skipn (S i) (buckets kt) |}
  end.

(** [enrSorter.Less] *)
Definition Less (target : ENR) (a b : ENR) : bool :=
  LogDistance a target <? LogDistance b target.

(** A slice of pointers to [enr.ENR]: its elements and its capacity.  The spare
    capacity of a slice grown by [append] holds nil pointers. *)
Definition enrSlice : Type := (list ENR * Z)%type.

(** [append(s, xs...)]: in place when the capacity allows, otherwise
    into a new array whose capacity [grow] chooses (at least the
    length needed). *)
Definition append (grow : Z -> Z -> Z) (s : enrSlice) (xs : list ENR) : enrSlice :=
  let need := Z.of_nat (length (fst s ++ xs)) in
  (fst s ++ xs, if need <=? snd s then snd s else Z.max need (grow (snd s) need)).

(** [FindClosest]; [sort] stands for [sort.Sort] with the given [Less],
    which permutes the elements of the slice in place.  A [None] in the
    result is a nil pointer. *)
Definition FindClosest (sort : (ENR -> ENR -> bool) -> list ENR -> list ENR)
    (grow : Z -> Z -> Z) (kt : kademliaTable) (target : ENR) (count : Z)
    : result (list (option ENR)) :=
  let s := fold_left (fun s b => append grow s (nodes b)) (buckets kt) ([], 0) in
  let sorted := sort (Less target) (fst s) in
  if (0 <=? count) && (count <=? snd s)
  then Ok (firstn (Z.to_nat count)
             (map Some sorted ++ repeat None (Z.to_nat (snd s) - length sorted)))
  else Panic.

(** *** Well-formed buckets *)

Definition keyOf (x : Element) : Z := NodeAddrHex (node (snd x)).

(** The map is allocated and indexes exactly the elements of the list,
    one per NodeID, and the list holds no more than [maxBucketSize]. *)
Definition bucket_ok (b : kBucket) : Prop :=
  exists m, entriesMap b = Some m /\
    List.NoDup (map fst (lru b)) /\
    List.NoDup (map keyOf (lru b)) /\
    (forall k e, m !! k = Some e <-> exists v, In (e, v) (lru b) /\ NodeAddrHex (node v) = k) /\
    Z.of_nat (length (lru b)) <= maxBucketSize.

(** The nodes of a list other than the one with the NodeID of [n]. *)
Definition without (n : ENR) (ns : list ENR) : list ENR :=
  List.filter (fun x => negb (NodeAddrHex x =? NodeAddrHex n)) ns.

(** All the entries of the table, bucket after bucket, front to back. *)
Definition entries (kt : kademliaTable) : list ENR := concat (map nodes (buckets kt)).

(** An allocated, empty bucket. *)
Definition emptyBucket : kBucket := {| lru := []; entriesMap := Some ∅ |}.

(** Storing a sequence of nodes, first to last. *)
Fixpoint storeAll (now : Z) (b : kBucket) (ns : list ENR) : result kBucket :=
  match ns with
  | [] => Ok b
  | n :: ns' => let* b' := store now b n in storeAll now b' ns'
  end.

(** *** Well-formed tables *)

(** The number of the bucket for a node: its distance from [self]
    above [minLogDistance], and 0 for every node closer than that. *)
Definition bucketOf (self n : ENR) : Z :=
  Z.max 0 (LogDistance self n - minLogDistance).

(** All the buckets are there and well formed, and every node sits in
    the bucket of its distance. *)
Definition table_ok (kt : kademliaTable) : Prop :=
  length (buckets kt) = Z.to_nat bucketsCount /\
  Forall bucket_ok (buckets kt) /\
  forall i b x, nth_error (buckets kt) i = Some b -> In x (nodes b) ->
    Z.of_nat i = bucketOf (selfNode kt) x.

(** A table with the maps of its buckets allocated. *)
Definition allocatedTable (self : ENR) : kademliaTable :=
  {| selfNode := self; buckets := repeat emptyBucket (Z.to_nat bucketsCount) |}.

(** A sequence of calls of [Insert], each with the reading of the
    clock at the call. *)
Fixpoint InsertAll (kt : kademliaTable) (calls : list (Z * ENR))
    : result kademliaTable :=
  match calls with
  | [] => Ok kt
  | (now, n) :: calls' => let* kt' := Insert now kt n in InsertAll kt' calls'
  end.

(** *** A sorting function *)

(** Insertion sort, as an instance of what [sort.Sort] does with a
    [Less], to run [FindClosest] on given tables. *)
Fixpoint insert_sorted (less : ENR -> ENR -> bool) (x : ENR) (l : list ENR)
    : list ENR :=
  match l with
  | [] => [x]
  | y :: l' => if less y x then y :: insert_sorted less x l' else x :: l
  end.

Definition insertion_sort (less : ENR -> ENR -> bool) (l : list ENR) : list ENR :=
  fold_right (insert_sorted less) [] l.

End Kademlia.

Module Discv4.

(** ** package discv4, the protocol engine *)

(** A Go [error] is its message; [None] is the nil error. *)
Definition error : Type := string.

(** [bytes.Equal] *)
Fixpoint bytes_Equal (a b : list byte) : bool :=
  match a, b with
  | [], [] => true
  | x :: a', y :: b' => Byte.eqb x y && bytes_Equal a' b'
  | _, _ => false
  end.

(** [enr.Record]; timestamps are nanoseconds since the zero [time.Time],
    so that [IsZero] is a test against 0. *)
Record Record_ : Type := mkRecord {
  PublicKey : Z;
  Ip : list byte;
  UdpPort : Z;
  TcpPort : Z;
  SentPing : Z;
  SentPingHash : list byte;
  ReceivedPing : Z;
  ReceivedPong : Z
}.

Definition IsZero (t : Z) : bool := t =? 0.

Definition Hour : Z := 3600 * 1000000000.
Definition Minute : Z := 60 * 1000000000.

(** [time.Since(t)] when the clock reads [now].  The saturation of
    [time.Duration] does not change a comparison with [Hour] or [Minute]. *)
Definition Since (now t : Z) : Z := now - t.

Definition set_ReceivedPing (r : Record_) (t : Z) : Record_ :=
  mkRecord (PublicKey r) (Ip r) (UdpPort r) (TcpPort r)
           (SentPing r) (SentPingHash r) t (ReceivedPong r).

Definition set_ReceivedPong (r : Record_) (t : Z) : Record_ :=
  mkRecord (PublicKey r) (Ip r) (UdpPort r) (TcpPort r)
           (SentPing r) (SentPingHash r) (ReceivedPing r) t.

Definition set_SentPing (r : Record_) (t : Z) (h : list byte) : Record_ :=
  mkRecord (PublicKey r) (Ip r) (UdpPort r) (TcpPort r)
           t h (ReceivedPing r) (ReceivedPong r).

(** The packages the engine imports that are not under src/: the rlp
    package in the version that returns errors, the hashing and
    signature helpers, and [net.IP]. *)
Record Externals : Type := mkExternals {
  item : Type;
  rlp_Decode : list byte -> item + error;
  At : item -> Z -> item;
  List_ : item -> list item;
  IP : item -> list byte + error;
  Uint16 : item -> Z;
  Hash : item -> list byte + error;
  Time_ : item -> Z;
  Secp256k1PublicKey : item -> Z + error;
  Keccak : list byte -> list byte;
  Recover : list byte -> list byte -> Z + error;
  MarshalRLP : Record_ -> list byte + error;
  NodeID : Z -> Z;
  IP_Equal : list byte -> list byte -> bool
}.

(** What one call of [p.Ping] reads from outside: the clock inside
    [time.Since], the clock when the ping is recorded, and the outcome
    [(hash, err)] of [p.write]. *)
Record pingEnv : Type := mkPingEnv {
  pe_since : Z;
  pe_now : Z;
  pe_write : list byte * option error
}.

(** What one datagram's handler reads from outside. *)
Record world : Type := mkWorld {
  w_pong : option error;
  w_now : Z;
  w_since : Z;
  w_ping : nat -> pingEnv;
  w_write : list byte * option error
}.

(** The state of a [process].  Package [discv4/kademlia], whose [Table]
    the process holds, is not under src/: the table is represented by
    the records passed to [ktable.Insert], latest first, which any
    implementation of the table is a function of. *)
Record process : Type := mkProcess {
  self : Record_;
  peers : gmap Z Record_;
  ktable : list Record_
}.

Definition hashSize : Z := 32.
Definition sigSize : Z := 65.
Definition kindSize : Z := 1.
Definition headerSize : Z := hashSize + sigSize + kindSize.

Section Engine.

Context (X : Externals).

(** [rec.ID()] *)
Definition ID (r : Record_) : Z := NodeID X (PublicKey r).

Definition set_peers (p : process) (m : gmap Z Record_) : process :=
  mkProcess (self p) m (ktable p).

(** [p.ktable.Insert(peer)] *)
Definition ktable_Insert (p : process) (peer : Record_) : process :=
  mkProcess (self p) (peers p) (peer :: ktable p).

Definition Ping (e : pingEnv) (p : process) (dest : Record_)
    : option error * process :=
  match peers p !! ID dest with
  | Some pr =>
      if Since (pe_since e) (SentPing pr) <? Hour then (None, p)
      else
        match snd (pe_write e) with
        | Some err => (Some err, p)
        | None =>
            let dest' := set_SentPing dest (pe_now e) (fst (pe_write e)) in
            (None, set_peers p (<[ID dest' := dest']> (peers p)))
        end
  | None =>
      match snd (pe_write e) with
      | Some err => (Some err, p)
      | None =>
          let dest' := set_SentPing dest (pe_now e) (fst (pe_write e)) in
          (None, set_peers p (<[ID dest' := dest']> (peers p)))
      end
  end.

Definition bonded (r : Record_) : bool :=
  negb (IsZero (ReceivedPing r)) && negb (IsZero (ReceivedPong r)).

Definition handlePing (w : world) (p : process) (req : Record_)
    (packet : list byte) : option error * process :=
  let pd := skipn (Z.to_nat headerSize) packet in
  match rlp_Decode X pd with
  | inr err => (Some err, p)
  | inl it =>
      match IP X (At X (At X it 1) 0) with
      | inr _ => (Some "malformed ping from data"%string, p)
      | inl reqFrom =>
          if negb (IP_Equal X reqFrom (Ip req))
          then (Some "packet ip address doesn't match udp"%string, p)
          else
            let reqFromPort := Uint16 X (At X (At X it 1) 1) in
            if negb (reqFromPort =? UdpPort req)
            then (Some "mismatch ping from-port with udp packet"%string, p)
            else
              match w_pong w with
              | Some err => (Some err, p)
              | None =>
                  let peer := match peers p !! ID req with
                              | Some pr => pr
                              | None => req
                              end in
                  let peer := set_ReceivedPing peer (w_now w) in
                  let p := set_peers p (<[ID req := peer]> (peers p)) in
                  let p := if bonded peer then ktable_Insert p peer else p in
                  if Hour <? Since (w_since w) (SentPing peer)
                  then Ping (w_ping w 0%nat) p peer
                  else (None, p)
              end
      end
  end.

Definition handlePong (w : world) (p : process) (req : Record_)
    (packet : list byte) : option error * process :=
  match rlp_Decode X (skipn (Z.to_nat headerSize) packet) with
  | inr err => (Some err, p)
  | inl it =>
      match Hash X (At X it 1) with
      | inr err => (Some err, p)
      | inl hash =>
          match peers p !! ID req with
          | None => (Some "missing peer"%string, p)
          | Some peer =>
              if negb (bytes_Equal (SentPingHash peer) hash)
              then (Some "invalid ping hash"%string, p)
              else if Minute <? Since (w_since w) (SentPing peer)
              then (Some "expired ping hash"%string, p)
              else
                let peer := set_ReceivedPong peer (w_now w) in
                let p := set_peers p (<[ID req := peer]> (peers p)) in
                let p := if bonded peer then ktable_Insert p peer else p in
                (None, p)
          end
      end
  end.

Definition handleFindNode (w : world) (p : process) (req : Record_)
    (packet : list byte) : option error * process :=
  match rlp_Decode X (skipn (Z.to_nat headerSize) packet) with
  | inr err => (Some err, p)
  | inl _ => (snd (w_write w), p)
  end.

Definition handleENRRequest (w : world) (p : process) (req : Record_)
    (packet : list byte) : option error * process :=
  match rlp_Decode X (skipn (Z.to_nat headerSize) packet) with
  | inr err => (Some err, p)
  | inl it =>
      if Time_ X (At X it 0) <? w_now w
      then (Some "expired enr request"%string, p)
      else
        match MarshalRLP X (self p) with
        | inr err => (Some err, p)
        | inl _ => (snd (w_write w), p)
        end
  end.

(** Modelled from the spec: package [isxerrors] is not under src/; "the
    error-wrapping helper formats a nil error into a non-nil value". *)
Definition isxerrors_Errorf (prefix : string) (err : option error) : option error :=
  Some (String.append prefix
          match err with Some e => e | None => "%!w(<nil>)"%string end).

(** The first loop of [handleNeighbors]: the records of the nodes listed. *)
Fixpoint neighborRecords (p : process) (nodes : item X) (idx : list nat)
    (records : list Record_) : list Record_ + error :=
  match idx with
  | [] => inl records
  | i :: idx' =>
      let node := At X nodes (Z.of_nat i) in
      match IP X (At X node 0) with
      | inr err => inr err
      | inl ip =>
          match Secp256k1PublicKey X (At X node 3) with
          | inr err =>
              inr (String.append "reading pubkey: " err)
          | inl pub =>
              let rec := mkRecord pub ip (Uint16 X (At X node 1))
                           (Uint16 X (At X node 2)) 0 [] 0 0 in
              if ID rec =? ID (self p)
              then neighborRecords p nodes idx' records
              else neighborRecords p nodes idx' (records ++ [rec])
          end
      end
  end.

(** The second loop of [handleNeighbors]: a ping to each record. *)
Fixpoint pingRecords (w : world) (k : nat) (p : process) (records : list Record_)
    : option error * process :=
  match records with
  | [] => (None, p)
  | rec :: records' =>
      match Ping (w_ping w k) p rec with
      | (Some err, p') => (Some err, p')
      | (None, p') => pingRecords w (S k) p' records'
      end
  end.

Definition handleNeighbors (w : world) (p : process) (req : Record_)
    (packet : list byte) : option error * process :=
  match rlp_Decode X (skipn (Z.to_nat headerSize) packet) with
  | inr err => (Some err, p)
  | inl it =>
      let nodes := At X it 0 in
      match neighborRecords p nodes (seq 0 (length (List_ X nodes))) [] with
      | inr err => (Some err, p)
      | inl records => pingRecords w 0 p records
      end
  end.

(** [p.serve(uaddr, packet)]; [uaddr] is the IP and the port of the sender. *)
Definition serve (w : world) (p : process) (uaddr : list byte * Z)
    (packet : list byte) : option error * process :=
  if Z.of_nat (length packet) <=? headerSize
  then (Some "discv4 packet too small"%string, p)
  else if negb (bytes_Equal (firstn (Z.to_nat hashSize) packet)
                  (Keccak X (skipn (Z.to_nat hashSize) packet)))
  then (Some "packet contains invalid hash"%string, p)
  else
    let sig := firstn (Z.to_nat sigSize) (skipn (Z.to_nat hashSize) packet) in
    match Recover X sig (Keccak X (skipn (Z.to_nat (hashSize + sigSize)) packet)) with
    | inr _ => (Some "unable to extract pubkey from packet"%string, p)
    | inl fromPubkey =>
        let req := mkRecord fromPubkey (fst uaddr) (snd uaddr mod 65536) 0 0 [] 0 0 in
        let kind := b2z (nth (Z.to_nat (hashSize + sigSize)) packet x00) in
        let '(err, p') :=
          if kind =? 1 then handlePing w p req packet
          else if kind =? 2 then handlePong w p req packet
          else if kind =? 3 then handleFindNode w p req packet
          else if kind =? 4 then handleNeighbors w p req packet
          else if kind =? 5 then handleENRRequest w p req packet
          else (None, p) in
        (isxerrors_Errorf "serving: " err, p')
    end.

(** The table gained nothing, or one record that has both timestamps. *)
Definition grows_bonded (p p' : process) : Prop :=
  ktable p' = ktable p \/
  exists r, ktable p' = r :: ktable p /\ ReceivedPing r <> 0 /\ ReceivedPong r <> 0.

(** [New]: no peers yet, and a table nothing was inserted into. *)
Definition New (self : Record_) : process :=
  {| self := self; peers := ∅; ktable := [] |}.

(** [p.write(pt, to, it)].  [rlp.Encode] is called as the function of
    package rlp above is declared, with one result; [sign] stands for
    [isxsecp256k1.Sign] with the key of the process and [wr] for the
    error of [conn.WriteTo].  The result is the packet handed to the
    connection, if the code gets that far, and the values returned. *)
Definition write (sign : list byte -> list byte + error) (wr : option error)
    (pt : byte) (it : Rlp.Item)
    : result (option (list byte) * (list byte * option error)) :=
  let* pd := Rlp.Encode it in
  let ts := [pt] ++ pd in
  match sign (Keccak X ts) with
  | inr err => Ok (None, ([], Some err))
  | inl sig =>
      let th := sig ++ [pt] ++ pd in
      let hash := Keccak X th in
      let header := hash ++ sig ++ [pt] in
      let packet := header ++ pd in
      Ok (Some packet, (hash, wr))
  end.

(** Every record of the peer map is filed under its own ID. *)
Definition keyed_by_ID (p : process) : Prop :=
  forall k r, peers p !! k = Some r -> ID r = k.

(** From [p] to [p']: the own record is the same, the filing of the
    peers under their IDs is kept, and no peer is dropped. *)
Definition keeps_peers (p p' : process) : Prop :=
  self p' = self p /\
  (keyed_by_ID p -> keyed_by_ID p') /\
  forall k, is_Some (peers p !! k) -> is_Some (peers p' !! k).

(** The datagrams that [Serve] reads, served one after the other; each
    comes with what its handler reads from outside. *)
Fixpoint serveAll (p : process)
    (inputs : list (world * (list byte * Z) * list byte)) : process :=
  match inputs with
  | [] => p
  | (w, uaddr, packet) :: rest => serveAll (snd (serve w p uaddr packet)) rest
  end.

End Engine.

(** A small instance of the external packages, to run the handlers on
    concrete datagrams. *)
Definition testExternals : Externals :=
  {| item := unit;
     rlp_Decode := fun _ => inl tt;
     At := fun _ _ => tt;
     List_ := fun _ => [];
     IP := fun _ => inl [];
     Uint16 := fun _ => 0;
     Hash := fun _ => inl [];
     Time_ := fun _ => 0;
     Secp256k1PublicKey := fun _ => inl 0;
     Keccak := fun _ => repeat x00 32;
     Recover := fun _ _ => inl 7;
     MarshalRLP := fun _ => inl [];
     NodeID := fun k => k;
     IP_Equal := bytes_Equal |}.

Definition testRecord : Record_ := mkRecord 7 [] 0 0 0 [] 0 0.
Definition testWorld (pong : option error) : world :=
  mkWorld pong 100 100 (fun _ => mkPingEnv 100 100 ([], None)) ([], None).
Definition testProcess : process := mkProcess testRecord ∅ [].

End Discv4.

(** * Properties *)

(** ** The RLP codec *)

Import Rlp.

(** Settles the comparisons of the goal that [lia] can decide. *)
Ltac leb_cases :=
  repeat match goal with
    | |- context [?a <=? ?b] =>
        first [ rewrite (proj2 (Z.leb_le a b)) by lia
              | rewrite (proj2 (Z.leb_gt a b)) by lia ]
    | |- context [?a <? ?b] =>
        first [ rewrite (proj2 (Z.ltb_lt a b)) by lia
              | rewrite (proj2 (Z.ltb_ge a b)) by lia ]
    end.

Lemma b2z_range b : 0 <= b2z b < 256.
Proof. unfold b2z. pose proof (Byte.to_N_bounded b). lia. Qed.

Lemma b2z_z2b z : b2z (z2b z) = z mod 256.
Proof.
  unfold b2z, z2b.
  assert (Hr : 0 <= z mod 256 < 256) by (apply Z.mod_pos_bound; lia).
  destruct (Byte.of_N (Z.to_N (z mod 256))) as [b|] eqn:E.
  - apply Byte.to_of_N in E. rewrite E. lia.
  - apply Byte.of_N_None_iff in E. lia.
Qed.

Lemma z2b_b2z b : z2b (b2z b) = b.
Proof.
  unfold z2b, b2z. pose proof (Byte.to_N_bounded b).
  rewrite Z.mod_small by lia. rewrite N2Z.id, Byte.of_to_N. reflexivity.
Qed.

Lemma b2z_z2b_small z : 0 <= z < 256 -> b2z (z2b z) = z.
Proof. intros. rewrite b2z_z2b. apply Z.mod_small; lia. Qed.

Lemma lor_disjoint a v s : 0 <= s -> 0 <= a < 2 ^ s -> 0 <= v ->
  Z.lor a (Z.shiftl v s) = a + v * 2 ^ s.
Proof.
  intros Hs Ha Hv. rewrite Z.shiftl_mul_pow2 by lia.
  rewrite <- Z.lxor_lor.
  - symmetry. apply Z.add_nocarry_lxor.
    apply Z.bits_inj'. intros n Hn. rewrite Z.land_spec, Z.bits_0.
    destruct (Z.lt_ge_cases n s).
    + rewrite Z.mul_pow2_bits_low by lia. apply andb_false_r.
    + destruct (Z.eq_dec a 0) as [->|Hne]; [now rewrite Z.bits_0|].
      rewrite (Z.bits_above_log2 a n); [reflexivity|lia|].
      apply Z.log2_lt_pow2; try lia. 
      apply Z.lt_le_trans with (2 ^ s); try lia. apply Z.pow_le_mono_r; lia.
  - apply Z.bits_inj'. intros n Hn. rewrite Z.land_spec, Z.bits_0.
    destruct (Z.lt_ge_cases n s).
    + rewrite Z.mul_pow2_bits_low by lia. apply andb_false_r.
    + destruct (Z.eq_dec a 0) as [->|Hne]; [now rewrite Z.bits_0|].
      rewrite (Z.bits_above_log2 a n); [reflexivity|lia|].
      apply Z.log2_lt_pow2; try lia. 
      apply Z.lt_le_trans with (2 ^ s); try lia. apply Z.pow_le_mono_r; lia.
Qed.

Lemma lor_128 y : 0 <= y < 256 -> Z.lor y 128 = y mod 128 + 128.
Proof.
  intros Hy.
  assert (H : forallb (fun n => Z.lor (Z.of_nat n) 128 =? Z.of_nat n mod 128 + 128)
                (seq 0 256) = true) by (vm_compute; reflexivity).
  rewrite forallb_forall in H.
  specialize (H (Z.to_nat y)). rewrite Z2Nat.id in H by lia.
  apply Z.eqb_eq, H, in_seq. lia.
Qed.

Lemma land_127 y : 0 <= y < 256 -> Z.land y 127 = y mod 128.
Proof.
  intros Hy.
  assert (H : forallb (fun n => Z.land (Z.of_nat n) 127 =? Z.of_nat n mod 128)
                (seq 0 256) = true) by (vm_compute; reflexivity).
  rewrite forallb_forall in H.
  specialize (H (Z.to_nat y)). rewrite Z2Nat.id in H by lia.
  apply Z.eqb_eq, H, in_seq. lia.
Qed.

Lemma PutUvarint_spec room x :
  (0 < room)%nat -> 0 <= x < 2 ^ (7 * Z.of_nat room) ->
  exists bs, PutUvarint room x = Ok bs /\
    (1 <= length bs <= room)%nat /\
    forall i acc s, s = 7 * i -> 0 <= i -> i + Z.of_nat (length bs) <= 9 ->
      0 <= acc < 2 ^ s -> acc + x * 2 ^ s < 2 ^ 64 ->
      Uvarint_loop bs i acc s = (acc + x * 2 ^ s, i + Z.of_nat (length bs)).
Proof.
  revert x. induction room as [|room IH]; intros x Hroom Hx; [lia|].
  cbn [PutUvarint]. destruct (128 <=? x) eqn:E.
  - apply Z.leb_le in E.
    assert (Hr : (0 < room)%nat).
    { destruct room; [|lia]. change (2 ^ (7 * Z.of_nat 1)) with 128 in Hx. lia. }
    destruct (IH (Z.shiftr x 7)) as (rest & Hrest & Hlen & Hdec); [exact Hr| |].
    { rewrite Z.shiftr_div_pow2 by lia. change (2 ^ 7) with 128. split.
      - apply Z.div_pos; lia.
      - apply Z.div_lt_upper_bound; [lia|].
        replace (7 * Z.of_nat (S room)) with (7 + 7 * Z.of_nat room) in Hx by lia.
        rewrite Z.pow_add_r in Hx by lia. change (2 ^ 7) with 128 in Hx. lia. }
    rewrite Hrest. cbn [rbind]. eexists. split; [reflexivity|]. split; [cbn [length]; lia|].
    intros i acc s -> Hi Hlen' Hacc Hbound. cbn [length] in Hlen'.
    cbn [Uvarint_loop]. unfold MaxVarintLen64.
    assert (Hb : b2z (z2b (Z.lor (x mod 256) 128)) = x mod 128 + 128).
    { assert (0 <= x mod 256 < 256) by (apply Z.mod_pos_bound; lia).
      assert (0 <= x mod 128 < 128) by (apply Z.mod_pos_bound; lia).
      rewrite lor_128 by lia.
      rewrite (Z.mod_mod_divide x 256 128) by (exists 2; lia).
      apply b2z_z2b_small. lia. }
    rewrite Hb.
    assert (Hm : 0 <= x mod 128 < 128) by (apply Z.mod_pos_bound; lia).
    destruct (i =? 10) eqn:E10; [apply Z.eqb_eq in E10; lia|].
    leb_cases.
    rewrite land_127 by lia.
    replace ((x mod 128 + 128) mod 128) with (x mod 128).
    2:{ rewrite <- Z.add_mod_idemp_r by lia. rewrite Z.mod_same by lia.
        rewrite Z.add_0_r. rewrite Z.mod_mod; lia. }
    assert (Hp : 0 < 2 ^ (7 * i)) by (apply Z.pow_pos_nonneg; lia).
    assert (Hx128 : x = 128 * (x / 128) + x mod 128) by (apply Z.div_mod; lia).
    assert (Hq : 0 <= x / 128) by (apply Z.div_pos; lia).
    assert (Hsmall : 0 <= x mod 128 * 2 ^ (7 * i) < 2 ^ 64) by nia.
    rewrite Z.shiftl_mul_pow2 by lia. rewrite (Z.mod_small _ (2 ^ 64)) by lia.
    rewrite <- Z.shiftl_mul_pow2 by lia. rewrite lor_disjoint by lia.
    assert (Hpow : 2 ^ (7 * i + 7) = 2 ^ (7 * i) * 128).
    { rewrite Z.pow_add_r by lia. reflexivity. }
    rewrite (Hdec (i + 1) _ (7 * i + 7)); try lia.
    + f_equal; [|cbn [length]; lia]. rewrite Z.shiftr_div_pow2 by lia. change (2 ^ 7) with 128.
      rewrite Hpow.
      transitivity (acc + (128 * (x / 128) + x mod 128) * 2 ^ (7 * i)); [ring|].
      rewrite <- Hx128. reflexivity.
    + rewrite Hpow. nia.
    + rewrite Z.shiftr_div_pow2 by lia. change (2 ^ 7) with 128. rewrite Hpow.
      replace (acc + x mod 128 * 2 ^ (7 * i) + x / 128 * (2 ^ (7 * i) * 128))
        with (acc + (128 * (x / 128) + x mod 128) * 2 ^ (7 * i)) by ring.
      rewrite <- Hx128. exact Hbound.
  - apply Z.leb_gt in E. eexists. split; [reflexivity|]. split; [cbn [length]; lia|].
    intros i acc s -> Hi Hlen' Hacc Hbound. cbn [length] in Hlen'.
    cbn [Uvarint_loop]. unfold MaxVarintLen64.
    rewrite b2z_z2b_small by lia.
    destruct (i =? 10) eqn:E10; [apply Z.eqb_eq in E10; lia|].
    leb_cases.
    destruct (i =? 10 - 1) eqn:E9; [apply Z.eqb_eq in E9; lia|]. cbn [andb].
    assert (Hp : 0 < 2 ^ (7 * i)) by (apply Z.pow_pos_nonneg; lia).
    rewrite Z.shiftl_mul_pow2 by lia. rewrite (Z.mod_small _ (2 ^ 64)) by nia.
    rewrite <- Z.shiftl_mul_pow2 by lia. rewrite lor_disjoint by lia.
    f_equal; cbn [length]; rewrite ?Z.shiftl_mul_pow2 by lia; lia.
Qed.

Lemma encodeLength_spec t l :
  0 <= l < 2 ^ 56 ->
  exists vb, encodeLength t l = Ok (z2b (t + Z.of_nat (length vb)) :: vb) /\
    (1 <= length vb <= 8)%nat /\ Uvarint vb = (l, Z.of_nat (length vb)).
Proof.
  intros Hl. unfold encodeLength.
  assert (H64 : l mod 2 ^ 64 = l) by (apply Z.mod_small; lia).
  rewrite H64.
  destruct (PutUvarint_spec 8 l) as (vb & Hvb & Hlen & Hdec); [lia|exact Hl|].
  rewrite Hvb. cbn [rbind]. exists vb. split; [reflexivity|]. split; [exact Hlen|].
  unfold Uvarint. rewrite (Hdec 0 0 0) by (change (2 ^ 0) with 1; lia).
  f_equal; lia.
Qed.


Lemma holds_at_slice_of e rest : holds_at (slice_of e rest) 0 e.
Proof. exists [], rest. cbn. repeat split; lia. Qed.

Lemma index_at s i e j :
  holds_at s i e -> 0 <= j < Z.of_nat (length e) ->
  index s (i + j) = Ok (nth (Z.to_nat j) e x00).
Proof.
  intros (pre & rest & Harr & Hpre & Hlen) Hj. unfold index.
  assert (Hc : (0 <=? i + j) && (i + j <? len s) = true).
  { apply andb_true_intro. split; [apply Z.leb_le|apply Z.ltb_lt]; lia. }
  rewrite Hc, Harr. f_equal.
  replace (Z.to_nat (i + j)) with (length pre + Z.to_nat j)%nat by lia.
  rewrite app_nth2_plus. apply app_nth1. lia.
Qed.

Lemma index_head s i b e : holds_at s i (b :: e) -> index s i = Ok b.
Proof.
  intros Hat. pose proof (index_at s i _ 0 Hat) as H.
  rewrite Z.add_0_r in H. apply H. cbn [length]. lia.
Qed.

Lemma reslice_at s i e a b :
  holds_at s i e -> 0 <= a <= b -> b <= Z.of_nat (length e) ->
  exists rest, reslice s (i + a) (i + b)
               = Ok (mkSlice (skipn (Z.to_nat a) e ++ rest) (b - a)).
Proof.
  intros (pre & rest & Harr & Hpre & Hlen) Hab Hb. exists rest. unfold reslice, cap.
  assert (Hc : (0 <=? i + a) && (i + a <=? i + b)
               && (i + b <=? Z.of_nat (length (arr s))) = true).
  { rewrite Harr, !length_app.
    repeat (apply andb_true_intro; split); apply Z.leb_le; lia. }
  rewrite Hc, Harr. f_equal. f_equal; [|lia].
  replace (Z.to_nat (i + a)) with (length pre + Z.to_nat a)%nat by lia.
  rewrite skipn_app, skipn_all2 by lia. cbn [app].
  replace (length pre + Z.to_nat a - length pre)%nat with (Z.to_nat a) by lia.
  rewrite skipn_app. f_equal.
  replace (Z.to_nat a - length e)%nat with 0%nat by lia. reflexivity.
Qed.

Lemma slice_from_at s i e :
  holds_at s i e -> exists s', slice_from s i = Ok s' /\ holds_at s' 0 e.
Proof.
  intros (pre & rest & Harr & Hpre & Hlen). unfold slice_from.
  assert (Hc : (0 <=? i) && (i <=? len s) = true).
  { apply andb_true_intro. split; apply Z.leb_le; lia. }
  rewrite Hc. eexists. split; [reflexivity|].
  exists [], rest. cbn [arr len app length]. rewrite Harr.
  replace (Z.to_nat i) with (length pre) by lia.
  rewrite skipn_app, skipn_all, Nat.sub_diag. cbn. repeat split; lia.
Qed.

Lemma visible_exact bs rest n :
  n = Z.of_nat (length bs) -> visible (mkSlice (bs ++ rest) n) = bs.
Proof.
  intros ->. unfold visible. cbn [arr len]. rewrite Nat2Z.id.
  rewrite firstn_app, firstn_all, Nat.sub_diag. cbn. apply app_nil_r.
Qed.

Lemma decodeLength_at t s vb tail l r :
  holds_at s 0 (z2b (t + Z.of_nat (length vb)) :: vb ++ tail) ->
  (1 <= length vb <= 8)%nat -> 0 <= t -> t + 8 < 256 ->
  Uvarint vb = (l, r) ->
  decodeLength t s = Ok (Z.of_nat (length vb) + l).
Proof.
  intros Hat Hk Ht Ht8 Hu. unfold decodeLength.
  rewrite (index_head _ _ _ _ Hat). cbn [rbind].
  rewrite b2z_z2b_small by lia.
  replace ((t + Z.of_nat (length vb) - t) mod 256) with (Z.of_nat (length vb))
    by (rewrite Z.mod_small; lia).
  rewrite (Z.mod_small (Z.of_nat (length vb) + 1)) by lia.
  destruct (reslice_at s 0 _ 1 (Z.of_nat (length vb) + 1) Hat) as (rest & Hr).
  { lia. } { cbn [length]. rewrite length_app. lia. }
  rewrite !Z.add_0_l in Hr. rewrite Hr. cbn [rbind].
  change (Z.to_nat 1) with 1%nat. cbn [skipn].
  rewrite skipn_O, <- app_assoc, visible_exact by lia. rewrite Hu. reflexivity.
Qed.


Lemma Encode_string d l :
  Z.of_nat (length d) < 2 ^ 56 ->
  exists e, Encode (mkItem (Some d) l) = Ok e /\
    1 <= Z.of_nat (length e) <= 9 + Z.of_nat (length d) /\
    spans e /\
    forall fuel s, holds_at s 0 e ->
      Decode_fuel (S fuel) s = Ok (mkItem (Some d) None).
Proof.
  intros Hd. cbn [Encode]. unfold str1H, str55L, str55H.
  destruct ((Z.of_nat (length d) =? 1) && (b2z (nth 0 d x00) <=? 127)) eqn:E1.
  - apply andb_prop in E1 as [En Eb]. apply Z.eqb_eq in En. apply Z.leb_le in Eb.
    destruct d as [|b [|? ?]]; cbn [length] in En; try lia. cbn [nth] in Eb.
    exists [b]. split; [reflexivity|]. split; [cbn [length]; lia|]. split.
    + intros s i Hat. unfold childLength. rewrite (index_head _ _ _ _ Hat).
      cbn [rbind]. unfold str1H. destruct (b2z b <=? 127) eqn:E; [reflexivity|].
      apply Z.leb_gt in E. lia.
    + intros fuel s Hat. cbn [Decode_fuel]. rewrite (index_head _ _ _ _ Hat).
      cbn [rbind]. unfold str1H. destruct (b2z b <=? 127) eqn:E; [reflexivity|].
      apply Z.leb_gt in E. lia.
  - destruct (Z.of_nat (length d) <=? 55) eqn:E2.
    + apply Z.leb_le in E2. set (n := Z.of_nat (length d)) in *.
      eexists. split; [reflexivity|]. split; [cbn [length]; lia|].
      assert (Hh : b2z (z2b (128 + n)) = 128 + n) by (apply b2z_z2b_small; lia).
      split.
      * intros s i Hat. unfold childLength. rewrite (index_head _ _ _ _ Hat).
        cbn [rbind]. unfold str1H, str55H, str55L. rewrite Hh.
        leb_cases.
        f_equal. rewrite Z.mod_small by lia. cbn [length]. lia.
      * intros fuel s Hat. cbn [Decode_fuel]. rewrite (index_head _ _ _ _ Hat).
        cbn [rbind]. unfold str1H, str55H. rewrite Hh.
        leb_cases.
        replace ((128 + n - 127) mod 256) with (n + 1) by (rewrite Z.mod_small; lia).
        destruct (reslice_at s 0 _ 1 (n + 1) Hat) as (rest & Hr).
        { lia. } { cbn [length]. lia. }
        rewrite !Z.add_0_l in Hr. rewrite Hr. cbn [rbind].
        change (Z.to_nat 1) with 1%nat. cbn [skipn]. rewrite skipn_O.
        rewrite visible_exact by lia. reflexivity.
    + apply Z.leb_gt in E2. set (n := Z.of_nat (length d)) in *.
      destruct (encodeLength_spec 183 n) as (vb & Hvb & Hk & Hu); [lia|].
      rewrite Hvb. cbn [rbind app]. set (k := Z.of_nat (length vb)) in *.
      eexists. split; [reflexivity|].
      split; [cbn [length]; rewrite length_app; lia|].
      assert (Hh : b2z (z2b (183 + k)) = 183 + k) by (apply b2z_z2b_small; lia).
      split.
      * intros s i Hat. unfold childLength. rewrite (index_head _ _ _ _ Hat).
        cbn [rbind]. unfold str1H, str55H, strNH. rewrite Hh.
        leb_cases.
        destruct (slice_from_at _ _ _ Hat) as (s' & Hs' & Hat').
        rewrite Hs'. cbn [rbind].
        rewrite (decodeLength_at 183 s' vb d n _ Hat' Hk) by (try lia; exact Hu).
        cbn [rbind]. f_equal. cbn [length]. rewrite length_app. lia.
      * intros fuel s Hat. cbn [Decode_fuel]. rewrite (index_head _ _ _ _ Hat).
        cbn [rbind]. unfold str1H, str55H, strNH. rewrite Hh.
        leb_cases.
        rewrite (decodeLength_at 183 s vb d n _ Hat Hk) by (try lia; exact Hu).
        cbn [rbind]. fold k.
        replace ((1 + (183 + k - 183) mod 256) mod 256) with (1 + k)
          by (rewrite (Z.mod_small (183 + k - 183)) by lia; rewrite Z.mod_small; lia).
        destruct (reslice_at s 0 _ (1 + k) (1 + (k + n)) Hat) as (rest & Hr).
        { lia. } { cbn [length]. rewrite length_app. lia. }
        rewrite !Z.add_0_l in Hr. rewrite Hr. cbn [rbind].
        replace (Z.to_nat (1 + k)) with (S (length vb)) by lia. cbn [skipn].
        rewrite skipn_app, skipn_all, Nat.sub_diag. cbn [app skipn].
        rewrite ?skipn_O, visible_exact by (unfold n, k; lia). reflexivity.
Qed.


Lemma encodeList_frame out :
  Z.of_nat (length out) < 2 ^ 56 ->
  exists b0 hd, encodeList out = Ok ((b0 :: hd) ++ out) /\
    (length hd <= 8)%nat /\ 191 < b2z b0 /\
    header_len b0 = 1 + Z.of_nat (length hd) /\
    spans ((b0 :: hd) ++ out).
Proof.
  intros Hm. unfold encodeList, header_len, list55L, list55H, listNL.
  set (m := Z.of_nat (length out)) in *.
  destruct (m <=? 55) eqn:E.
  - apply Z.leb_le in E. exists (z2b (192 + m)), [].
    assert (Hh : b2z (z2b (192 + m)) = 192 + m) by (apply b2z_z2b_small; lia).
    rewrite Hh. split; [reflexivity|]. split; [cbn [length]; lia|]. split; [lia|].
    split.
    + destruct (248 <=? 192 + m) eqn:Ea; [apply Z.leb_le in Ea; lia|]. reflexivity.
    + intros s i Hat. cbn [app] in *. unfold childLength.
      rewrite (index_head _ _ _ _ Hat). cbn [rbind].
      unfold str1H, str55H, strNH, list55H, list55L. rewrite Hh.
      leb_cases.
      f_equal. rewrite Z.mod_small by lia. cbn [length]. lia.
  - apply Z.leb_gt in E.
    destruct (encodeLength_spec 247 m) as (vb & Hvb & Hk & Hu); [lia|].
    rewrite Hvb. cbn [rbind]. set (k := Z.of_nat (length vb)) in *.
    exists (z2b (247 + k)), vb.
    assert (Hh : b2z (z2b (247 + k)) = 247 + k) by (apply b2z_z2b_small; lia).
    rewrite Hh. split; [reflexivity|]. split; [lia|]. split; [lia|]. split.
    + leb_cases.
      rewrite Z.mod_small by lia. lia.
    + intros s i Hat. cbn [app] in *. unfold childLength.
      rewrite (index_head _ _ _ _ Hat). cbn [rbind].
      unfold str1H, str55H, strNH, list55H, list55L. rewrite Hh.
      leb_cases.
      destruct (slice_from_at _ _ _ Hat) as (s' & Hs' & Hat').
      rewrite Hs'. cbn [rbind].
      rewrite (decodeLength_at 247 s' vb out m _ Hat' Hk) by (try lia; exact Hu).
      cbn [rbind]. f_equal. cbn [length]. rewrite length_app. lia.
Qed.


Lemma good_count dec cs encs :
  Forall2 (good dec) cs encs -> (length cs <= length (concat encs))%nat.
Proof.
  induction 1 as [|c e cs encs (Hlen & _) _ IH]; cbn [length concat]; [lia|].
  rewrite length_app. lia.
Qed.

Lemma decodeChildren_tiles dec s rest cs encs :
  Forall2 (good dec) cs encs ->
  forall pre acc steps,
    arr s = pre ++ concat encs ++ rest ->
    len s = Z.of_nat (length pre) + Z.of_nat (length (concat encs)) ->
    (length cs <= steps)%nat ->
    decodeChildren dec s steps (Z.of_nat (length pre)) acc
    = Ok (mkItem None (Some (acc ++ cs))).
Proof.
  induction 1 as [|c e cs encs (Hlen & Hspan & Hdec) Hrest IH];
    intros pre acc steps Harr Hl Hsteps.
  - cbn [concat length] in Hl. rewrite app_nil_r.
    destruct steps; cbn [decodeChildren];
      (destruct (Z.of_nat (length pre) <? len s) eqn:E;
       [apply Z.ltb_lt in E; lia|reflexivity]).
  - cbn [concat length] in *. rewrite length_app in Hl.
    destruct steps as [|steps]; [lia|]. cbn [decodeChildren].
    leb_cases.
    assert (Hat : holds_at s (Z.of_nat (length pre)) e).
    { exists pre, (concat encs ++ rest). rewrite <- app_assoc in Harr.
      split; [exact Harr|]. split; lia. }
    rewrite (Hspan _ _ Hat). cbn [rbind].
    destruct (reslice_at s _ e 0 (Z.of_nat (length e)) Hat) as (r & Hr); [lia..|].
    rewrite Z.add_0_r in Hr. rewrite Hr. cbn [rbind].
    change (Z.to_nat 0) with 0%nat. rewrite skipn_O, Z.sub_0_r.
    change {| arr := e ++ r; len := Z.of_nat (length e) |} with (slice_of e r).
    rewrite Hdec. cbn [rbind].
    replace (Z.of_nat (length pre) + Z.of_nat (length e))
      with (Z.of_nat (length (pre ++ e))) by (rewrite length_app; lia).
    rewrite (IH (pre ++ e) (acc ++ [c]) steps).
    + rewrite <- app_assoc. reflexivity.
    + rewrite Harr, <- !app_assoc. reflexivity.
    + rewrite length_app. lia.
    + lia.
Qed.

Lemma Decode_list_at f b0 hd cs encs rest :
  Forall2 (good (Decode_fuel f)) cs encs ->
  191 < b2z b0 -> header_len b0 = 1 + Z.of_nat (length hd) ->
  Decode_fuel (S f) (slice_of ((b0 :: hd) ++ concat encs) rest)
  = Ok (mkItem None (Some cs)).
Proof.
  intros Hgood Hb Hh. cbn [Decode_fuel].
  rewrite (index_head _ 0 b0 (hd ++ concat encs)) by apply holds_at_slice_of.
  cbn [rbind]. unfold str1H, str55H, strNH.
  leb_cases.
  fold (header_len b0). rewrite Hh.
  replace (1 + Z.of_nat (length hd)) with (Z.of_nat (length (b0 :: hd)))
    by (cbn [length]; lia).
  pose proof (good_count _ _ _ Hgood) as Hc.
  apply (decodeChildren_tiles _ _ rest cs encs Hgood (b0 :: hd) []).
  - unfold slice_of. cbn [arr]. rewrite <- app_assoc. reflexivity.
  - unfold slice_of. cbn [len]. rewrite length_app. lia.
  - unfold slice_of. cbn [len]. rewrite Nat2Z.id, length_app. lia.
Qed.

Lemma Item_nested_ind (P : Item -> Prop) :
  (forall d, P (mkItem d None)) ->
  (forall d cs, Forall P cs -> P (mkItem d (Some cs))) ->
  forall it, P it.
Proof.
  intros Hnil Hcons. fix IH 1. intros [d [cs|]]; [|apply Hnil].
  apply Hcons. induction cs as [|c cs IHcs]; constructor; [apply IH|exact IHcs].
Qed.

Lemma max_size_pos it : 9 <= max_size it.
Proof.
  induction it as [d|d cs IH] using Item_nested_ind.
  - destruct d; cbn [max_size]; lia.
  - destruct d; cbn [max_size]; [lia|].
    assert (0 <= fold_right Z.add 0 (map max_size cs)); [|lia].
    induction IH as [|c cs Hc _ IH]; cbn [map fold_right]; lia.
Qed.

Lemma sum_max_size_nonneg cs : 0 <= fold_right Z.add 0 (map max_size cs).
Proof.
  induction cs as [|c cs IH]; cbn [map fold_right]; [lia|].
  pose proof (max_size_pos c). lia.
Qed.



Lemma codes_children cs :
  Forall (fun c => fits c -> exists e, codes c e) cs ->
  forallb well_formed cs = true ->
  fold_right Z.add 0 (map max_size cs) < 2 ^ 56 ->
  exists encs, Forall2 codes cs encs /\
    Z.of_nat (length (concat encs)) <= fold_right Z.add 0 (map max_size cs) /\
    forall out, encodeChildren Encode cs out = Ok (out ++ concat encs).
Proof.
  induction 1 as [|c cs Hc Hcs IH]; intros Hwf Hsz.
  - exists []. split; [constructor|]. split; [cbn; lia|].
    intros out. cbn. rewrite app_nil_r. reflexivity.
  - cbn [forallb map fold_right] in *. apply andb_prop in Hwf as [Hwc Hwcs].
    pose proof (max_size_pos c) as Hpc.
    pose proof (sum_max_size_nonneg cs) as Hpcs.
    destruct IH as (encs & Hall & Hlen & Henc); [exact Hwcs|lia|].
    destruct Hc as (e & He); [split; [exact Hwc|lia]|].
    exists (e :: encs). split; [constructor; assumption|].
    destruct He as (Hee & Hel & Hrest). split.
    + cbn [concat]. rewrite length_app. lia.
    + intros out. cbn [encodeChildren concat]. rewrite Hee. cbn [rbind].
      rewrite Henc, app_assoc. reflexivity.
Qed.

Lemma codes_good f cs encs :
  Forall2 codes cs encs -> (length (concat encs) <= f)%nat ->
  Forall2 (good (Decode_fuel f)) cs encs.
Proof.
  induction 1 as [|c e cs encs (He & Hl & Hs & Hd) _ IH]; intros Hf; [constructor|].
  cbn [concat] in Hf. rewrite length_app in Hf.
  constructor; [|apply IH; lia].
  split; [lia|]. split; [exact Hs|]. intros rest. apply Hd. lia.
Qed.

Lemma codes_exists it : fits it -> exists e, codes it e.
Proof.
  induction it as [d|d cs IH] using Item_nested_ind; intros [Hwf Hsz].
  - destruct d as [d|]; [|discriminate Hwf]. cbn [max_size] in Hsz.
    destruct (Encode_string d None) as (e & He & Hl & Hs & Hd); [lia|].
    exists e. split; [exact He|]. split; [cbn [max_size]; lia|]. split; [exact Hs|].
    intros fuel rest Hf. destruct fuel as [|fuel]; [lia|].
    apply Hd, holds_at_slice_of.
  - destruct d as [d|]; [discriminate Hwf|]. cbn [well_formed max_size] in *.
    pose proof (sum_max_size_nonneg cs) as Hpcs.
    destruct (codes_children cs IH Hwf) as (encs & Hall & Hlen & Henc); [lia|].
    destruct (encodeList_frame (concat encs)) as (b0 & hd & Hf & Hhd & Hb & Hh & Hs);
      [lia|].
    exists ((b0 :: hd) ++ concat encs). split.
    + cbn [Encode]. rewrite Henc. cbn [rbind app]. exact Hf.
    + split; [cbn [length app max_size]; rewrite length_app; lia|]. split; [exact Hs|].
      intros fuel rest Hfuel. destruct fuel as [|fuel]; [cbn [length app] in Hfuel; lia|].
      apply Decode_list_at; [|exact Hb|exact Hh].
      apply codes_good; [exact Hall|]. cbn [length app] in Hfuel.
      rewrite length_app in Hfuel. lia.
Qed.

(** C2.  For every well-formed Item tree (each node sets exactly one
    of [D] and [L]) that fits in memory, [Encode] returns and [Decode]
    of the bytes returned gives the tree back, whatever lies in the
    spare capacity of the buffer; a byte string is the case of a tree
    with a single node. *)
Theorem Decode_Encode_roundtrip it :
  well_formed it = true -> max_size it < 2 ^ 56 ->
  exists bs, Encode it = Ok bs /\
    forall spare, Decode (slice_of bs spare) = Ok it.
Proof.
  intros Hwf Hsz. destruct (codes_exists it (conj Hwf Hsz)) as (e & He & _ & _ & Hd).
  exists e. split; [exact He|]. intros spare. apply Hd.
  unfold slice_of. cbn [arr]. rewrite length_app. lia.
Qed.

Lemma Decode_Encode_roundtrip_witness :
  let it := lst [str [x63; x61; x74]; lst []; str (repeat x61 60); str [x80]] in
  exists bs, Encode it = Ok bs /\
    forall spare, Decode (slice_of bs spare) = Ok it.
Proof.
  intros it. apply (Decode_Encode_roundtrip it); reflexivity.
Defined.

(** Below 128 the varint of [encodeLength] and the big-endian form of
    the spec are the same single byte. *)
Lemma encodeLength_below_128 t payload :
  55 < Z.of_nat (length payload) < 128 ->
  (let* hd := encodeLength t (Z.of_nat (length payload)) in Ok (hd ++ payload))
  = Ok (spec_long_form t payload).
Proof.
  intros Hn. unfold encodeLength, spec_long_form.
  set (n := Z.of_nat (length payload)) in *.
  rewrite (Z.mod_small n (2 ^ 64)) by lia.
  change (PutUvarint 8 n) with
    (if 128 <=? n
     then let* rest := PutUvarint 7 (Z.shiftr n 7) in
          Ok (z2b (Z.lor (n mod 256) 128) :: rest)
     else Ok [z2b n]).
  leb_cases.
  cbn [rbind length app]. cbn [spec_big_endian].
  leb_cases.
  assert (Hq : n / 256 = 0) by (apply Z.div_small; lia).
  rewrite Hq. cbn [Z.leb Z.compare app length]. reflexivity.
Qed.

(** From 128 to 255 the varint takes two bytes, the low seven bits
    first, where the big-endian form takes one. *)
Lemma encodeLength_128_255 t payload :
  128 <= Z.of_nat (length payload) < 256 ->
  encodeLength t (Z.of_nat (length payload))
  = Ok [z2b (t + 2); z2b (Z.of_nat (length payload)); x01] /\
  spec_long_form t payload
  = z2b (t + 1) :: z2b (Z.of_nat (length payload)) :: payload.
Proof.
  intros Hn. unfold encodeLength, spec_long_form.
  set (n := Z.of_nat (length payload)) in *.
  rewrite (Z.mod_small n (2 ^ 64)) by lia.
  assert (Hs : Z.shiftr n 7 = 1).
  { rewrite Z.shiftr_div_pow2 by lia. change (2 ^ 7) with 128.
    symmetry. apply (Z.div_unique n 128 1 (n - 128)); lia. }
  assert (Hq : n / 256 = 0) by (apply Z.div_small; lia).
  split.
  - cbn [PutUvarint]. rewrite Hs. leb_cases. cbn [Z.leb Z.compare rbind length].
    rewrite (Z.mod_small n 256), lor_128 by lia.
    replace (n mod 128 + 128) with n; [reflexivity|].
    rewrite (Z.mod_eq n 128) by lia.
    replace (n / 128) with 1; [lia|].
    apply (Z.div_unique n 128 1 (n - 128)); lia.
  - cbn [spec_big_endian]. leb_cases. reflexivity.
Qed.

(** C1.  For a payload of 128 to 255 bytes the header that [Encode]
    writes is not the one the claim describes: [encodeLength] writes
    the length as a varint (two bytes, so the first byte is [0xB9] for
    a string and [0xF9] for a list) where the minimal big-endian form
    is a single byte (first byte [0xB8] or [0xF8]). *)
Theorem Encode_length_is_varint payload cs out :
  128 <= Z.of_nat (length payload) < 256 ->
  encodeChildren Encode cs [] = Ok out ->
  128 <= Z.of_nat (length out) < 256 ->
  Encode (str payload)
  = Ok ([xb9; z2b (Z.of_nat (length payload)); x01] ++ payload) /\
  spec_long_form 183 payload
  = [xb8; z2b (Z.of_nat (length payload))] ++ payload /\
  Encode (lst cs) = Ok ([xf9; z2b (Z.of_nat (length out)); x01] ++ out) /\
  spec_long_form 247 out = [xf8; z2b (Z.of_nat (length out))] ++ out.
Proof.
  intros Hp Hcs Hout.
  destruct (encodeLength_128_255 183 payload Hp) as [Hs1 Hs2].
  destruct (encodeLength_128_255 247 out Hout) as [Hl1 Hl2].
  repeat split.
  - unfold str. cbn [Encode]. unfold str1H, str55H in *.
    replace ((Z.of_nat (length payload) =? 1)) with false
      by (symmetry; apply Z.eqb_neq; lia).
    cbn [andb]. leb_cases. rewrite Hs1. reflexivity.
  - exact Hs2.
  - unfold lst. cbn [Encode]. rewrite Hcs. cbn [rbind]. unfold encodeList.
    unfold list55H in *. leb_cases. rewrite Hl1. reflexivity.
  - exact Hl2.
Qed.

Lemma Encode_length_is_varint_witness :
  let payload := repeat x00 128 in
  let child := str (repeat x00 126) in
  Encode (str payload) = Ok ([xb9; x80; x01] ++ payload) /\
  spec_long_form 183 payload = [xb8; x80] ++ payload /\
  Encode (lst [child]) = Ok ([xf9; x80; x01] ++ [xb8; x7e] ++ repeat x00 126) /\
  spec_long_form 247 ([xb8; x7e] ++ repeat x00 126)
  = [xf8; x80] ++ [xb8; x7e] ++ repeat x00 126.
Proof.
  intros payload child.
  apply (Encode_length_is_varint payload [child] ([xb8; x7e] ++ repeat x00 126));
    [vm_compute; split; [discriminate|reflexivity]
    |reflexivity
    |vm_compute; split; [discriminate|reflexivity]].
Defined.

(** C8.  [Encode] never looks at [L] once [D] is set: an Item that sets
    both is encoded as its byte string, and no error is reported. *)
Theorem Encode_both_set d cs :
  Encode (mkItem (Some d) (Some cs)) = Encode (mkItem (Some d) None) /\
  Encode (mkItem (Some []) (Some [])) = Ok [x80].
Proof. split; reflexivity. Qed.

(** *** The fuel of [Decode] never runs out *)

Lemma Uvarint_loop_nonneg buf : forall i x s,
  0 <= x -> 0 <= fst (Uvarint_loop buf i x s).
Proof.
  induction buf as [|b buf IH]; intros i x s Hx; cbn [Uvarint_loop fst]; [lia|].
  assert (Hm : forall v, 0 <= Z.lor x (v mod 2 ^ 64)).
  { intros v. apply Z.lor_nonneg. split; [exact Hx|].
    apply Z.mod_pos_bound. lia. }
  destruct (i =? MaxVarintLen64); [cbn [fst]; lia|].
  destruct (b2z b <? 128).
  - destruct (_ && _); cbn [fst]; [lia|apply Hm].
  - apply IH, Hm.
Qed.

Lemma decodeLength_nonneg t s l : decodeLength t s = Ok l -> 0 <= l.
Proof.
  unfold decodeLength. destruct (index s 0) as [b0| |]; cbn [rbind]; try discriminate.
  destruct (reslice s 1 _) as [s'| |]; cbn [rbind]; try discriminate.
  intros [= <-].
  pose proof (Z.mod_pos_bound (b2z b0 - t) 256 ltac:(lia)).
  pose proof (Uvarint_loop_nonneg (visible s') 0 0 0 ltac:(lia)).
  unfold Uvarint. lia.
Qed.

Lemma childLength_pos s i n : childLength s i = Ok n -> 1 <= n.
Proof.
  unfold childLength. destruct (index s i) as [b| |]; cbn [rbind]; try discriminate.
  assert (Hm : forall v, 0 <= v mod 256) by (intros v; apply Z.mod_pos_bound; lia).
  assert (Hd : forall t, (let* rest := slice_from s i in
                          let* l := decodeLength t rest in Ok (1 + l)) = Ok n ->
                         1 <= n).
  { intros t. destruct (slice_from s i) as [rest| |]; cbn [rbind]; try discriminate.
    destruct (decodeLength t rest) as [l| |] eqn:El; cbn [rbind]; try discriminate.
    intros [= <-]. apply decodeLength_nonneg in El. lia. }
  destruct (b2z b <=? str1H); [intros [= <-]; lia|].
  destruct (b2z b <=? str55H); [intros [= <-]; specialize (Hm (b2z b - str55L)); lia|].
  destruct (b2z b <=? strNH); [apply Hd|].
  destruct (b2z b <=? list55H); [intros [= <-]; specialize (Hm (b2z b - list55L)); lia|].
  apply Hd.
Qed.

Lemma index_fuel s i : index s i <> OutOfFuel.
Proof. unfold index. destruct (_ && _); discriminate. Qed.

Lemma reslice_fuel s i j : reslice s i j <> OutOfFuel.
Proof. unfold reslice. destruct (_ && _); discriminate. Qed.

Lemma slice_from_fuel s i : slice_from s i <> OutOfFuel.
Proof. unfold slice_from. destruct (_ && _); discriminate. Qed.

Lemma decodeLength_fuel t s : decodeLength t s <> OutOfFuel.
Proof.
  unfold decodeLength. pose proof (index_fuel s 0) as Hi.
  destruct (index s 0) as [b0| |]; cbn [rbind]; [|discriminate|now elim Hi].
  match goal with |- context [reslice s ?i ?j] => pose proof (reslice_fuel s i j) as Hr;
    destruct (reslice s i j); cbn [rbind]; [discriminate|discriminate|now elim Hr] end.
Qed.

Lemma childLength_fuel s i : childLength s i <> OutOfFuel.
Proof.
  unfold childLength. pose proof (index_fuel s i) as Hi.
  destruct (index s i) as [b| |]; cbn [rbind]; [|discriminate|now elim Hi].
  assert (Hd : forall t, (let* rest := slice_from s i in
                          let* l := decodeLength t rest in Ok (1 + l)) <> OutOfFuel).
  { intros t. pose proof (slice_from_fuel s i) as Hs.
    destruct (slice_from s i) as [rest| |]; cbn [rbind]; [|discriminate|now elim Hs].
    pose proof (decodeLength_fuel t rest) as Hl.
    destruct (decodeLength t rest); cbn [rbind]; [discriminate|discriminate|now elim Hl]. }
  destruct (b2z b <=? str1H); [discriminate|].
  destruct (b2z b <=? str55H); [discriminate|].
  destruct (b2z b <=? strNH); [apply Hd|].
  destruct (b2z b <=? list55H); [discriminate|apply Hd].
Qed.

Lemma reslice_shorter s i j s' :
  reslice s i j = Ok s' -> 1 <= i -> i < j ->
  (length (arr s') < length (arr s))%nat.
Proof.
  unfold reslice, cap. destruct (_ && _) eqn:E; [|discriminate].
  apply andb_prop in E as [E Ej]. apply Z.leb_le in Ej.
  intros [= <-] Hi Hij. cbn [arr]. rewrite length_skipn. lia.
Qed.

Lemma decodeChildren_fuel dec s : forall steps i acc,
  (forall s', (length (arr s') < length (arr s))%nat -> dec s' <> OutOfFuel) ->
  1 <= i -> len s - i <= Z.of_nat steps ->
  decodeChildren dec s steps i acc <> OutOfFuel.
Proof.
  induction steps as [|steps IH]; intros i acc Hdec Hi Hsteps;
    cbn [decodeChildren]; destruct (i <? len s) eqn:E; try discriminate;
    apply Z.ltb_lt in E; [lia|].
  pose proof (childLength_fuel s i) as Hn.
  destruct (childLength s i) as [n| |] eqn:En; cbn [rbind]; [|discriminate|now elim Hn].
  apply childLength_pos in En.
  pose proof (reslice_fuel s i (i + n)) as Hr.
  destruct (reslice s i (i + n)) as [s'| |] eqn:Er; cbn [rbind];
    [|discriminate|now elim Hr].
  pose proof (Hdec s' (reslice_shorter _ _ _ _ Er Hi ltac:(lia))) as Hs'.
  destruct (dec s') as [c| |]; cbn [rbind]; [|discriminate|now elim Hs'].
  apply IH; [exact Hdec|lia|lia].
Qed.

Lemma Decode_fuel_enough : forall fuel s,
  (length (arr s) < fuel)%nat -> Decode_fuel fuel s <> OutOfFuel.
Proof.
  induction fuel as [|fuel IH]; intros s Hf; [lia|]. cbn [Decode_fuel].
  pose proof (index_fuel s 0) as Hi.
  destruct (index s 0) as [b0| |] eqn:Ei; cbn [rbind]; [|discriminate|now elim Hi].
  destruct (b2z b0 <=? str1H); [discriminate|].
  destruct (b2z b0 <=? str55H).
  { match goal with |- context [reslice s ?i ?j] =>
      pose proof (reslice_fuel s i j) as Hr;
      destruct (reslice s i j); cbn [rbind]; [discriminate|discriminate|now elim Hr] end. }
  destruct (b2z b0 <=? strNH).
  { pose proof (decodeLength_fuel str55H s) as Hl.
    destruct (decodeLength str55H s) as [l| |]; cbn [rbind]; [|discriminate|now elim Hl].
    match goal with |- context [reslice s ?i ?j] =>
      pose proof (reslice_fuel s i j) as Hr;
      destruct (reslice s i j); cbn [rbind]; [discriminate|discriminate|now elim Hr] end. }
  pose proof (Z.mod_pos_bound (b2z b0 - list55H) 256 ltac:(lia)).
  apply decodeChildren_fuel.
  - intros s' Hs'. apply IH. lia.
  - destruct (listNL <=? b2z b0); lia.
  - destruct (listNL <=? b2z b0); lia.
Qed.

(** [Decode] returns an Item or panics: it is given fuel enough. *)
Lemma Decode_total s : Decode s <> OutOfFuel.
Proof. apply Decode_fuel_enough. lia. Qed.

(** *** What [Decode] does with buffers that are not an encoding *)

Lemma Decode_empty spare : Decode (slice_of [] spare) = Panic.
Proof. reflexivity. Qed.

Lemma Decode_short_string_truncated s b0 :
  index s 0 = Ok b0 -> 128 <= b2z b0 <= 183 ->
  cap s < 1 + (b2z b0 - 128) -> Decode s = Panic.
Proof.
  intros Hi Hb Hc. unfold Decode. cbn [Decode_fuel]. rewrite Hi. cbn [rbind].
  unfold str1H, str55H.
  leb_cases.
  rewrite Z.mod_small by lia. unfold reslice.
  leb_cases.
  rewrite andb_false_r. reflexivity.
Qed.

Lemma Decode_long_string_mid_header s b0 :
  index s 0 = Ok b0 -> 184 <= b2z b0 <= 191 ->
  cap s < 1 + (b2z b0 - 183) -> Decode s = Panic.
Proof.
  intros Hi Hb Hc. unfold Decode. cbn [Decode_fuel]. rewrite Hi. cbn [rbind].
  unfold str1H, str55H, strNH.
  leb_cases.
  unfold decodeLength. rewrite Hi. cbn [rbind].
  rewrite (Z.mod_small (b2z b0 - 183)) by lia.
  rewrite (Z.mod_small (b2z b0 - 183 + 1)) by lia. unfold reslice.
  leb_cases.
  rewrite andb_false_r. reflexivity.
Qed.

Lemma Decode_long_string_truncated s b0 l :
  index s 0 = Ok b0 -> 184 <= b2z b0 <= 191 ->
  decodeLength str55H s = Ok l -> cap s < 1 + l -> Decode s = Panic.
Proof.
  intros Hi Hb Hl Hc. unfold Decode. cbn [Decode_fuel]. rewrite Hi. cbn [rbind].
  unfold str1H, strNH. unfold str55H at 1.
  leb_cases.
  rewrite Hl. cbn [rbind]. unfold reslice.
  leb_cases.
  rewrite andb_false_r. reflexivity.
Qed.

Lemma Decode_child_truncated s b0 n :
  index s 0 = Ok b0 -> 192 <= b2z b0 <= 247 -> 1 < len s ->
  childLength s 1 = Ok n -> cap s < 1 + n -> Decode s = Panic.
Proof.
  intros Hi Hb Hlen Hn Hc. unfold Decode. cbn [Decode_fuel]. rewrite Hi. cbn [rbind].
  unfold str1H, str55H, strNH, listNL.
  leb_cases.
  destruct (Z.to_nat (len s)) as [|steps] eqn:Es; [lia|].
  cbn [decodeChildren].
  destruct (1 <? len s) eqn:El; [|apply Z.ltb_ge in El; lia].
  rewrite Hn. cbn [rbind]. unfold reslice.
  leb_cases.
  rewrite andb_false_r. reflexivity.
Qed.

Lemma Decode_string_ignores_rest d junk spare :
  Z.of_nat (length d) < 2 ^ 56 ->
  exists bs, Encode (str d) = Ok bs /\
    Decode (slice_of (bs ++ junk) spare) = Ok (str d).
Proof.
  intros Hd. destruct (Encode_string d None Hd) as (e & He & _ & _ & Hdec).
  exists e. split; [exact He|]. apply Hdec.
  exists [], (junk ++ spare). unfold slice_of. cbn [arr len app length].
  rewrite <- app_assoc, length_app. repeat split; lia.
Qed.

Lemma encodeChildren_codes cs encs :
  Forall2 codes cs encs ->
  forall out, encodeChildren Encode cs out = Ok (out ++ concat encs).
Proof.
  induction 1 as [|c e cs encs (He & _) _ IH]; intros out; cbn [encodeChildren concat].
  - rewrite app_nil_r. reflexivity.
  - rewrite He. cbn [rbind]. rewrite IH, app_assoc. reflexivity.
Qed.

Lemma codes_size cs encs :
  Forall2 codes cs encs ->
  Z.of_nat (length (concat encs)) <= fold_right Z.add 0 (map max_size cs).
Proof.
  induction 1 as [|c e cs encs (_ & Hl & _) _ IH]; cbn [concat map fold_right length];
    [lia|]. rewrite length_app. lia.
Qed.

Lemma Decode_list_absorbs cs xs :
  well_formed (lst (cs ++ xs)) = true -> max_size (lst (cs ++ xs)) < 2 ^ 56 ->
  exists bs more, Encode (lst cs) = Ok bs /\
    encodeChildren Encode xs [] = Ok more /\
    forall spare, Decode (slice_of (bs ++ more) spare) = Ok (lst (cs ++ xs)).
Proof.
  unfold lst. cbn [well_formed max_size]. intros Hwf Hsz.
  pose proof (sum_max_size_nonneg (cs ++ xs)) as Hpos.
  destruct (codes_children (cs ++ xs)) as (encs & Hall & Hlen & _);
    [apply Forall_forall; intros c _; apply codes_exists|exact Hwf|lia|].
  apply Forall2_app_inv_l in Hall as (e1 & e2 & H1 & H2 & ->).
  pose proof (codes_size _ _ H1) as Hs1.
  rewrite concat_app, length_app in Hlen.
  pose proof (sum_max_size_nonneg cs) as Hpos1.
  destruct (encodeList_frame (concat e1)) as (b0 & hd & Hf & Hhd & Hb & Hh & _); [lia|].
  exists ((b0 :: hd) ++ concat e1), (concat e2). split; [|split].
  - cbn [Encode]. rewrite (encodeChildren_codes _ _ H1). cbn [rbind app]. exact Hf.
  - rewrite (encodeChildren_codes _ _ H2). reflexivity.
  - intros spare. rewrite <- app_assoc, <- concat_app. unfold Decode.
    apply Decode_list_at; [|exact Hb|exact Hh].
    apply codes_good; [apply Forall2_app; assumption|].
    unfold slice_of. cbn [arr]. rewrite !length_app. cbn [length]. lia.
Qed.

(** More fuel does not change a result. *)
Lemma decodeChildren_mono dec dec' s :
  (forall s' r, dec s' = r -> r <> OutOfFuel -> dec' s' = r) ->
  forall steps i acc r,
    decodeChildren dec s steps i acc = r -> r <> OutOfFuel ->
    decodeChildren dec' s steps i acc = r.
Proof.
  intros Hdec. induction steps as [|steps IH]; intros i acc r H Hr;
    cbn [decodeChildren] in *; destruct (i <? len s); try congruence.
  destruct (childLength s i) as [n| |]; cbn [rbind] in *; try congruence.
  destruct (reslice s i (i + n)) as [s'| |]; cbn [rbind] in *; try congruence.
  destruct (dec s') as [c| |] eqn:Ec; cbn [rbind] in *.
  - rewrite (Hdec s' (Ok c) Ec ltac:(discriminate)). cbn [rbind]. apply IH; assumption.
  - rewrite (Hdec s' Panic Ec ltac:(discriminate)). exact H.
  - congruence.
Qed.

Lemma Decode_fuel_mono : forall f s r,
  Decode_fuel f s = r -> r <> OutOfFuel ->
  forall f', (f <= f')%nat -> Decode_fuel f' s = r.
Proof.
  induction f as [|f IH]; intros s r H Hr f' Hf; [cbn in H; congruence|].
  destruct f' as [|f']; [lia|]. cbn [Decode_fuel] in *.
  destruct (index s 0) as [b0| |]; cbn [rbind] in *; try exact H.
  destruct (b2z b0 <=? str1H); [exact H|].
  destruct (b2z b0 <=? str55H); [exact H|].
  destruct (b2z b0 <=? strNH); [exact H|].
  apply (decodeChildren_mono (Decode_fuel f)); [|exact H|exact Hr].
  intros s' r' H' Hr'. apply (IH s' r' H' Hr'). lia.
Qed.

Lemma measured_ge s ns : forall i, measured s i ns -> i <= i + fold_right Z.add 0 ns.
Proof.
  induction ns as [|n ns IH]; intros i Hm; cbn [fold_right]; [lia|].
  destruct Hm as (_ & Hn & Hm). apply childLength_pos in Hn.
  specialize (IH _ Hm). lia.
Qed.

Lemma decodeChildren_overrun dec s target :
  target < len s ->
  (childLength s target = Panic \/
   (exists n, childLength s target = Ok n /\ cap s < target + n) \/
   (exists n s', childLength s target = Ok n /\
                 reslice s target (target + n) = Ok s' /\ dec s' = Panic)) ->
  forall ns i steps acc it,
    measured s i ns -> target = i + fold_right Z.add 0 ns ->
    decodeChildren dec s steps i acc <> Ok it.
Proof.
  intros Ht Hover. induction ns as [|n0 ns IH]; intros i steps acc it Hm Hi.
  - cbn [fold_right] in Hi. assert (i = target) by lia. subst i.
    destruct steps as [|steps]; cbn [decodeChildren];
      rewrite (proj2 (Z.ltb_lt _ _) Ht); [discriminate|].
    destruct Hover as [Hp|[(n & Hn & Hc)|(n & s' & Hn & Hr & Hd)]].
    + rewrite Hp. discriminate.
    + rewrite Hn. cbn [rbind]. unfold reslice.
      rewrite (proj2 (Z.leb_gt (target + n) (cap s))) by lia.
      rewrite andb_false_r. discriminate.
    + rewrite Hn. cbn [rbind]. rewrite Hr. cbn [rbind]. rewrite Hd. discriminate.
  - cbn [measured] in Hm. destruct Hm as (Hlen & Hn0 & Hm). cbn [fold_right] in Hi.
    destruct steps as [|steps]; cbn [decodeChildren];
      rewrite (proj2 (Z.ltb_lt _ _) Hlen); [discriminate|].
    rewrite Hn0. cbn [rbind].
    destruct (reslice s i (i + n0)) as [s'| |]; cbn [rbind]; try discriminate.
    destruct (dec s') as [c| |]; cbn [rbind]; try discriminate.
    apply IH; [exact Hm|lia].
Qed.

Lemma header_len_pos b0 : 1 <= header_len b0.
Proof.
  unfold header_len. destruct (listNL <=? b2z b0); [|lia].
  pose proof (Z.mod_pos_bound (b2z b0 - list55H) 256). lia.
Qed.

(** Any child of any list: when the list loop, having measured the
    children before it, comes to a child whose length bytes or whose
    extent reach beyond the capacity, or to a child on which [Decode]
    panics in its turn, [Decode] panics. *)
Lemma Decode_any_child_truncated s b0 ns :
  index s 0 = Ok b0 -> 192 <= b2z b0 ->
  measured s (header_len b0) ns ->
  header_len b0 + fold_right Z.add 0 ns < len s ->
  (childLength s (header_len b0 + fold_right Z.add 0 ns) = Panic \/
   (exists n, childLength s (header_len b0 + fold_right Z.add 0 ns) = Ok n /\
              cap s < header_len b0 + fold_right Z.add 0 ns + n) \/
   (exists n s',
       childLength s (header_len b0 + fold_right Z.add 0 ns) = Ok n /\
       reslice s (header_len b0 + fold_right Z.add 0 ns)
         (header_len b0 + fold_right Z.add 0 ns + n) = Ok s' /\
       Decode s' = Panic)) ->
  Decode s = Panic.
Proof.
  intros Hi Hb Hm Hlen Hover.
  destruct (Decode s) as [it| |] eqn:E; [exfalso|reflexivity|now elim (Decode_total s)].
  unfold Decode in E. cbn [Decode_fuel] in E. rewrite Hi in E. cbn [rbind] in E.
  unfold str1H, str55H, strNH in E.
  rewrite (proj2 (Z.leb_gt (b2z b0) 127)) in E by lia.
  rewrite (proj2 (Z.leb_gt (b2z b0) 183)) in E by lia.
  rewrite (proj2 (Z.leb_gt (b2z b0) 191)) in E by lia.
  refine (decodeChildren_overrun _ s _ Hlen _ ns _ _ _ it Hm eq_refl E).
  destruct Hover as [Hp|[Hc|(n & s' & Hn & Hr & Hd)]]; [left; exact Hp|right; left; exact Hc|].
  right. right. exists n, s'. split; [exact Hn|]. split; [exact Hr|].
  pose proof (measured_ge s ns _ Hm) as Hge. pose proof (header_len_pos b0) as Hh.
  pose proof (childLength_pos _ _ _ Hn) as Hn1.
  pose proof (reslice_shorter _ _ _ _ Hr ltac:(lia) ltac:(lia)) as Hs.
  apply (Decode_fuel_mono _ _ _ Hd ltac:(discriminate)). lia.
Qed.

(** C4, as the code has it.  [Decode] has no error result: it returns
    an Item or panics.  It panics on an empty buffer, when the length
    bytes or the payload that a string header announces reach beyond
    the capacity of the buffer, and when the length bytes or the extent
    of a child of a list reach beyond it: the first child or a later
    one, behind a short or a long list header, and at any depth, since a
    panic on a child is a panic on the list.  A string is decoded from
    exactly its header and payload bytes, whatever follows.  The
    payload length in a list header is not checked: children are
    decoded, each from exactly its own header and payload bytes, up to
    the end of the buffer, so items that follow the encoding of a list
    come back as further children of that list. *)
Theorem Decode_framing :
  (forall s, Decode s <> OutOfFuel) /\
  (forall spare, Decode (slice_of [] spare) = Panic) /\
  (forall s b0, index s 0 = Ok b0 -> 128 <= b2z b0 <= 183 ->
     cap s < 1 + (b2z b0 - 128) -> Decode s = Panic) /\
  (forall s b0, index s 0 = Ok b0 -> 184 <= b2z b0 <= 191 ->
     cap s < 1 + (b2z b0 - 183) -> Decode s = Panic) /\
  (forall s b0 l, index s 0 = Ok b0 -> 184 <= b2z b0 <= 191 ->
     decodeLength str55H s = Ok l -> cap s < 1 + l -> Decode s = Panic) /\
  (forall s b0 n, index s 0 = Ok b0 -> 192 <= b2z b0 <= 247 -> 1 < len s ->
     childLength s 1 = Ok n -> cap s < 1 + n -> Decode s = Panic) /\
  (forall s b0 ns, index s 0 = Ok b0 -> 192 <= b2z b0 ->
     measured s (header_len b0) ns ->
     header_len b0 + fold_right Z.add 0 ns < len s ->
     (childLength s (header_len b0 + fold_right Z.add 0 ns) = Panic \/
      (exists n, childLength s (header_len b0 + fold_right Z.add 0 ns) = Ok n /\
                 cap s < header_len b0 + fold_right Z.add 0 ns + n) \/
      (exists n s',
          childLength s (header_len b0 + fold_right Z.add 0 ns) = Ok n /\
          reslice s (header_len b0 + fold_right Z.add 0 ns)
            (header_len b0 + fold_right Z.add 0 ns + n) = Ok s' /\
          Decode s' = Panic)) ->
     Decode s = Panic) /\
  (forall d junk spare, Z.of_nat (length d) < 2 ^ 56 ->
     exists bs, Encode (str d) = Ok bs /\
       Decode (slice_of (bs ++ junk) spare) = Ok (str d)) /\
  (forall cs xs,
     well_formed (lst (cs ++ xs)) = true -> max_size (lst (cs ++ xs)) < 2 ^ 56 ->
     exists bs more, Encode (lst cs) = Ok bs /\
       encodeChildren Encode xs [] = Ok more /\
       forall spare, Decode (slice_of (bs ++ more) spare) = Ok (lst (cs ++ xs))).
Proof.
  split; [exact Decode_total|].
  split; [exact Decode_empty|].
  split; [exact Decode_short_string_truncated|].
  split; [exact Decode_long_string_mid_header|].
  split; [exact Decode_long_string_truncated|].
  split; [exact Decode_child_truncated|].
  split; [exact Decode_any_child_truncated|].
  split; [exact Decode_string_ignores_rest|exact Decode_list_absorbs].
Qed.

Lemma Decode_framing_witness :
  Decode (slice_of [x83; x61] []) = Panic /\
  Decode (slice_of [xc3; x80; x83; x61] []) = Panic /\
  Decode (slice_of [xf8; x03; x83; x61] []) = Panic /\
  exists bs more,
    Encode (lst [str [x61]]) = Ok bs /\
    encodeChildren Encode [lst []; str (repeat x62 60)] [] = Ok more /\
    forall spare,
      Decode (slice_of (bs ++ more) spare)
      = Ok (lst ([str [x61]] ++ [lst []; str (repeat x62 60)])).
Proof.
  split.
  - apply (proj1 (proj2 (proj2 Decode_framing)) (slice_of [x83; x61] []) x83);
      [reflexivity|vm_compute; split; discriminate|reflexivity].
  - split; [|split].
    + apply (proj1 (proj2 (proj2 (proj2 (proj2 (proj2 (proj2 Decode_framing))))))
               (slice_of [xc3; x80; x83; x61] []) xc3 [1]);
        [reflexivity|vm_compute; discriminate|repeat split; reflexivity|reflexivity|].
      right. left. exists 4. split; reflexivity.
    + apply (proj1 (proj2 (proj2 (proj2 (proj2 (proj2 (proj2 Decode_framing))))))
               (slice_of [xf8; x03; x83; x61] []) xf8 []);
        [reflexivity|vm_compute; discriminate|exact I|reflexivity|].
      right. left. exists 4. split; reflexivity.
    + apply (proj2 (proj2 (proj2 (proj2 (proj2 (proj2 (proj2 (proj2 Decode_framing)))))))
               [str [x61]] [lst []; str (repeat x62 60)]); reflexivity.
Defined.

(** C4, as the claim states it, fails: a buffer that holds the
    encoding of the empty list followed by one more byte decodes to a
    list with a child; a list header that announces five bytes of
    payload over a single one, and a long-list header cut before its
    length byte, decode without failure. *)
Lemma Decode_accepts_untiled_list :
  Encode (lst []) = Ok [xc0] /\
  Decode (slice_of ([xc0] ++ [x80]) []) = Ok (lst [str []]) /\
  Decode (slice_of [xc5; x80] []) = Ok (lst [str []]) /\
  Decode (slice_of [xf8] []) = Ok (lst []).
Proof. repeat split; reflexivity. Qed.

(** *** The length header *)

Lemma PutUvarint_length room x bs :
  PutUvarint room x = Ok bs -> (1 <= length bs <= room)%nat.
Proof.
  revert x bs. induction room as [|room IH]; intros x bs H; [discriminate H|].
  cbn [PutUvarint] in H. destruct (128 <=? x).
  - destruct (PutUvarint room (Z.shiftr x 7)) as [rest| |] eqn:E; try discriminate H.
    injection H as <-. apply IH in E. cbn [length]. lia.
  - injection H as <-. cbn [length]. lia.
Qed.

Lemma PutUvarint_overflow room : forall x,
  2 ^ (7 * Z.of_nat room) <= x -> PutUvarint room x = Panic.
Proof.
  induction room as [|room IH]; intros x Hx; [reflexivity|].
  cbn [PutUvarint].
  replace (7 * Z.of_nat (S room)) with (7 * Z.of_nat room + 7) in Hx by lia.
  rewrite Z.pow_add_r in Hx by lia. change (2 ^ 7) with 128 in Hx.
  assert (Hp : 0 < 2 ^ (7 * Z.of_nat room)) by (apply Z.pow_pos_nonneg; lia).
  assert (E : (128 <=? x) = true) by (apply Z.leb_le; nia).
  rewrite E. rewrite IH.
  - reflexivity.
  - rewrite Z.shiftr_div_pow2 by lia. change (2 ^ 7) with 128.
    apply Z.div_le_lower_bound; lia.
Qed.

(** X1.  [decodeLength] undoes [encodeLength]: for a payload length
    below 2^56 the header has two to nine bytes, and from a buffer that
    starts with the header [decodeLength] returns the number of bytes
    that follow the first one, header and payload together, whatever
    comes after the header. *)
Theorem decodeLength_encodeLength t l :
  0 <= t -> t + 8 < 256 -> 0 <= l < 2 ^ 56 ->
  exists hd, encodeLength t l = Ok hd /\
    2 <= Z.of_nat (length hd) <= 9 /\
    forall tail spare,
      decodeLength t (slice_of (hd ++ tail) spare)
      = Ok (Z.of_nat (length hd) - 1 + l).
Proof.
  intros Ht Ht8 Hl.
  destruct (encodeLength_spec t l Hl) as (vb & He & Hlen & Hu).
  eexists. split; [exact He|]. cbn [length]. split; [lia|].
  intros tail spare.
  rewrite (decodeLength_at t _ vb tail l (Z.of_nat (length vb))); try assumption.
  - f_equal. lia.
  - change ((z2b (t + Z.of_nat (length vb)) :: vb) ++ tail)
      with (z2b (t + Z.of_nat (length vb)) :: vb ++ tail).
    apply holds_at_slice_of.
Qed.

Lemma decodeLength_encodeLength_witness :
  exists hd, encodeLength 183 1024 = Ok hd /\
    2 <= Z.of_nat (length hd) <= 9 /\
    forall tail spare,
      decodeLength 183 (slice_of (hd ++ tail) spare)
      = Ok (Z.of_nat (length hd) - 1 + 1024).
Proof.
  apply (decodeLength_encodeLength 183 1024); [lia|lia|vm_compute; split; [discriminate|reflexivity]].
Defined.

(** X2.  [encodeLength] has room for eight bytes of length: it panics
    (in [PutUvarint], on an index past the buffer) exactly for the
    lengths from 2^56 on. *)
Theorem encodeLength_panics_from_2_56 t l :
  0 <= l < 2 ^ 64 ->
  (encodeLength t l = Panic <-> 2 ^ 56 <= l).
Proof.
  intros Hl. unfold encodeLength. rewrite (Z.mod_small l) by lia. split.
  - intros H. destruct (Z.lt_ge_cases l (2 ^ 56)) as [Hlt|Hge]; [|exact Hge].
    destruct (PutUvarint_spec 8 l) as (vb & Hvb & _); [lia|lia|].
    rewrite Hvb in H. discriminate H.
  - intros H. rewrite PutUvarint_overflow; [reflexivity|exact H].
Qed.

Lemma encodeLength_panics_from_2_56_witness :
  encodeLength 183 (2 ^ 56) = Panic /\ encodeLength 183 (2 ^ 56 - 1) <> Panic.
Proof.
  split.
  - apply (proj2 (encodeLength_panics_from_2_56 183 (2 ^ 56)
                    ltac:(vm_compute; split; [discriminate|reflexivity]))).
    vm_compute. discriminate.
  - intros H.
    apply (proj1 (encodeLength_panics_from_2_56 183 (2 ^ 56 - 1)
                    ltac:(vm_compute; split; [discriminate|reflexivity]))) in H.
    vm_compute in H. apply H. reflexivity.
Defined.

(** *** Items that set both fields, or none *)

Lemma canon_well_formed it : well_formed (canon it) = true.
Proof.
  induction it as [d|d cs IH] using Item_nested_ind.
  - destruct d; reflexivity.
  - destruct d; [reflexivity|]. cbn [canon well_formed].
    induction IH as [|c cs Hc _ IHcs]; [reflexivity|].
    cbn [map forallb]. rewrite Hc. exact IHcs.
Qed.

Lemma canon_max_size it : max_size (canon it) = max_size it.
Proof.
  induction it as [d|d cs IH] using Item_nested_ind.
  - destruct d; reflexivity.
  - destruct d; [reflexivity|]. cbn [canon max_size]. f_equal.
    induction IH as [|c cs Hc _ IHcs]; [reflexivity|].
    cbn [map fold_right]. rewrite Hc, IHcs. reflexivity.
Qed.

Lemma canon_id it : well_formed it = true -> canon it = it.
Proof.
  induction it as [d|d cs IH] using Item_nested_ind; intros Hwf.
  - destruct d; [reflexivity|discriminate Hwf].
  - destruct d; [discriminate Hwf|]. cbn [canon well_formed] in *. do 2 f_equal.
    induction IH as [|c cs Hc _ IHcs]; [reflexivity|].
    cbn [forallb] in Hwf. apply andb_true_iff in Hwf as [Hwc Hwcs].
    cbn [map]. rewrite (Hc Hwc), (IHcs Hwcs). reflexivity.
Qed.

Lemma Encode_canon it : Encode (canon it) = Encode it.
Proof.
  induction it as [d|d cs IH] using Item_nested_ind.
  - destruct d; reflexivity.
  - destruct d; [reflexivity|]. cbn [canon Encode].
    assert (H : forall out,
      encodeChildren Encode (map canon cs) out = encodeChildren Encode cs out).
    { induction IH as [|c cs Hc _ IHcs]; intros out; [reflexivity|].
      cbn [map encodeChildren]. rewrite Hc.
      destruct (Encode c); cbn [rbind]; [apply IHcs|reflexivity|reflexivity]. }
    rewrite H. reflexivity.
Qed.

Lemma PItem_nested_ind (P : PItem -> Prop) :
  (forall d, P (mkPItem d None)) ->
  (forall d cs,
      Forall (fun c => match c with Some x => P x | None => True end) cs ->
      P (mkPItem d (Some cs))) ->
  forall x, P x.
Proof.
  intros Hnil Hcons. fix IH 1. intros [d [cs|]]; [|apply Hnil].
  apply Hcons. induction cs as [|[c|] cs IHcs]; constructor;
    [apply IH|exact IHcs|exact I|exact IHcs].
Qed.

Lemma PutUvarint_no_fuel room : forall x, PutUvarint room x <> OutOfFuel.
Proof.
  induction room as [|room IH]; intros x; cbn [PutUvarint]; [discriminate|].
  destruct (128 <=? x); [|discriminate].
  specialize (IH (Z.shiftr x 7)).
  destruct (PutUvarint room (Z.shiftr x 7)); cbn [rbind]; congruence.
Qed.

Lemma encodeLength_no_fuel t l : encodeLength t l <> OutOfFuel.
Proof.
  unfold encodeLength. pose proof (PutUvarint_no_fuel 8 (l mod 2 ^ 64)) as H.
  destruct (PutUvarint 8 (l mod 2 ^ 64)); cbn [rbind]; congruence.
Qed.

Lemma encodeList_no_fuel out : encodeList out <> OutOfFuel.
Proof.
  unfold encodeList. destruct (_ <=? 55); [discriminate|].
  pose proof (encodeLength_no_fuel list55H (Z.of_nat (length out))) as H.
  destruct (encodeLength list55H _); cbn [rbind]; congruence.
Qed.

Lemma Encode_no_fuel it : Encode it <> OutOfFuel.
Proof.
  induction it as [d|d cs IH] using Item_nested_ind.
  - destruct d as [d|]; cbn [Encode]; [|apply encodeList_no_fuel].
    destruct (_ && _); [discriminate|]. destruct (_ <=? 55); [discriminate|].
    pose proof (encodeLength_no_fuel str55H (Z.of_nat (length d))) as H.
    destruct (encodeLength str55H _); cbn [rbind]; congruence.
  - destruct d as [d|]; cbn [Encode].
    + destruct (_ && _); [discriminate|]. destruct (_ <=? 55); [discriminate|].
      pose proof (encodeLength_no_fuel str55H (Z.of_nat (length d))) as H.
      destruct (encodeLength str55H _); cbn [rbind]; congruence.
    + assert (H : forall out, encodeChildren Encode cs out <> OutOfFuel).
      { induction IH as [|c cs Hc _ IHcs]; intros out; cbn [encodeChildren];
          [discriminate|].
        destruct (Encode c); cbn [rbind]; [apply IHcs|discriminate|congruence]. }
      specialize (H []). destruct (encodeChildren Encode cs []); cbn [rbind];
        [apply encodeList_no_fuel|discriminate|congruence].
Qed.

(** [Encode] returns what it returns on the Item it reads, and panics
    when it comes to a nil pointer. *)
Lemma EncodeP_read x :
  EncodeP x = match readItem x with Some it => Encode it | None => Panic end.
Proof.
  induction x as [d|d cs IH] using PItem_nested_ind.
  - destruct d; reflexivity.
  - destruct d; [reflexivity|]. cbn [EncodeP readItem].
    assert (H : forall out,
      encodeChildrenP EncodeP cs out
      = match readChildren readItem cs with
        | Some cs' => encodeChildren Encode cs' out
        | None => Panic
        end).
    { induction IH as [|[c|] cs Hc _ IHcs]; intros out; [reflexivity| |reflexivity].
      cbn [encodeChildrenP readChildren]. rewrite Hc.
      destruct (readItem c) as [c'|]; [|reflexivity].
      destruct (Encode c') as [e| |] eqn:Ee; cbn [rbind].
      - rewrite IHcs. destruct (readChildren readItem cs) as [cs'|]; [|reflexivity].
        cbn [encodeChildren]. rewrite Ee. reflexivity.
      - destruct (readChildren readItem cs) as [cs'|]; [|reflexivity].
        cbn [encodeChildren]. rewrite Ee. reflexivity.
      - now elim (Encode_no_fuel c'). }
    rewrite H. destruct (readChildren readItem cs) as [cs'|]; reflexivity.
Qed.

Lemma readItem_well_formed x it : readItem x = Some it -> well_formed it = true.
Proof.
  revert it. induction x as [d|d cs IH] using PItem_nested_ind; intros it H.
  - destruct d; injection H as <-; reflexivity.
  - destruct d; [injection H as <-; reflexivity|]. cbn [readItem] in H.
    destruct (readChildren readItem cs) as [cs'|] eqn:E; [|discriminate H].
    injection H as <-. cbn [well_formed].
    revert cs' E. induction IH as [|[c|] cs Hc _ IHcs]; intros cs' E;
      cbn [readChildren] in E.
    + injection E as <-. reflexivity.
    + destruct (readItem c) as [c'|]; [|discriminate E].
      destruct (readChildren readItem cs) as [r|]; [|discriminate E].
      injection E as <-. cbn [forallb]. rewrite (Hc c' eq_refl), (IHcs r eq_refl).
      reflexivity.
    + discriminate E.
Qed.

Lemma readItem_lift it : readItem (lift it) = Some (canon it).
Proof.
  induction it as [d|d cs IH] using Item_nested_ind.
  - destruct d; reflexivity.
  - destruct d; [reflexivity|]. cbn [lift readItem canon].
    assert (H : readChildren readItem (map (fun c => Some (lift c)) cs)
                = Some (map canon cs)).
    { induction IH as [|c cs Hc _ IHcs]; [reflexivity|].
      cbn [map readChildren]. rewrite Hc, IHcs. reflexivity. }
    rewrite H. reflexivity.
Qed.

(** X3.  What [Encode] does with any pointer, for trees that fit in
    memory.  It panics when the pointer is nil, or when a pointer that
    it follows is: a nil child of a node that does not set [D].
    Otherwise it returns, also for a tree in which nodes set both [D]
    and [L] or neither: the result is not empty, and [Decode] of it is
    the tree as [Encode] has read it, a well-formed Item, with [L]
    dropped wherever [D] is set and a nil [L] made an empty list.  On a
    tree without nil pointers it is the [Encode] of the Items above. *)
Theorem Decode_Encode_canon p :
  (readPtr p = None -> EncodePtr p = Panic) /\
  (forall it, readPtr p = Some it -> max_size it < 2 ^ 56 ->
     well_formed it = true /\
     exists bs, EncodePtr p = Ok bs /\
       1 <= Z.of_nat (length bs) <= max_size it /\
       forall spare, Decode (slice_of bs spare) = Ok it) /\
  (forall it, p = Some (lift it) ->
     EncodePtr p = Encode it /\ readPtr p = Some (canon it)).
Proof.
  split; [|split].
  - destruct p as [x|]; [|reflexivity]. cbn [readPtr EncodePtr]. intros H.
    rewrite EncodeP_read, H. reflexivity.
  - intros it H Hsz. destruct p as [x|]; [|discriminate H].
    cbn [readPtr EncodePtr] in *. pose proof (readItem_well_formed x it H) as Hwf.
    split; [exact Hwf|].
    destruct (codes_exists it (conj Hwf Hsz)) as (e & He & Hlen & _ & Hd).
    rewrite EncodeP_read, H. exists e. split; [exact He|]. split; [exact Hlen|].
    intros spare. apply Hd. unfold slice_of. cbn [arr]. rewrite length_app. lia.
  - intros it ->. cbn [readPtr EncodePtr].
    rewrite EncodeP_read, readItem_lift. split; [apply Encode_canon|reflexivity].
Qed.

Lemma Decode_Encode_canon_witness :
  let nil_child := Some (mkPItem None (Some [Some (mkPItem None None); None])) in
  let p := Some (mkPItem None
                   (Some [Some (mkPItem None None);
                          Some (mkPItem (Some [x01; x02]) (Some [None]))])) in
  EncodePtr None = Panic /\
  EncodePtr nil_child = Panic /\
  well_formed (lst [lst []; str [x01; x02]]) = true /\
  exists bs, EncodePtr p = Ok bs /\
    1 <= Z.of_nat (length bs) <= max_size (lst [lst []; str [x01; x02]]) /\
    forall spare,
      Decode (slice_of bs spare) = Ok (lst [lst []; str [x01; x02]]).
Proof.
  intros nil_child p.
  split; [apply (proj1 (Decode_Encode_canon None)); reflexivity|].
  split; [apply (proj1 (Decode_Encode_canon nil_child)); reflexivity|].
  apply (proj1 (proj2 (Decode_Encode_canon p)) (lst [lst []; str [x01; x02]]));
    reflexivity.
Defined.

(** X4.  No encoding is the beginning of another one: when the
    encoding of [b] starts with the encoding of [a], the two encodings
    are the same and [a] and [b] are the same Item as far as [Encode]
    reads them (the same Item, when both are well formed). *)
Theorem Encode_prefix_free a b ea more :
  max_size a < 2 ^ 56 -> max_size b < 2 ^ 56 ->
  Encode a = Ok ea -> Encode b = Ok (ea ++ more) ->
  more = [] /\ canon a = canon b /\
  (well_formed a = true -> well_formed b = true -> a = b).
Proof.
  intros Ha Hb Hea Heb.
  destruct (codes_exists (canon a)) as (e1 & He1 & _ & Hs1 & Hd1).
  { split; [apply canon_well_formed|rewrite canon_max_size; exact Ha]. }
  destruct (codes_exists (canon b)) as (e2 & He2 & _ & Hs2 & Hd2).
  { split; [apply canon_well_formed|rewrite canon_max_size; exact Hb]. }
  rewrite Encode_canon in He1, He2.
  assert (e1 = ea) by congruence. assert (e2 = ea ++ more) by congruence.
  subst e1 e2.
  assert (Hm : more = []).
  { pose proof (Hs2 _ 0 (holds_at_slice_of (ea ++ more) [])) as H2.
    assert (H1 : holds_at (slice_of (ea ++ more) []) 0 ea).
    { exists [], (more ++ []). unfold slice_of. cbn [arr len app length].
      rewrite <- app_assoc, length_app. repeat split; lia. }
    apply Hs1 in H1. rewrite H1 in H2. injection H2 as H2.
    rewrite length_app in H2. destruct more; [reflexivity|cbn [length] in H2; lia]. }
  subst more. rewrite app_nil_r in Hd2.
  assert (Hc : canon a = canon b).
  { pose proof (Hd1 (length ea) [] (Nat.le_refl _)) as H1.
    pose proof (Hd2 (length ea) [] (Nat.le_refl _)) as H2. congruence. }
  split; [reflexivity|]. split; [exact Hc|].
  intros Hwa Hwb. rewrite <- (canon_id a Hwa), <- (canon_id b Hwb). exact Hc.
Qed.

Lemma Encode_prefix_free_witness :
  let a := lst [str [x61]; str [x62]] in
  let b := mkItem None (Some [mkItem (Some [x61]) (Some []); str [x62]]) in
  ([] : list byte) = [] /\ canon a = canon b /\
  (well_formed a = true -> well_formed b = true -> a = b).
Proof.
  intros a b.
  apply (Encode_prefix_free a b [xc2; x61; x62] []); reflexivity.
Defined.

Lemma encodeLength_head t l hd :
  encodeLength t l = Ok hd -> 0 <= t -> t + 8 < 256 ->
  exists b rest, hd = b :: rest /\ t + 1 <= b2z b <= t + 8.
Proof.
  unfold encodeLength. intros H Ht Ht8.
  destruct (PutUvarint 8 (l mod 2 ^ 64)) as [buf| |] eqn:E; try discriminate H.
  injection H as <-. apply PutUvarint_length in E.
  eexists _, _. split; [reflexivity|]. rewrite b2z_z2b_small; lia.
Qed.

Lemma encodeList_head out e :
  encodeList out = Ok e -> exists b rest, e = b :: rest /\ 192 <= b2z b.
Proof.
  unfold encodeList, list55L, list55H. intros H.
  destruct (Z.of_nat (length out) <=? 55) eqn:E.
  - apply Z.leb_le in E. injection H as <-. eexists _, _. split; [reflexivity|].
    rewrite b2z_z2b_small; lia.
  - destruct (encodeLength 247 _) as [hd| |] eqn:Eh; try discriminate H.
    injection H as <-.
    destruct (encodeLength_head _ _ _ Eh) as (b & rest & -> & Hb); [lia|lia|].
    eexists _, _. split; [reflexivity|]. lia.
Qed.

Lemma Encode_head it e :
  Encode it = Ok e ->
  exists b rest, e = b :: rest /\
    match it with
    | mkItem (Some _) _ => b2z b <= 191
    | mkItem None _ => 192 <= b2z b
    end.
Proof.
  intros H. destruct it as [[d|] l].
  - cbn [Encode] in H. unfold str1H, str55L, str55H in H.
    destruct ((Z.of_nat (length d) =? 1) && (b2z (nth 0 d x00) <=? 127)) eqn:E1.
    + apply andb_true_iff in E1 as [En Eb]. apply Z.eqb_eq in En. apply Z.leb_le in Eb.
      injection H as <-. destruct d as [|b [|? ?]]; cbn [length] in En; try lia.
      exists b, []. split; [reflexivity|]. cbn [nth] in Eb. lia.
    + destruct (Z.of_nat (length d) <=? 55) eqn:E2.
      * apply Z.leb_le in E2. injection H as <-. eexists _, _. split; [reflexivity|].
        rewrite b2z_z2b_small; lia.
      * destruct (encodeLength 183 _) as [hd| |] eqn:Eh; try discriminate H.
        injection H as <-.
        destruct (encodeLength_head _ _ _ Eh) as (b & rest & -> & Hb); [lia|lia|].
        eexists _, _. split; [reflexivity|]. lia.
  - destruct l as [cs|]; cbn [Encode] in H.
    + destruct (encodeChildren Encode cs []) as [out| |]; try discriminate H.
      apply encodeList_head in H. exact H.
    + apply encodeList_head in H. exact H.
Qed.

(** X5.  [Encode] never returns the empty string, and the first byte
    it returns tells what was encoded: at most 0xBF for an Item that
    sets [D], at least 0xC0 for one that does not.  This is the test on
    which [Decode] branches. *)
Theorem Encode_first_byte it e :
  Encode it = Ok e ->
  exists b rest, e = b :: rest /\
    match it with
    | mkItem (Some _) _ => b2z b <= 191
    | mkItem None _ => 192 <= b2z b
    end.
Proof. exact (Encode_head it e). Qed.

Lemma Encode_first_byte_witness :
  exists b rest, [x83; x63; x61; x74] = b :: rest /\ b2z b <= 191.
Proof.
  apply (Encode_first_byte (str [x63; x61; x74]) [x83; x63; x61; x74]). reflexivity.
Defined.

(** X6.  [Decode] does not ask for the shortest form.  A header byte
    0x80+n with n <= 55 yields the n bytes after it whatever they are,
    so a single byte below 0x80, which [Encode] writes as itself, is
    also decoded from the two-byte form 0x81 b. *)
Theorem Decode_accepts_two_forms :
  (forall d junk spare,
      Z.of_nat (length d) <= 55 ->
      Decode (slice_of (z2b (128 + Z.of_nat (length d)) :: d ++ junk) spare)
      = Ok (str d)) /\
  (forall b spare,
      b2z b <= 127 ->
      Encode (str [b]) = Ok [b] /\
      Decode (slice_of [b] spare) = Ok (str [b]) /\
      Decode (slice_of [x81; b] spare) = Ok (str [b])).
Proof.
  assert (Hshort : forall d junk spare,
      Z.of_nat (length d) <= 55 ->
      Decode (slice_of (z2b (128 + Z.of_nat (length d)) :: d ++ junk) spare)
      = Ok (str d)).
  { intros d junk spare Hd. unfold Decode. cbn [Decode_fuel].
    set (b0 := z2b (128 + Z.of_nat (length d))).
    assert (Hb0 : b2z b0 = 128 + Z.of_nat (length d))
      by (unfold b0; rewrite b2z_z2b_small; lia).
    assert (Hat : holds_at (slice_of (b0 :: d ++ junk) spare) 0 (b0 :: d ++ junk))
      by apply holds_at_slice_of.
    rewrite (index_head _ _ _ _ Hat). cbn [rbind]. rewrite Hb0.
    unfold str1H, str55H. leb_cases.
    replace ((128 + Z.of_nat (length d) - 127) mod 256) with (1 + Z.of_nat (length d))
      by (rewrite Z.mod_small; lia).
    destruct (reslice_at _ 0 _ 1 (1 + Z.of_nat (length d)) Hat) as (rest & Hr);
      [lia|cbn [length]; rewrite length_app; lia|].
    cbn [Z.add] in Hr. change (0 + 1) with 1 in Hr.
    replace (0 + (1 + Z.of_nat (length d))) with (1 + Z.of_nat (length d)) in Hr by lia.
    rewrite Hr. cbn [rbind]. change (Z.to_nat 1) with 1%nat. cbn [skipn].
    rewrite skipn_O, <- app_assoc. rewrite visible_exact by lia. reflexivity. }
  split; [exact Hshort|].
  intros b spare Hb. split; [|split].
  - cbn [Encode str length nth]. unfold str1H. leb_cases. reflexivity.
  - unfold Decode. cbn [Decode_fuel].
    rewrite (index_head _ 0 b [] (holds_at_slice_of [b] spare)). cbn [rbind].
    unfold str1H. leb_cases. reflexivity.
  - exact (Hshort [b] [] spare ltac:(cbn; lia)).
Qed.

Lemma Decode_accepts_two_forms_witness :
  Encode (str [x05]) = Ok [x05] /\
  Decode (slice_of [x05] []) = Ok (str [x05]) /\
  Decode (slice_of [x81; x05] []) = Ok (str [x05]).
Proof.
  apply (proj2 Decode_accepts_two_forms x05 []). vm_compute. discriminate.
Defined.

(** *** What [Decode] returns *)

Lemma decodeChildren_well_formed dec input :
  (forall s it, dec s = Ok it -> well_formed it = true) ->
  forall steps i acc it,
    forallb well_formed acc = true ->
    decodeChildren dec input steps i acc = Ok it -> well_formed it = true.
Proof.
  intros Hdec. induction steps as [|steps IH]; intros i acc it Hacc H;
    cbn [decodeChildren] in H; destruct (i <? len input).
  - discriminate H.
  - injection H as <-. exact Hacc.
  - destruct (childLength input i) as [n| |]; cbn [rbind] in H; try discriminate H.
    destruct (reslice input i (i + n)) as [s| |]; cbn [rbind] in H; try discriminate H.
    destruct (dec s) as [c| |] eqn:Ec; cbn [rbind] in H; try discriminate H.
    apply (IH (i + n) (acc ++ [c]) it); [|exact H].
    rewrite forallb_app. apply andb_true_iff. split; [exact Hacc|].
    change (forallb well_formed [c]) with (well_formed c && true).
    rewrite (Hdec _ _ Ec). reflexivity.
  - injection H as <-. exact Hacc.
Qed.

Lemma Decode_fuel_well_formed : forall fuel s it,
  Decode_fuel fuel s = Ok it -> well_formed it = true.
Proof.
  induction fuel as [|fuel IH]; intros s it H; [discriminate H|].
  cbn [Decode_fuel] in H.
  destruct (index s 0) as [b0| |]; cbn [rbind] in H; try discriminate H.
  destruct (b2z b0 <=? str1H); [injection H as <-; reflexivity|].
  destruct (b2z b0 <=? str55H).
  { destruct (reslice s 1 _) as [s'| |]; cbn [rbind] in H; try discriminate H.
    injection H as <-. reflexivity. }
  destruct (b2z b0 <=? strNH).
  { destruct (decodeLength str55H s) as [l| |]; cbn [rbind] in H; try discriminate H.
    destruct (reslice s _ (1 + l)) as [s'| |]; cbn [rbind] in H; try discriminate H.
    injection H as <-. reflexivity. }
  exact (decodeChildren_well_formed _ s IH _ _ [] it eq_refl H).
Qed.

(** X19.  Whatever the buffer, an Item that [Decode] returns is well
    formed: each of its nodes sets exactly one of [D] and [L].  So when
    it is encoded again, [Decode] of the new encoding gives the same
    Item, also when the buffer it came from was no encoding at all. *)
Theorem Decode_returns_well_formed s it :
  Decode s = Ok it ->
  well_formed it = true /\
  (max_size it < 2 ^ 56 ->
   exists bs, Encode it = Ok bs /\
     forall spare, Decode (slice_of bs spare) = Ok it).
Proof.
  intros H. apply Decode_fuel_well_formed in H. split; [exact H|].
  intros Hsz. destruct (codes_exists it (conj H Hsz)) as (e & He & _ & _ & Hd).
  exists e. split; [exact He|]. intros spare. apply Hd.
  unfold slice_of. cbn [arr]. rewrite length_app. lia.
Qed.

Lemma Decode_returns_well_formed_witness :
  well_formed (lst [str []]) = true /\
  (max_size (lst [str []]) < 2 ^ 56 ->
   exists bs, Encode (lst [str []]) = Ok bs /\
     forall spare, Decode (slice_of bs spare) = Ok (lst [str []])).
Proof.
  apply (Decode_returns_well_formed (slice_of [xc5; x80] []) (lst [str []])).
  reflexivity.
Defined.

(** ** The Kademlia table *)

Import Kademlia.

Lemma fresh_bound (l : list Element) x : In x (map fst l) -> (x < fresh l)%nat.
Proof.
  unfold fresh. induction l as [|a l IH]; cbn [map fold_right]; [intros []|].
  intros [<-|H]; [lia|]. specialize (IH H). lia.
Qed.

Lemma fresh_not_in (l : list Element) : ~ In (fresh l) (map fst l).
Proof. intros H. apply fresh_bound in H. lia. Qed.

Lemma filter_not_el e (l : list Element) :
  ~ In e (map fst l) -> List.filter (fun y => negb (is_el e y)) l = l.
Proof.
  induction l as [|a l IH]; cbn [map List.filter]; [reflexivity|]. intros H.
  unfold is_el at 1. destruct (Nat.eqb (fst a) e) eqn:E.
  - apply Nat.eqb_eq in E. exfalso. apply H. left. exact E.
  - cbn [negb]. f_equal. apply IH. intros H'. apply H. right. exact H'.
Qed.

Lemma find_not_el e (l : list Element) :
  ~ In e (map fst l) -> List.find (is_el e) l = None.
Proof.
  induction l as [|a l IH]; cbn [map List.find]; [reflexivity|]. intros H.
  unfold is_el at 1. destruct (Nat.eqb (fst a) e) eqn:E.
  - apply Nat.eqb_eq in E. exfalso. apply H. left. exact E.
  - apply IH. intros H'. apply H. right. exact H'.
Qed.

Lemma setValue_not_el e v (l : list Element) :
  ~ In e (map fst l) -> setValue e v l = l.
Proof.
  unfold setValue. induction l as [|a l IH]; cbn [map]; [reflexivity|]. intros H.
  unfold is_el at 1. destruct (Nat.eqb (fst a) e) eqn:E.
  - apply Nat.eqb_eq in E. exfalso. apply H. left. exact E.
  - f_equal. apply IH. intros H'. apply H. right. exact H'.
Qed.

Lemma setValue_split e v v' (l1 l2 : list Element) :
  ~ In e (map fst l1) -> ~ In e (map fst l2) ->
  setValue e v' (l1 ++ (e, v) :: l2) = l1 ++ (e, v') :: l2.
Proof.
  intros H1 H2. pose proof (setValue_not_el e v' l1 H1) as E1.
  pose proof (setValue_not_el e v' l2 H2) as E2. unfold setValue in *.
  rewrite map_app. cbn [map]. rewrite E1, E2. unfold is_el. cbn [fst].
  rewrite Nat.eqb_refl. reflexivity.
Qed.

Lemma MoveToFront_split e v (l1 l2 : list Element) :
  ~ In e (map fst l1) -> ~ In e (map fst l2) ->
  MoveToFront e (l1 ++ (e, v) :: l2) = (e, v) :: l1 ++ l2.
Proof.
  intros H1 H2. unfold MoveToFront.
  assert (Hf : List.find (is_el e) (l1 ++ (e, v) :: l2) = Some (e, v)).
  { clear H2. induction l1 as [|a l1 IH]; cbn [app List.find].
    - unfold is_el. cbn [fst]. rewrite Nat.eqb_refl. reflexivity.
    - cbn [map] in H1. unfold is_el at 1. destruct (Nat.eqb (fst a) e) eqn:E.
      + apply Nat.eqb_eq in E. exfalso. apply H1. left. exact E.
      + apply IH. intros H'. apply H1. right. exact H'. }
  rewrite Hf. f_equal. rewrite List.filter_app. cbn [List.filter]. unfold is_el at 2.
  cbn [fst]. rewrite Nat.eqb_refl. cbn [negb].
  rewrite (filter_not_el e l1 H1), (filter_not_el e l2 H2). reflexivity.
Qed.

Lemma Remove_last e v (l : list Element) :
  ~ In e (map fst l) -> Remove e (l ++ [(e, v)]) = l.
Proof.
  intros H. unfold Remove. rewrite List.filter_app. cbn [List.filter]. unfold is_el at 2.
  cbn [fst]. rewrite Nat.eqb_refl. cbn [negb].
  rewrite (filter_not_el e l H). apply app_nil_r.
Qed.


Lemma without_absent n ns :
  ~ In (NodeAddrHex n) (map NodeAddrHex ns) -> without n ns = ns.
Proof.
  unfold without. induction ns as [|a ns IH]; cbn [map List.filter]; [reflexivity|].
  intros H. destruct (NodeAddrHex a =? NodeAddrHex n) eqn:E.
  - apply Z.eqb_eq in E. exfalso. apply H. left. exact E.
  - cbn [negb]. f_equal. apply IH. intros H'. apply H. right. exact H'.
Qed.

Lemma keys_nodes (l : list Element) :
  map keyOf l = map NodeAddrHex (map (fun x => node (snd x)) l).
Proof. rewrite map_map. reflexivity. Qed.

Lemma store_hit now b n m el :
  bucket_ok b -> entriesMap b = Some m -> m !! NodeAddrHex n = Some el ->
  exists b', store now b n = Ok b' /\ bucket_ok b' /\
    nodes b' = n :: without n (nodes b) /\
    length (nodes b') = length (nodes b).
Proof.
  intros (m' & Hm' & Hids & Hkeys & Hmap & Hlen) Hm Hel.
  rewrite Hm in Hm'. injection Hm' as <-.
  unfold store. rewrite Hm, Hel.
  destruct (proj1 (Hmap _ _) Hel) as (v & Hin & Hkey).
  destruct (in_split _ _ Hin) as (l1 & l2 & Hsplit).
  rewrite Hsplit in Hids, Hkeys, Hlen.
  assert (Hn : ~ In el (map fst (l1 ++ l2))).
  { rewrite map_app in Hids. cbn [map fst] in Hids.
    apply NoDup_remove_2 in Hids. rewrite map_app. exact Hids. }
  assert (Hn1 : ~ In el (map fst l1)).
  { intros H. apply Hn. rewrite map_app. apply in_or_app. left. exact H. }
  assert (Hn2 : ~ In el (map fst l2)).
  { intros H. apply Hn. rewrite map_app. apply in_or_app. right. exact H. }
  assert (Hk : ~ In (NodeAddrHex n) (map keyOf (l1 ++ l2))).
  { rewrite map_app in Hkeys. cbn [map] in Hkeys.
    apply NoDup_remove_2 in Hkeys. rewrite map_app.
    change (keyOf (el, v)) with (NodeAddrHex (node v)) in Hkeys.
    rewrite Hkey in Hkeys.
    exact Hkeys. }
  rewrite Hsplit, (setValue_split el v _ l1 l2 Hn1 Hn2),
    (MoveToFront_split el _ l1 l2 Hn1 Hn2).
  eexists. split; [reflexivity|]. split; [|split].
  - exists m. cbn [lru entriesMap]. split; [reflexivity|]. split; [|split; [|split]].
    + cbn [map fst]. rewrite map_app in Hids. cbn [map fst] in Hids.
      constructor; [exact Hn|]. rewrite map_app. eapply NoDup_remove_1. exact Hids.
    + cbn [map]. unfold keyOf at 1. cbn [snd node]. constructor; [exact Hk|].
      rewrite map_app in Hkeys. cbn [map] in Hkeys. rewrite map_app.
      eapply NoDup_remove_1. exact Hkeys.
    + intros k e. rewrite Hmap, Hsplit. split; intros (x & Hx & Hxk).
      * apply in_app_or in Hx as [Hx|[Hx|Hx]].
        -- exists x. split; [right; apply in_or_app; left; exact Hx|exact Hxk].
        -- injection Hx as <- <-. exists (mkEntry n now).
           split; [left; reflexivity|]. cbn [node]. congruence.
        -- exists x. split; [right; apply in_or_app; right; exact Hx|exact Hxk].
      * destruct Hx as [Hx|Hx].
        -- injection Hx as <- <-. exists v. split; [|cbn [node] in Hxk; congruence].
           apply in_or_app. right. left. reflexivity.
        -- exists x. split; [|exact Hxk]. apply in_app_or in Hx as [Hx|Hx];
             apply in_or_app; [left|right; right]; exact Hx.
    + cbn [length]. rewrite length_app. rewrite length_app in Hlen.
      cbn [length] in Hlen. unfold Element in *. lia.
  - unfold nodes. cbn [lru map snd node]. f_equal. rewrite Hsplit.
    rewrite !map_app. cbn [map snd]. unfold without.
    rewrite List.filter_app. cbn [List.filter]. rewrite Hkey, Z.eqb_refl. cbn [negb].
    rewrite map_app, !keys_nodes in Hk.
    fold (without n (map (fun x => node (snd x)) l1)).
    fold (without n (map (fun x => node (snd x)) l2)).
    rewrite !without_absent; [reflexivity| |].
    + intros H. apply Hk. apply in_or_app. right. exact H.
    + intros H. apply Hk. apply in_or_app. left. exact H.
  - unfold nodes. cbn [lru]. rewrite Hsplit, !length_map. cbn [length].
    rewrite !length_app. cbn [length]. unfold Element in *. lia.
Qed.

Lemma key_absent b m n :
  bucket_ok b -> entriesMap b = Some m -> m !! NodeAddrHex n = None ->
  ~ In (NodeAddrHex n) (map keyOf (lru b)).
Proof.
  intros (m' & Hm' & _ & _ & Hmap & _) Hm Hnone Hin.
  rewrite Hm in Hm'. injection Hm' as <-.
  apply in_map_iff in Hin as ([e v] & Hk & Hin).
  assert (H : m !! NodeAddrHex n = Some e).
  { apply Hmap. exists v. split; [exact Hin|exact Hk]. }
  congruence.
Qed.

Lemma store_miss now b n m :
  bucket_ok b -> entriesMap b = Some m -> m !! NodeAddrHex n = None ->
  exists b', store now b n = Ok b' /\ bucket_ok b' /\
    nodes b' = firstn (Z.to_nat maxBucketSize) (n :: nodes b).
Proof.
  intros Hok Hm Hnone. pose proof (key_absent b m n Hok Hm Hnone) as Habs.
  destruct Hok as (m' & Hm' & Hids & Hkeys & Hmap & Hlen).
  rewrite Hm in Hm'. injection Hm' as <-.
  pose proof (fresh_not_in (lru b)) as Hfresh.
  unfold store. rewrite Hm, Hnone. unfold PushFront. cbv beta iota zeta.
  set (e := fresh (lru b)) in *. set (v := mkEntry n now).
  match goal with |- context [if ?c then _ else _] => set (full := c) end.
  unfold maxBucketSize in *. change (Z.to_nat 16) with 16%nat.
  destruct full eqn:E; subst full; unfold maxBucketSize in E.
  - apply Z.ltb_lt in E. cbn [length] in E.
    assert (Hdec : exists front le lv, lru b = front ++ [(le, lv)]).
    { destruct (lru b) as [|x0 l0]; [cbn [length] in E; lia|].
      destruct (exists_last (l := x0 :: l0)) as (front & [le lv] & ->);
        [discriminate|]. eauto. }
    destruct Hdec as (front & le & lv & Hfl). subst e. rewrite Hfl in *.
    set (e := fresh (front ++ [(le, lv)])) in *.
    rewrite length_app in E, Hlen. cbn [length] in E, Hlen.
    assert (Hback : Back ((e, v) :: front ++ [(le, lv)]) = Some (le, lv)).
    { unfold Back. rewrite app_comm_cons. apply last_snoc. }
    rewrite Hback. cbn [fst snd].
    rewrite map_app in Hids, Hkeys, Hfresh, Habs. cbn [map fst] in Hids, Hkeys, Hfresh, Habs.
    change (keyOf (le, lv)) with (NodeAddrHex (node lv)) in Hkeys, Habs.
    assert (Hle : ~ In le (map fst front)).
    { apply NoDup_remove_2 in Hids. rewrite app_nil_r in Hids. exact Hids. }
    assert (Hlk : ~ In (NodeAddrHex (node lv)) (map keyOf front)).
    { apply NoDup_remove_2 in Hkeys. rewrite app_nil_r in Hkeys. exact Hkeys. }
    assert (Hne : le <> e).
    { intros Heq. apply Hfresh. apply in_or_app. right. left. exact Heq. }
    assert (Hkne : NodeAddrHex (node lv) <> NodeAddrHex n).
    { intros Heq. apply Habs. apply in_or_app. right. left. exact Heq. }
    rewrite app_comm_cons, Remove_last.
    2:{ cbn [map fst]. intros [H|H]; [congruence|contradiction]. }
    eexists. split; [reflexivity|]. split.
    + eexists. cbn [lru entriesMap]. split; [reflexivity|].
      split; [|split; [|split]].
      * cbn [map fst]. constructor.
        -- intros H. apply Hfresh. apply in_or_app. left. exact H.
        -- apply NoDup_remove_1 in Hids. rewrite app_nil_r in Hids. exact Hids.
      * cbn [map]. change (keyOf (e, v)) with (NodeAddrHex n). constructor.
        -- intros H. apply Habs. apply in_or_app. left. exact H.
        -- apply NoDup_remove_1 in Hkeys. rewrite app_nil_r in Hkeys. exact Hkeys.
      * intros k e'. split.
        -- intros H. apply lookup_delete_Some in H as [Hk H].
           apply lookup_insert_Some in H as [[<- <-]|[Hk2 H]].
           ++ exists v. split; [left; reflexivity|reflexivity].
           ++ apply Hmap in H as (x & Hx & Hxk). exists x. split; [|exact Hxk].
              right. apply in_app_or in Hx as [Hx|[Hx|[]]]; [exact Hx|].
              injection Hx as <- <-. congruence.
        -- intros (x & [Hx|Hx] & Hxk).
           ++ injection Hx as <- <-. cbn [node v] in Hxk. subst k.
              apply lookup_delete_Some. split; [exact Hkne|].
              apply lookup_insert_eq.
           ++ assert (Hin : In k (map keyOf front)).
              { apply in_map_iff. exists (e', x). split; [exact Hxk|exact Hx]. }
              apply lookup_delete_Some. split; [congruence|].
              apply lookup_insert_Some. right. split.
              ** intros <-. apply Habs. apply in_or_app. left. exact Hin.
              ** apply Hmap. exists x. split; [|exact Hxk].
                 apply in_or_app. left. exact Hx.
      * cbn [length]. unfold Element, maxBucketSize in *. lia.
    + unfold nodes. cbn [lru map snd]. rewrite Hfl, map_app. cbn [map snd node v].
      cbn [firstn]. f_equal. rewrite firstn_app.
      replace (15 - length (map (fun x => node (snd x)) front))%nat with 0%nat
        by (rewrite length_map; unfold Element in *; lia).
      cbn [firstn]. rewrite app_nil_r. symmetry. apply firstn_all2.
      rewrite length_map. unfold Element in *. lia.
  - apply Z.ltb_ge in E. cbn [length] in E.
    eexists. split; [reflexivity|]. split.
    + eexists. cbn [lru entriesMap]. split; [reflexivity|].
      split; [|split; [|split]].
      * cbn [map fst]. constructor; assumption.
      * cbn [map]. change (keyOf (e, v)) with (NodeAddrHex n).
        constructor; assumption.
      * intros k e'. split.
        -- intros H. apply lookup_insert_Some in H as [[<- <-]|[Hk2 H]].
           ++ exists v. split; [left; reflexivity|reflexivity].
           ++ apply Hmap in H as (x & Hx & Hxk). exists x. split; [|exact Hxk].
              right. exact Hx.
        -- intros (x & [Hx|Hx] & Hxk).
           ++ injection Hx as <- <-. cbn [node v] in Hxk. subst k.
              apply lookup_insert_eq.
           ++ assert (Hin : In k (map keyOf (lru b))).
              { apply in_map_iff. exists (e', x). split; [exact Hxk|exact Hx]. }
              apply lookup_insert_Some. right. split.
              ** intros <-. apply Habs. exact Hin.
              ** apply Hmap. exists x. split; [exact Hx|exact Hxk].
      * cbn [length]. unfold Element, maxBucketSize in *. lia.
    + unfold nodes. cbn [lru map snd node v]. symmetry. apply firstn_all2.
      cbn [length]. rewrite length_map. unfold Element in *. lia.
Qed.

Lemma emptyBucket_ok : bucket_ok emptyBucket.
Proof.
  exists ∅. cbn [emptyBucket lru entriesMap map length].
  split; [reflexivity|]. split; [constructor|]. split; [constructor|]. split.
  - intros k e. rewrite lookup_empty. split; [discriminate|].
    intros (v & [] & _).
  - unfold maxBucketSize. lia.
Qed.

Lemma lookup_key b m n :
  bucket_ok b -> entriesMap b = Some m ->
  (In (NodeAddrHex n) (map NodeAddrHex (nodes b)) <-> exists el, m !! NodeAddrHex n = Some el).
Proof.
  intros Hok Hm. split.
  - intros Hin. destruct (m !! NodeAddrHex n) as [el|] eqn:E; [eauto|].
    exfalso. apply (key_absent b m n Hok Hm E). unfold nodes in Hin.
    rewrite <- keys_nodes in Hin. exact Hin.
  - intros (el & Hel). destruct Hok as (m' & Hm' & _ & _ & Hmap & _).
    rewrite Hm in Hm'. injection Hm' as <-.
    apply Hmap in Hel as (v & Hin & Hk). unfold nodes.
    rewrite <- keys_nodes. apply in_map_iff. exists (el, v). split; [exact Hk|exact Hin].
Qed.

Lemma store_total now b n :
  bucket_ok b ->
  exists b', store now b n = Ok b' /\ bucket_ok b' /\
    (In (NodeAddrHex n) (map NodeAddrHex (nodes b)) ->
       nodes b' = n :: without n (nodes b) /\ length (nodes b') = length (nodes b)) /\
    (~ In (NodeAddrHex n) (map NodeAddrHex (nodes b)) ->
       nodes b' = firstn (Z.to_nat maxBucketSize) (n :: nodes b)).
Proof.
  intros Hok. pose proof Hok as (m & Hm & _).
  destruct (m !! NodeAddrHex n) as [el|] eqn:E.
  - destruct (store_hit now b n m el Hok Hm E) as (b' & Hs & Hok' & Hn & Hl).
    exists b'. split; [exact Hs|]. split; [exact Hok'|]. split; [tauto|].
    intros Habs. exfalso. apply Habs. apply (lookup_key b m n Hok Hm). eauto.
  - destruct (store_miss now b n m Hok Hm E) as (b' & Hs & Hok' & Hn).
    exists b'. split; [exact Hs|]. split; [exact Hok'|]. split; [|tauto].
    intros Hin. apply (lookup_key b m n Hok Hm) in Hin as (el & Hel). congruence.
Qed.

Lemma firstn_app_firstn_le {A} (a l : list A) : forall k j, (k <= j)%nat ->
  firstn k (a ++ firstn j l) = firstn k (a ++ l).
Proof.
  induction a as [|x a IH]; intros k j Hkj; cbn [app].
  - rewrite firstn_firstn. f_equal. lia.
  - destruct k as [|k]; [reflexivity|]. cbn [firstn]. f_equal. apply IH. lia.
Qed.

Lemma firstn_app_firstn {A} k (a l : list A) :
  firstn k (a ++ firstn k l) = firstn k (a ++ l).
Proof. apply firstn_app_firstn_le. lia. Qed.

Lemma In_firstn {A} (x : A) l : forall k, In x (firstn k l) -> In x l.
Proof.
  induction l as [|a l IH]; intros [|k]; cbn [firstn]; try (intros []; fail).
  intros [Hx|Hx]; [left; exact Hx|right; exact (IH k Hx)].
Qed.

Lemma nodes_bound b : bucket_ok b -> (length (nodes b) <= 16)%nat.
Proof.
  intros (m & _ & _ & _ & _ & Hlen). unfold nodes. rewrite length_map.
  unfold maxBucketSize, Element in *. lia.
Qed.

Lemma storeAll_recent now ns : forall b,
  bucket_ok b ->
  List.NoDup (map NodeAddrHex ns) ->
  (forall n, In n ns -> ~ In (NodeAddrHex n) (map NodeAddrHex (nodes b))) ->
  exists b', storeAll now b ns = Ok b' /\ bucket_ok b' /\
    nodes b' = firstn (Z.to_nat maxBucketSize) (rev ns ++ nodes b).
Proof.
  induction ns as [|n ns IH]; intros b Hok Hnd Hdis.
  - exists b. split; [reflexivity|]. split; [exact Hok|]. cbn [rev app].
    symmetry. apply firstn_all2. pose proof (nodes_bound b Hok).
    unfold maxBucketSize. lia.
  - cbn [map] in Hnd. apply NoDup_cons_iff in Hnd as [Hn Hnd].
    destruct (store_total now b n Hok) as (b1 & Hs & Hok1 & _ & Hmiss).
    specialize (Hmiss (Hdis n (or_introl eq_refl))).
    destruct (IH b1 Hok1 Hnd) as (b' & Hs' & Hok' & Hnodes).
    { intros x Hx Hin. rewrite Hmiss in Hin.
      apply in_map_iff in Hin as (y & Hy & Hin).
      apply In_firstn in Hin. destruct Hin as [<-|Hin].
      - apply Hn. rewrite Hy. apply in_map. exact Hx.
      - apply (Hdis x (or_intror Hx)). rewrite <- Hy. apply in_map. exact Hin. }
    exists b'. split; [cbn [storeAll]; rewrite Hs; exact Hs'|]. split; [exact Hok'|].
    rewrite Hnodes, Hmiss, firstn_app_firstn. cbn [rev]. rewrite <- app_assoc.
    reflexivity.
Qed.

(** What the claim C5 describes holds of [store] on a bucket whose map
    is allocated and indexes its list: [store] returns and keeps the
    bucket in that state, with at most [maxBucketSize] = 16 entries.
    Storing a node whose NodeID is present puts the new record at the
    front in place of the old one and leaves the size as it was;
    storing a new NodeID puts it at the front and, when the bucket was
    full, drops the entry at the back.  Hence after storing nodes of
    distinct NodeIDs into an allocated empty bucket it holds the 16
    stored last, latest first. *)
Lemma store_lru_when_allocated now b n :
  bucket_ok b ->
  exists b', store now b n = Ok b' /\ bucket_ok b' /\
    Z.of_nat (length (nodes b')) <= maxBucketSize /\
    (In (NodeAddrHex n) (map NodeAddrHex (nodes b)) ->
       nodes b' = n :: without n (nodes b) /\
       length (nodes b') = length (nodes b)) /\
    (~ In (NodeAddrHex n) (map NodeAddrHex (nodes b)) ->
       nodes b' = firstn (Z.to_nat maxBucketSize) (n :: nodes b)) /\
    (~ In (NodeAddrHex n) (map NodeAddrHex (nodes b)) ->
     Z.of_nat (length (nodes b)) = maxBucketSize ->
       nodes b' = n :: removelast (nodes b)) /\
    (forall ns, List.NoDup (map NodeAddrHex ns) ->
       exists b'', storeAll now emptyBucket ns = Ok b'' /\
         nodes b'' = firstn (Z.to_nat maxBucketSize) (rev ns)).
Proof.
  intros Hok. destruct (store_total now b n Hok) as (b' & Hs & Hok' & Hhit & Hmiss).
  exists b'. split; [exact Hs|]. split; [exact Hok'|]. split.
  { pose proof (nodes_bound b' Hok'). unfold maxBucketSize. lia. }
  split; [exact Hhit|]. split; [exact Hmiss|]. split.
  - intros Habs Hfull. rewrite (Hmiss Habs). unfold maxBucketSize in *.
    change (Z.to_nat 16) with 16%nat. cbn [firstn]. f_equal.
    destruct (nodes b) as [|x l] eqn:E using rev_ind; [cbn [length] in Hfull; lia|].
    rewrite removelast_last. rewrite length_app in Hfull. cbn [length] in Hfull.
    rewrite firstn_app. replace (15 - length l)%nat with 0%nat by lia.
    cbn [firstn]. rewrite app_nil_r. apply firstn_all2. lia.
  - intros ns Hnd.
    destruct (storeAll_recent now ns emptyBucket emptyBucket_ok Hnd)
      as (b'' & Hs'' & _ & Hn''); [intros x _ []|].
    exists b''. split; [exact Hs''|]. rewrite Hn''. cbn [nodes emptyBucket lru map].
    rewrite app_nil_r. reflexivity.
Qed.

Example store_seventeen :
  (let* b := storeAll 0 emptyBucket (map (fun i => mkENR i 0) (map Z.of_nat (seq 1 17))) in
   Ok (map nodeAddr (nodes b)))
  = Ok (map Z.of_nat (rev (seq 2 16))).
Proof. vm_compute. reflexivity. Qed.

Lemma store_nil_map now l n : store now {| lru := l; entriesMap := None |} n = Panic.
Proof. reflexivity. Qed.

Lemma new_table_buckets self b :
  In b (buckets (newKademliaTable self)) -> b = {| lru := []; entriesMap := None |}.
Proof. unfold newKademliaTable. cbn [buckets]. apply repeat_spec. Qed.

(** C5.  On the table that [newKademliaTable] returns the behaviour of
    the claim is not reached: the constructor allocates the lists of
    the buckets and leaves their maps nil, so the first [store] into
    any of its buckets, after pushing the entry, panics at the
    assignment to [entriesMap]; [Insert] therefore panics for every
    node, nothing is ever updated in place or evicted, and storing
    seventeen nodes stops at the first. *)
Theorem store_new_table_panics now self n ns :
  (forall b, In b (buckets (newKademliaTable self)) -> store now b n = Panic) /\
  Insert now (newKademliaTable self) n = Panic /\
  (forall b, In b (buckets (newKademliaTable self)) ->
     storeAll now b (n :: ns) = Panic).
Proof.
  split; [|split].
  - intros b Hb. rewrite (new_table_buckets self b Hb). apply store_nil_map.
  - unfold Insert. cbv zeta.
    destruct (nth_error _ _) as [b|] eqn:E; [|reflexivity].
    apply nth_error_In in E. rewrite (new_table_buckets self b E). reflexivity.
  - intros b Hb. rewrite (new_table_buckets self b Hb). reflexivity.
Qed.

Lemma store_new_table_panics_witness :
  store 0 {| lru := []; entriesMap := None |} (mkENR 5 0) = Panic.
Proof.
  apply (proj1 (store_new_table_panics 0 (mkENR 0 0) (mkENR 5 0) [])).
  left. reflexivity.
Defined.

(** *** FindClosest *)

Lemma gather_nodes grow bs : forall s,
  fst (fold_left (fun s b => append grow s (nodes b)) bs s)
  = fst s ++ concat (map nodes bs).
Proof.
  induction bs as [|b bs IH]; intros s; cbn [fold_left map concat].
  - rewrite app_nil_r. reflexivity.
  - rewrite IH. unfold append. cbn [fst]. rewrite app_assoc. reflexivity.
Qed.

Lemma gather_cap grow bs : forall s,
  Z.of_nat (length (fst s)) <= snd s ->
  let s' := fold_left (fun s b => append grow s (nodes b)) bs s in
  Z.of_nat (length (fst s')) <= snd s'.
Proof.
  induction bs as [|b bs IH]; intros s Hs; cbn [fold_left]; [exact Hs|].
  apply IH. unfold append. cbn [fst snd].
  destruct (_ <=? snd s) eqn:E; [apply Z.leb_le in E; exact E|lia].
Qed.

Lemma nth_firstn_pad {A} (l0 : list (option A)) a b :
  nth (length l0) (firstn (S (length l0) + b) (l0 ++ None :: repeat None a)) None
  = None.
Proof. induction l0 as [|x l0 IH]; [reflexivity|exact IH]. Qed.

Lemma StronglySorted_firstn {A} (R : A -> A -> Prop) l : forall k,
  StronglySorted R l -> StronglySorted R (firstn k l).
Proof.
  induction l as [|a l IH]; intros [|k] Hs; cbn [firstn]; try constructor.
  - apply IH. exact (proj1 (StronglySorted_inv Hs)).
  - apply StronglySorted_inv in Hs as [_ Hall].
    apply List.Forall_forall. intros x Hx. apply In_firstn in Hx.
    exact (proj1 (List.Forall_forall _ _) Hall x Hx).
Qed.

Section FindClosestFacts.

Variable sort : (ENR -> ENR -> bool) -> list ENR -> list ENR.
Variable grow : Z -> Z -> Z.
Hypothesis sort_length : forall less l, length (sort less l) = length l.

(** With at least [count] entries in the table, [FindClosest] returns
    the first [count] of the sorted entries. *)
Lemma FindClosest_within kt target count :
  0 <= count <= Z.of_nat (length (entries kt)) ->
  FindClosest sort grow kt target count
  = Ok (map Some (firstn (Z.to_nat count) (sort (Less target) (entries kt)))).
Proof.
  intros Hc. unfold FindClosest. cbv zeta.
  pose proof (gather_cap grow (buckets kt) ([], 0) ltac:(cbn; lia)) as Hcap.
  cbv zeta in Hcap. rewrite gather_nodes in *. cbn [fst app] in *.
  fold (entries kt) in *.
  set (s := fold_left _ _ _) in *.
  assert (Hok : (0 <=? count) && (count <=? snd s) = true).
  { apply andb_true_intro. split; apply Z.leb_le; lia. }
  rewrite Hok. f_equal. rewrite firstn_app, length_map, sort_length.
  replace (Z.to_nat count - length (entries kt))%nat with 0%nat by lia.
  cbn [firstn]. rewrite app_nil_r. apply firstn_map.
Qed.

(** With fewer than [count] entries, [FindClosest] panics, or returns
    [count] pointers of which those past the entries are nil: never
    the entries alone. *)
Lemma FindClosest_beyond kt target count l :
  Z.of_nat (length (entries kt)) < count ->
  FindClosest sort grow kt target count = Ok l ->
  Z.of_nat (length l) = count /\ nth (length (entries kt)) l None = None.
Proof.
  intros Hc. unfold FindClosest. cbv zeta.
  rewrite gather_nodes. cbn [fst app]. fold (entries kt).
  set (s := fold_left _ _ _).
  destruct ((0 <=? count) && (count <=? snd s)) eqn:Hok; [|discriminate].
  apply andb_prop in Hok as [H0 Hcap]. apply Z.leb_le in H0, Hcap.
  intros [= <-]. rewrite sort_length. split.
  - rewrite length_firstn, length_app, length_map, repeat_length, sort_length. lia.
  - assert (Hlen : length (map Some (sort (Less target) (entries kt)))
                  = length (entries kt))
      by (rewrite length_map; apply sort_length).
    rewrite <- Hlen.
    replace (Z.to_nat count)
      with (S (length (map Some (sort (Less target) (entries kt))))
            + (Z.to_nat count - S (length (entries kt))))%nat by lia.
    replace (Z.to_nat (snd s) - length (map Some (sort (Less target) (entries kt))))%nat
      with (S (Z.to_nat (snd s) - S (length (entries kt)))) by lia.
    cbn [repeat]. apply nth_firstn_pad.
Qed.

Hypothesis sort_perm : forall less l, Permutation l (sort less l).
Hypothesis sort_sorted : forall (key : ENR -> Z) l,
  StronglySorted (fun a b => key a <= key b) (sort (fun a b => key a <? key b) l).

(** What [sort.Sort] guarantees carries over: with at least [count]
    entries the result is made of [count] entries of the table, in
    ascending log-distance from the target, and distinct when the
    entries are. *)
Lemma FindClosest_within_sorted kt target count :
  0 <= count <= Z.of_nat (length (entries kt)) ->
  exists l rest,
    FindClosest sort grow kt target count = Ok (map Some l) /\
    Z.of_nat (length l) = count /\
    StronglySorted (fun a b => LogDistance a target <= LogDistance b target) l /\
    Permutation (entries kt) (l ++ rest) /\
    (List.NoDup (entries kt) -> List.NoDup l).
Proof.
  intros Hc. set (sorted := sort (Less target) (entries kt)).
  exists (firstn (Z.to_nat count) sorted), (skipn (Z.to_nat count) sorted).
  split; [apply FindClosest_within, Hc|]. split.
  { rewrite length_firstn. unfold sorted. rewrite sort_length. lia. }
  split.
  { apply StronglySorted_firstn.
    exact (sort_sorted (fun a => LogDistance a target) (entries kt)). }
  rewrite firstn_skipn. split; [apply sort_perm|].
  intros Hnd. apply (Permutation_NoDup (sort_perm (Less target) (entries kt))) in Hnd.
  fold sorted in Hnd. rewrite <- (firstn_skipn (Z.to_nat count) sorted) in Hnd.
  exact (NoDup_app_remove_r _ _ Hnd).
Qed.

End FindClosestFacts.

(** C3.  On a table with fewer than [count] entries [FindClosest] does
    not return the [min(count, total)] entries of the claim: the slice
    expression [s.nodes[:count]] panics, or, where [append] left spare
    capacity, returns [count] pointers of which those past the entries
    are nil.  On the empty table that [newKademliaTable] returns, with
    [count] = 16 (the count [handleFindNode] asks for), it panics. *)
Theorem FindClosest_short_table sort grow kt self target count :
  (forall less l, length (sort less l) = length l) ->
  Z.of_nat (length (entries kt)) < count ->
  (FindClosest sort grow kt target count = Panic \/
   exists l, FindClosest sort grow kt target count = Ok l /\
     Z.of_nat (length l) = count /\ nth (length (entries kt)) l None = None) /\
  FindClosest sort grow (newKademliaTable self) target 16 = Panic.
Proof.
  intros Hsort Hc. split; [|reflexivity].
  destruct (FindClosest sort grow kt target count) as [l| |] eqn:E.
  - right. exists l. split; [reflexivity|].
    exact (FindClosest_beyond sort grow Hsort kt target count l Hc E).
  - left. reflexivity.
  - exfalso. unfold FindClosest in E. cbv zeta in E.
    destruct (_ && _) in E; discriminate.
Qed.

Lemma FindClosest_short_table_witness :
  let sort := fun (_ : ENR -> ENR -> bool) (l : list ENR) => l in
  let grow := fun (_ need : Z) => 16 in
  let kt := {| selfNode := mkENR 0 0;
               buckets := [{| lru := [(1%nat, mkEntry (mkENR 5 0) 0)];
                              entriesMap := Some {[ 5 := 1%nat ]} |}] |} in
  (FindClosest sort grow kt (mkENR 9 0) 16 = Panic \/
   exists l, FindClosest sort grow kt (mkENR 9 0) 16 = Ok l /\
     Z.of_nat (length l) = 16 /\ nth (length (entries kt)) l None = None) /\
  FindClosest sort grow (newKademliaTable (mkENR 0 0)) (mkENR 9 0) 16 = Panic.
Proof.
  intros sort grow kt.
  apply (FindClosest_short_table sort grow kt (mkENR 0 0) (mkENR 9 0) 16);
    [intros; reflexivity|vm_compute; reflexivity].
Defined.

(** *** Buckets whose map is allocated *)

Lemma store_order now b n :
  bucket_ok b ->
  exists b', store now b n = Ok b' /\ bucket_ok b' /\
    nodes b' = n :: firstn 15 (without n (nodes b)).
Proof.
  intros Hok. pose proof (nodes_bound b Hok) as Hb.
  destruct (store_total now b n Hok) as (b' & Hs & Hok' & Hhit & Hmiss).
  exists b'. split; [exact Hs|]. split; [exact Hok'|].
  destruct (in_dec Z.eq_dec (NodeAddrHex n) (map NodeAddrHex (nodes b))) as [Hin|Hout].
  - destruct (Hhit Hin) as [Hn Hl]. rewrite Hn. f_equal. symmetry.
    apply firstn_all2. rewrite Hn in Hl. cbn [length] in Hl. lia.
  - rewrite (Hmiss Hout), (without_absent n _ Hout). reflexivity.
Qed.

Lemma store_front_entry now b n b' :
  bucket_ok b -> store now b n = Ok b' ->
  exists e rest, lru b' = (e, mkEntry n now) :: rest.
Proof.
  intros (m & Hm & Hids & Hkeys & Hmap & Hlen). unfold store. rewrite Hm.
  destruct (m !! NodeAddrHex n) as [el|] eqn:Hel.
  - destruct (proj1 (Hmap _ _) Hel) as (v & Hin & Hkey).
    destruct (in_split _ _ Hin) as (l1 & l2 & Hsplit).
    rewrite Hsplit in Hids.
    assert (Hn : ~ In el (map fst (l1 ++ l2))).
    { rewrite map_app in Hids. cbn [map fst] in Hids.
      apply NoDup_remove_2 in Hids. rewrite map_app. exact Hids. }
    assert (Hn1 : ~ In el (map fst l1)).
    { intros H. apply Hn. rewrite map_app. apply in_or_app. left. exact H. }
    assert (Hn2 : ~ In el (map fst l2)).
    { intros H. apply Hn. rewrite map_app. apply in_or_app. right. exact H. }
    rewrite Hsplit, (setValue_split el v _ l1 l2 Hn1 Hn2),
      (MoveToFront_split el _ l1 l2 Hn1 Hn2).
    intros [= <-]. cbn [lru]. eexists _, _. reflexivity.
  - unfold PushFront. cbv beta iota zeta.
    destruct (maxBucketSize <? _) eqn:E.
    + apply Z.ltb_lt in E. cbn [length] in E. unfold maxBucketSize in E.
      destruct (lru b) as [|x0 l0] eqn:El; [cbn [length] in E; lia|].
      destruct (exists_last (l := x0 :: l0)) as (front & [le lv] & Hfl);
        [discriminate|].
      rewrite Hfl.
      match goal with |- context [Back ?l] =>
        assert (Hback : Back l = Some (le, lv))
          by (unfold Back; rewrite app_comm_cons; apply last_snoc)
      end.
      rewrite Hback. cbn [fst snd]. intros [= <-]. cbn [lru].
      pose proof (fresh_not_in (front ++ [(le, lv)])) as Hfresh.
      unfold Remove. cbn [List.filter]. unfold is_el at 1. cbn [fst].
      match goal with |- context [negb ?c] => destruct c eqn:Ee end.
      * apply Nat.eqb_eq in Ee. exfalso. apply Hfresh. rewrite map_app.
        apply in_or_app. right. left. symmetry. exact Ee.
      * cbn [negb]. eexists _, _. reflexivity.
    + intros [= <-]. cbn [lru]. eexists _, _. reflexivity.
Qed.

(** X7.  On a bucket whose map is allocated and agrees with its list,
    [store] returns and keeps that agreement: the bucket holds at most
    16 nodes with distinct NodeIDs.  The node stored comes first, with
    the time of the call as [lastSeen] and with the map entry of its
    NodeID pointing at it; behind it come the nodes that were there, in
    their order, less the one with the same NodeID and cut after 15. *)
Theorem store_lru_order now b n :
  bucket_ok b ->
  exists b', store now b n = Ok b' /\ bucket_ok b' /\
    nodes b' = n :: firstn 15 (without n (nodes b)) /\
    Z.of_nat (length (nodes b')) <= maxBucketSize /\
    List.NoDup (map NodeAddrHex (nodes b')) /\
    exists e rest m,
      lru b' = (e, mkEntry n now) :: rest /\
      entriesMap b' = Some m /\ m !! NodeAddrHex n = Some e.
Proof.
  intros Hok.
  destruct (store_order now b n Hok) as (b' & Hs & Hok' & Hn).
  exists b'. split; [exact Hs|]. split; [exact Hok'|]. split; [exact Hn|].
  pose proof (nodes_bound b' Hok') as Hb. split; [unfold maxBucketSize; lia|].
  destruct (store_front_entry now b n b' Hok Hs) as (e & rest & Hl).
  destruct Hok' as (m & Hm & _ & Hkeys & Hmap & _).
  split; [unfold nodes; rewrite <- keys_nodes; exact Hkeys|].
  exists e, rest, m. split; [exact Hl|]. split; [exact Hm|].
  apply Hmap. exists (mkEntry n now). split; [rewrite Hl; left; reflexivity|reflexivity].
Qed.

Lemma store_lru_order_witness :
  let b := {| lru := [(2%nat, mkEntry (mkENR 8 0) 1); (1%nat, mkEntry (mkENR 5 0) 0)];
              entriesMap := Some (<[8 := 2%nat]> (<[5 := 1%nat]> ∅)) |} in
  exists b', store 7 b (mkENR 5 1) = Ok b' /\
    nodes b' = [mkENR 5 1; mkENR 8 0] /\
    exists e rest m,
      lru b' = (e, mkEntry (mkENR 5 1) 7) :: rest /\
      entriesMap b' = Some m /\ m !! 5 = Some e.
Proof.
  intros b.
  assert (Hok : bucket_ok b).
  { destruct (store_order 0 emptyBucket (mkENR 5 0) emptyBucket_ok)
      as (b1 & Hs1 & Hok1 & _).
    injection Hs1 as <-.
    destruct (store_order 1 _ (mkENR 8 0) Hok1) as (b2 & Hs2 & Hok2 & _).
    injection Hs2 as <-. exact Hok2. }
  destruct (store_lru_order 7 b (mkENR 5 1) Hok)
    as (b' & Hs & _ & Hn & _ & _ & He).
  exists b'. split; [exact Hs|]. split; [exact Hn|exact He].
Defined.

(** X8.  Nodes with distinct NodeIDs that the bucket does not hold,
    stored one after the other, end up in front of the bucket, the last
    stored first; what exceeds 16 falls off the end, oldest first. *)
Theorem storeAll_keeps_latest now b ns :
  bucket_ok b ->
  List.NoDup (map NodeAddrHex ns) ->
  (forall n, In n ns -> ~ In (NodeAddrHex n) (map NodeAddrHex (nodes b))) ->
  exists b', storeAll now b ns = Ok b' /\ bucket_ok b' /\
    nodes b' = firstn 16 (rev ns ++ nodes b).
Proof. intros Hok Hnd Hnew. exact (storeAll_recent now ns b Hok Hnd Hnew). Qed.

Lemma storeAll_keeps_latest_witness :
  let ns := map (fun i => mkENR (Z.of_nat i) 0) (seq 1 17) in
  exists b', storeAll 0 emptyBucket ns = Ok b' /\ bucket_ok b' /\
    nodes b' = map (fun i => mkENR (Z.of_nat i) 0) (rev (seq 2 16)).
Proof.
  intros ns.
  apply (storeAll_keeps_latest 0 emptyBucket ns emptyBucket_ok).
  - vm_compute. repeat (constructor; [cbn [In]; intuition discriminate|]). constructor.
  - intros n _ [].
Defined.

(** *** Tables whose maps are allocated *)

Lemma nth_error_splice {A} (x : A) : forall i l j, (i < length l)%nat ->
  nth_error (firstn i l ++ x :: skipn (S i) l) j
  = if Nat.eqb j i then Some x else nth_error l j.
Proof.
  induction i as [|i IH]; intros [|y l] j H; cbn [length] in H; try lia.
  - destruct j; reflexivity.
  - destruct j; [reflexivity|]. cbn [firstn app nth_error Nat.eqb].
    change (skipn (S (S i)) (y :: l)) with (skipn (S i) l). apply IH. lia.
Qed.

Lemma length_splice {A} (x : A) i l : (i < length l)%nat ->
  length (firstn i l ++ x :: skipn (S i) l) = length l.
Proof.
  intros H. rewrite length_app, length_firstn. cbn [length]. rewrite length_skipn. lia.
Qed.

Lemma entries_In kt x :
  In x (entries kt) <-> exists j b, nth_error (buckets kt) j = Some b /\ In x (nodes b).
Proof.
  unfold entries. rewrite in_concat. split.
  - intros (l & Hl & Hx). apply in_map_iff in Hl as (b & <- & Hb).
    apply In_nth_error in Hb as (j & Hj). eauto.
  - intros (j & b & Hj & Hx). exists (nodes b). split; [|exact Hx].
    apply in_map. eapply nth_error_In. exact Hj.
Qed.

Lemma entries_bound bs :
  Forall bucket_ok bs ->
  Z.of_nat (length (concat (map nodes bs))) <= maxBucketSize * Z.of_nat (length bs).
Proof.
  unfold maxBucketSize. induction 1 as [|b bs Hb _ IH]; [cbn; lia|].
  cbn [map concat length]. rewrite length_app. apply nodes_bound in Hb. lia.
Qed.

Lemma allocatedTable_ok self : table_ok (allocatedTable self).
Proof.
  unfold table_ok, allocatedTable. cbn [buckets selfNode]. split; [apply repeat_length|].
  split.
  - apply List.Forall_forall. intros b Hb. apply repeat_spec in Hb as ->.
    apply emptyBucket_ok.
  - intros i b x Hi Hx. apply nth_error_In, repeat_spec in Hi. subst b. destruct Hx.
Qed.

Lemma bucketOf_index self n :
  Z.to_nat ((if LogDistance self n <? minLogDistance
             then minLogDistance else LogDistance self n) - minLogDistance)
  = Z.to_nat (bucketOf self n).
Proof.
  unfold bucketOf. destruct (Z.ltb_spec (LogDistance self n) minLogDistance);
    f_equal; lia.
Qed.

Lemma Insert_allocated now kt n :
  table_ok kt -> LogDistance (selfNode kt) n <= addrByteSize ->
  exists i b b' kt',
    Z.of_nat i = bucketOf (selfNode kt) n /\
    nth_error (buckets kt) i = Some b /\
    store now b n = Ok b' /\
    nodes b' = n :: firstn 15 (without n (nodes b)) /\
    Insert now kt n = Ok kt' /\ table_ok kt' /\ selfNode kt' = selfNode kt /\
    nth_error (buckets kt') i = Some b' /\
    (forall j, j <> i -> nth_error (buckets kt') j = nth_error (buckets kt) j) /\
    (forall x, In x (entries kt') -> x = n \/ In x (entries kt)).
Proof.
  intros (Hlen & Hall & Hplace) Hd.
  set (i := Z.to_nat (bucketOf (selfNode kt) n)).
  assert (Hi : Z.of_nat i = bucketOf (selfNode kt) n)
    by (unfold i, bucketOf; lia).
  assert (Hi20 : (i < length (buckets kt))%nat).
  { rewrite Hlen. unfold i, bucketOf, minLogDistance, addrByteSize, bucketsCount in *.
    lia. }
  destruct (nth_error (buckets kt) i) as [b|] eqn:Hb.
  2:{ apply nth_error_None in Hb. lia. }
  assert (Hok : bucket_ok b).
  { rewrite List.Forall_forall in Hall. apply Hall. eapply nth_error_In. exact Hb. }
  destruct (store_order now b n Hok) as (b' & Hs & Hok' & Hn).
  exists i, b, b'. eexists. split; [exact Hi|]. split; [exact Hb|].
  split; [exact Hs|]. split; [exact Hn|].
  assert (Hnth : forall j, nth_error (firstn i (buckets kt) ++ b' :: skipn (S i) (buckets kt)) j
                           = if Nat.eqb j i then Some b' else nth_error (buckets kt) j)
    by (intros j; apply nth_error_splice, Hi20).
  split.
  { unfold Insert. cbv zeta. rewrite bucketOf_index. fold i. rewrite Hb, Hs.
    cbn [rbind]. reflexivity. }
  cbn [buckets selfNode].
  assert (Hin : forall j c x,
    nth_error (firstn i (buckets kt) ++ b' :: skipn (S i) (buckets kt)) j = Some c ->
    In x (nodes c) ->
    (j = i /\ x = n) \/ exists c0, nth_error (buckets kt) j = Some c0 /\ In x (nodes c0)).
  { intros j c x Hj Hx. rewrite Hnth in Hj. destruct (Nat.eqb_spec j i) as [->|Hne].
    - injection Hj as <-. rewrite Hn in Hx. destruct Hx as [<-|Hx]; [left; tauto|].
      right. exists b. split; [exact Hb|].
      apply In_firstn in Hx. unfold without in Hx. apply filter_In in Hx. tauto.
    - right. exists c. tauto. }
  split; [|split; [reflexivity|split; [|split]]].
  - unfold table_ok. cbn [buckets selfNode].
    split; [rewrite length_splice by exact Hi20; exact Hlen|]. split.
    + apply List.Forall_forall. intros c Hc. apply In_nth_error in Hc as (j & Hj).
      rewrite Hnth in Hj. destruct (Nat.eqb j i).
      * injection Hj as <-. exact Hok'.
      * rewrite List.Forall_forall in Hall. apply Hall. eapply nth_error_In. exact Hj.
    + intros j c x Hj Hx. destruct (Hin j c x Hj Hx) as [[-> ->]|(c0 & Hc0 & Hx0)].
      * exact Hi.
      * exact (Hplace j c0 x Hc0 Hx0).
  - rewrite Hnth, Nat.eqb_refl. reflexivity.
  - intros j Hne. rewrite Hnth. destruct (Nat.eqb_spec j i); [contradiction|reflexivity].
  - intros x Hx. apply entries_In in Hx as (j & c & Hj & Hx). cbn [buckets] in Hj.
    destruct (Hin j c x Hj Hx) as [[_ ->]|(c0 & Hc0 & Hx0)]; [left; reflexivity|].
    right. apply entries_In. eauto.
Qed.

(** X9.  On a table whose twenty buckets are allocated, and for a node
    at log-distance at most 256 from the table's own, [Insert] returns.
    The node is stored in the bucket numbered by its distance less 237,
    and in bucket 0 when it is closer than that; it comes first in that
    bucket, and no other bucket changes. *)
Theorem Insert_chooses_bucket now kt n :
  table_ok kt -> LogDistance (selfNode kt) n <= addrByteSize ->
  exists i b b' kt',
    Z.of_nat i = Z.max 0 (LogDistance (selfNode kt) n - 237) /\
    nth_error (buckets kt) i = Some b /\
    Insert now kt n = Ok kt' /\ table_ok kt' /\ selfNode kt' = selfNode kt /\
    nth_error (buckets kt') i = Some b' /\
    store now b n = Ok b' /\
    nodes b' = n :: firstn 15 (without n (nodes b)) /\
    forall j, j <> i -> nth_error (buckets kt') j = nth_error (buckets kt) j.
Proof.
  intros Hok Hd.
  destruct (Insert_allocated now kt n Hok Hd)
    as (i & b & b' & kt' & Hi & Hb & Hs & Hn & Hins & Hok' & Hself & Hb' & Hother & _).
  exists i, b, b', kt'. split; [exact Hi|]. split; [exact Hb|].
  split; [exact Hins|]. split; [exact Hok'|]. split; [exact Hself|].
  split; [exact Hb'|]. split; [exact Hs|]. split; [exact Hn|exact Hother].
Qed.

Lemma Insert_chooses_bucket_witness :
  let kt := allocatedTable (mkENR 0 0) in
  exists i b b' kt',
    Z.of_nat i = Z.max 0 (LogDistance (selfNode kt) (mkENR (2 ^ 240) 0) - 237) /\
    nth_error (buckets kt) i = Some b /\
    Insert 7 kt (mkENR (2 ^ 240) 0) = Ok kt' /\ table_ok kt' /\
    selfNode kt' = selfNode kt /\
    nth_error (buckets kt') i = Some b' /\
    store 7 b (mkENR (2 ^ 240) 0) = Ok b' /\
    nodes b' = mkENR (2 ^ 240) 0
               :: firstn 15 (without (mkENR (2 ^ 240) 0) (nodes b)) /\
    forall j, j <> i -> nth_error (buckets kt') j = nth_error (buckets kt) j.
Proof.
  intros kt.
  apply (Insert_chooses_bucket 7 kt (mkENR (2 ^ 240) 0) (allocatedTable_ok _)).
  vm_compute. discriminate.
Defined.

(** X10.  A table whose buckets are allocated stays so under any
    sequence of [Insert]s of nodes at log-distance at most 256: every
    call returns, no bucket grows beyond 16 nodes, so the table never
    holds more than 320, each node sits in the bucket of its distance,
    and the table holds nothing but nodes it held or was given. *)
Theorem InsertAll_keeps_table calls : forall kt,
  table_ok kt ->
  (forall c, In c calls -> LogDistance (selfNode kt) (snd c) <= addrByteSize) ->
  exists kt', InsertAll kt calls = Ok kt' /\ table_ok kt' /\
    selfNode kt' = selfNode kt /\
    Z.of_nat (length (entries kt')) <= 320 /\
    forall x, In x (entries kt') -> In x (entries kt) \/ In x (map snd calls).
Proof.
  induction calls as [|[now n] calls IH]; intros kt Hok Hd.
  - exists kt. split; [reflexivity|]. split; [exact Hok|]. split; [reflexivity|].
    split; [|tauto]. destruct Hok as (Hlen & Hall & _).
    pose proof (entries_bound _ Hall) as Hb. fold (entries kt) in Hb.
    rewrite Hlen in Hb. unfold maxBucketSize, bucketsCount in Hb. lia.
  - destruct (Insert_allocated now kt n Hok (Hd (now, n) (or_introl eq_refl)))
      as (i & b & b' & kt1 & _ & _ & _ & _ & Hins & Hok1 & Hself & _ & _ & Hin).
    destruct (IH kt1 Hok1) as (kt' & Hall & Hok' & Hself' & Hlen & Hin').
    { intros c Hc. rewrite Hself. apply Hd. right. exact Hc. }
    exists kt'. cbn [InsertAll]. rewrite Hins. cbn [rbind].
    split; [exact Hall|]. split; [exact Hok'|]. split; [congruence|].
    split; [exact Hlen|]. intros x Hx. cbn [map snd].
    destruct (Hin' x Hx) as [H1|H1]; [|right; right; exact H1].
    destruct (Hin x H1) as [->|H0]; [right; left; reflexivity|left; exact H0].
Qed.

Lemma InsertAll_keeps_table_witness :
  let kt := allocatedTable (mkENR 0 0) in
  let calls := [(1, mkENR (2 ^ 255) 0); (2, mkENR 5 0); (3, mkENR 5 1)] in
  exists kt', InsertAll kt calls = Ok kt' /\ table_ok kt' /\
    selfNode kt' = selfNode kt /\
    Z.of_nat (length (entries kt')) <= 320 /\
    forall x, In x (entries kt') -> In x (entries kt) \/ In x (map snd calls).
Proof.
  intros kt calls.
  apply (InsertAll_keeps_table calls kt (allocatedTable_ok _)).
  intros c [<-|[<-|[<-|[]]]]; vm_compute; discriminate.
Defined.

(** *** No NodeID twice in a table *)

Lemma bucketOf_same self x y :
  NodeAddrHex x = NodeAddrHex y -> bucketOf self x = bucketOf self y.
Proof. unfold bucketOf, LogDistance, NodeAddrHex. intros ->. reflexivity. Qed.

Lemma NoDup_keys_concat self : forall bs off,
  Forall bucket_ok bs ->
  (forall i b x, nth_error bs i = Some b -> In x (nodes b) ->
     Z.of_nat (off + i) = bucketOf self x) ->
  List.NoDup (map NodeAddrHex (concat (map nodes bs))).
Proof.
  induction bs as [|b bs IH]; intros off Hall Hplace; [constructor|].
  apply Forall_cons in Hall as [Hb Hbs].
  cbn [map concat]. rewrite map_app. apply List.NoDup_app.
  - destruct Hb as (m & _ & _ & Hkeys & _). rewrite keys_nodes in Hkeys. exact Hkeys.
  - apply (IH (S off) Hbs). intros i c x Hi Hx.
    rewrite <- (Hplace (S i) c x Hi Hx). lia.
  - intros a Ha Ha'.
    apply in_map_iff in Ha as (x & <- & Hx).
    apply in_map_iff in Ha' as (y & Hxy & Hy).
    apply (entries_In (mkTable self bs)) in Hy as (j & c & Hj & Hy). cbn [buckets] in Hj.
    pose proof (Hplace 0%nat b x eq_refl Hx) as H0.
    pose proof (Hplace (S j) c y Hj Hy) as H1.
    rewrite (bucketOf_same self y x Hxy) in H1. lia.
Qed.

Lemma entries_NoDup_keys kt :
  table_ok kt -> List.NoDup (map NodeAddrHex (entries kt)).
Proof.
  intros (_ & Hall & Hplace).
  apply (NoDup_keys_concat (selfNode kt) (buckets kt) 0 Hall).
  intros i b x Hi Hx. rewrite Nat.add_0_l. exact (Hplace i b x Hi Hx).
Qed.

Lemma NoDup_map_eq {A B} (f : A -> B) l x y :
  List.NoDup (map f l) -> In x l -> In y l -> f x = f y -> x = y.
Proof.
  induction l as [|a l IH]; intros Hnd Hx Hy Hf; [destruct Hx|].
  cbn [map] in Hnd. apply NoDup_cons_iff in Hnd as [Ha Hnd].
  destruct Hx as [->|Hx], Hy as [->|Hy].
  - reflexivity.
  - exfalso. apply Ha. rewrite Hf. apply in_map, Hy.
  - exfalso. apply Ha. rewrite <- Hf. apply in_map, Hx.
  - exact (IH Hnd Hx Hy Hf).
Qed.

Lemma LogDistance_zero a b :
  0 <= LogDistance a b /\
  LogDistance a a = 0 /\
  (LogDistance a b = 0 -> NodeAddrHex a = NodeAddrHex b).
Proof.
  unfold LogDistance, NodeAddrHex. rewrite Z.lxor_nilpotent. cbn [Z.eqb].
  destruct (Z.eqb_spec (Z.lxor (nodeAddr a) (nodeAddr b)) 0) as [E|E].
  - split; [lia|]. split; [reflexivity|]. intros _. apply Z.lxor_eq, E.
  - pose proof (Z.log2_nonneg (Z.lxor (nodeAddr a) (nodeAddr b))).
    split; [lia|]. split; [reflexivity|]. lia.
Qed.

(** X20.  A table whose nodes sit in the buckets of their distances
    holds no NodeID twice, hence no node twice: a stored node replaces
    the one with its NodeID, and two nodes with one NodeID never go to
    different buckets. *)
Theorem table_has_no_duplicate_id kt :
  table_ok kt ->
  List.NoDup (map NodeAddrHex (entries kt)) /\ List.NoDup (entries kt).
Proof.
  intros Hok. pose proof (entries_NoDup_keys kt Hok) as H.
  split; [exact H|]. exact (NoDup_map_inv _ _ H).
Qed.

Lemma table_has_no_duplicate_id_witness :
  exists kt1 kt2,
    Insert 1 (allocatedTable (mkENR 0 0)) (mkENR 5 0) = Ok kt1 /\
    Insert 2 kt1 (mkENR 5 1) = Ok kt2 /\
    List.NoDup (map NodeAddrHex (entries kt2)) /\ List.NoDup (entries kt2).
Proof.
  destruct (Insert_allocated 1 (allocatedTable (mkENR 0 0)) (mkENR 5 0)
              (allocatedTable_ok _) ltac:(vm_compute; discriminate))
    as (_ & _ & _ & kt1 & _ & _ & _ & _ & Hins1 & Hok1 & Hself1 & _).
  destruct (Insert_allocated 2 kt1 (mkENR 5 1) Hok1
              ltac:(rewrite Hself1; vm_compute; discriminate))
    as (_ & _ & _ & kt2 & _ & _ & _ & _ & Hins2 & Hok2 & _).
  exists kt1, kt2. split; [exact Hins1|]. split; [exact Hins2|].
  exact (table_has_no_duplicate_id kt2 Hok2).
Defined.

(** *** FindClosest with enough entries *)

Lemma StronglySorted_app_cross {A} (R : A -> A -> Prop) l1 : forall l2,
  StronglySorted R (l1 ++ l2) -> forall a b, In a l1 -> In b l2 -> R a b.
Proof.
  induction l1 as [|x l1 IH]; intros l2 Hs a b Ha Hb; [destruct Ha|].
  cbn [app] in Hs. apply StronglySorted_inv in Hs as [Hs Hx]. destruct Ha as [<-|Ha].
  - rewrite List.Forall_forall in Hx. apply Hx. apply in_or_app. right. exact Hb.
  - eapply IH; eassumption.
Qed.

Lemma insert_sorted_perm less x l : Permutation (x :: l) (insert_sorted less x l).
Proof.
  induction l as [|y l IH]; cbn [insert_sorted]; [reflexivity|].
  destruct (less y x); [|reflexivity].
  etransitivity; [apply perm_swap|apply perm_skip, IH].
Qed.

Lemma insertion_sort_perm less l : Permutation l (insertion_sort less l).
Proof.
  induction l as [|x l IH]; [reflexivity|]. unfold insertion_sort. cbn [fold_right].
  etransitivity; [apply perm_skip, IH|apply insert_sorted_perm].
Qed.

Lemma insert_sorted_sorted (key : ENR -> Z) x l :
  StronglySorted (fun a b => key a <= key b) l ->
  StronglySorted (fun a b => key a <= key b)
    (insert_sorted (fun a b => key a <? key b) x l).
Proof.
  induction 1 as [|y l Hs IH Hy]; cbn [insert_sorted].
  - constructor; constructor.
  - destruct (Z.ltb_spec (key y) (key x)) as [Hlt|Hge].
    + constructor; [exact IH|].
      apply (Permutation_Forall (insert_sorted_perm _ x l)).
      constructor; [lia|exact Hy].
    + constructor; [constructor; assumption|].
      constructor; [lia|]. eapply List.Forall_impl; [|exact Hy].
      intros a Ha. cbn beta in Ha. lia.
Qed.

Lemma insertion_sort_sorted (key : ENR -> Z) l :
  StronglySorted (fun a b => key a <= key b)
    (insertion_sort (fun a b => key a <? key b) l).
Proof.
  induction l as [|x l IH]; [constructor|]. unfold insertion_sort. cbn [fold_right].
  apply insert_sorted_sorted, IH.
Qed.

(** X11.  When the table holds at least [count] nodes, [FindClosest]
    returns [count] of them, none nil: a part of the entries of the
    table, in ascending log-distance from the target, and no node it
    leaves out is closer to the target than one it returns.
    [sort.Sort] is taken to reorder the slice so that it is sorted for
    [Less]. *)
Theorem FindClosest_returns_closest sort grow kt target count :
  (forall less l, Permutation l (sort less l)) ->
  (forall (key : ENR -> Z) l,
     StronglySorted (fun a b => key a <= key b)
       (sort (fun a b => key a <? key b) l)) ->
  0 <= count <= Z.of_nat (length (entries kt)) ->
  exists l rest,
    FindClosest sort grow kt target count = Ok (map Some l) /\
    Z.of_nat (length l) = count /\
    Permutation (entries kt) (l ++ rest) /\
    StronglySorted (fun a b => LogDistance a target <= LogDistance b target) l /\
    forall a b, In a l -> In b rest -> LogDistance a target <= LogDistance b target.
Proof.
  intros Hperm Hsorted Hc.
  assert (Hlen : forall less l, length (sort less l) = length l)
    by (intros; symmetry; apply Permutation_length, Hperm).
  pose proof (Hsorted (fun a => LogDistance a target) (entries kt)) as Hs.
  change (StronglySorted (fun a b => LogDistance a target <= LogDistance b target)
            (sort (Less target) (entries kt))) in Hs.
  set (sorted := sort (Less target) (entries kt)) in *.
  exists (firstn (Z.to_nat count) sorted), (skipn (Z.to_nat count) sorted).
  split; [apply (FindClosest_within sort grow Hlen), Hc|].
  split; [rewrite length_firstn; unfold sorted; rewrite Hlen; lia|].
  split; [rewrite firstn_skipn; apply Hperm|].
  split; [apply StronglySorted_firstn, Hs|].
  rewrite <- (firstn_skipn (Z.to_nat count) sorted) in Hs.
  exact (StronglySorted_app_cross _ _ _ Hs).
Qed.

Lemma FindClosest_returns_closest_witness :
  let kt := {| selfNode := mkENR 0 0;
               buckets := [{| lru := [(2%nat, mkEntry (mkENR 64 0) 0);
                                      (1%nat, mkEntry (mkENR 5 0) 0)];
                              entriesMap := Some (<[64 := 2%nat]> (<[5 := 1%nat]> ∅)) |};
                           {| lru := [(1%nat, mkEntry (mkENR 9 0) 0)];
                              entriesMap := Some (<[9 := 1%nat]> ∅) |}] |} in
  exists l rest,
    FindClosest insertion_sort (fun _ need => need) kt (mkENR 8 0) 2 = Ok (map Some l) /\
    Z.of_nat (length l) = 2 /\
    Permutation (entries kt) (l ++ rest) /\
    StronglySorted
      (fun a b => LogDistance a (mkENR 8 0) <= LogDistance b (mkENR 8 0)) l /\
    forall a b, In a l -> In b rest ->
      LogDistance a (mkENR 8 0) <= LogDistance b (mkENR 8 0).
Proof.
  intros kt.
  apply (FindClosest_returns_closest insertion_sort (fun _ need => need) kt
           (mkENR 8 0) 2 insertion_sort_perm insertion_sort_sorted).
  vm_compute. split; discriminate.
Defined.

(** X21.  A node that has just been inserted is found.  On a table
    whose buckets are allocated, [FindClosest] for the node itself and
    a count of 1, right after the [Insert] of the node, returns that
    node and no other: it is in the table, nothing is closer to it than
    itself, and nothing else in the table has its NodeID.  [sort.Sort]
    is taken to reorder the slice so that it is sorted for [Less]. *)
Theorem Insert_then_FindClosest sort grow now kt n :
  (forall less l, Permutation l (sort less l)) ->
  (forall (key : ENR -> Z) l,
     StronglySorted (fun a b => key a <= key b)
       (sort (fun a b => key a <? key b) l)) ->
  table_ok kt -> LogDistance (selfNode kt) n <= addrByteSize ->
  exists kt', Insert now kt n = Ok kt' /\
    FindClosest sort grow kt' n 1 = Ok [Some n].
Proof.
  intros Hperm Hsorted Hok Hd.
  destruct (Insert_allocated now kt n Hok Hd)
    as (i & b & b' & kt' & _ & _ & _ & Hn & Hins & Hok' & _ & Hb' & _).
  exists kt'. split; [exact Hins|].
  assert (Hin : In n (entries kt')).
  { apply entries_In. exists i, b'. split; [exact Hb'|]. rewrite Hn. left. reflexivity. }
  assert (Hlen : forall less l, length (sort less l) = length l)
    by (intros; symmetry; apply Permutation_length, Hperm).
  rewrite (FindClosest_within sort grow Hlen kt' n 1).
  2:{ destruct (entries kt'); [destruct Hin|cbn [length]; lia]. }
  pose proof (Hsorted (fun a => LogDistance a n) (entries kt')) as Hs.
  change (StronglySorted (fun a b => LogDistance a n <= LogDistance b n)
            (sort (Less n) (entries kt'))) in Hs.
  pose proof (Hperm (Less n) (entries kt')) as Hp.
  pose proof (Permutation_in _ Hp Hin) as Hin'.
  destruct (sort (Less n) (entries kt')) as [|x xs]; [destruct Hin'|].
  change (Z.to_nat 1) with 1%nat. cbn [firstn map]. do 3 f_equal.
  apply StronglySorted_inv in Hs as [_ Hx].
  destruct (LogDistance_zero x n) as (H0 & _ & Hz).
  destruct (LogDistance_zero n n) as (_ & Hnn & _).
  assert (Hxn : LogDistance x n <= LogDistance n n).
  { destruct Hin' as [->|Hin']; [lia|]. rewrite List.Forall_forall in Hx. apply Hx, Hin'. }
  apply (NoDup_map_eq NodeAddrHex (entries kt')).
  - apply entries_NoDup_keys, Hok'.
  - apply (Permutation_in _ (Permutation_sym Hp)). left. reflexivity.
  - exact Hin.
  - apply Hz. lia.
Qed.

Lemma Insert_then_FindClosest_witness :
  exists kt', Insert 7 (allocatedTable (mkENR 0 0)) (mkENR 5 0) = Ok kt' /\
    FindClosest insertion_sort (fun _ need => need) kt' (mkENR 5 0) 1
    = Ok [Some (mkENR 5 0)].
Proof.
  apply (Insert_then_FindClosest insertion_sort (fun _ need => need) 7
           (allocatedTable (mkENR 0 0)) (mkENR 5 0)
           insertion_sort_perm insertion_sort_sorted (allocatedTable_ok _)).
  vm_compute. discriminate.
Defined.

(** ** The discovery engine *)

Import Discv4.

Lemma bytes_Equal_eq a b : bytes_Equal a b = true <-> a = b.
Proof.
  revert b. induction a as [|x a IH]; intros [|y b]; cbn [bytes_Equal];
    try (split; [discriminate|discriminate]); [tauto|].
  rewrite andb_true_iff, IH. split.
  - intros [Hxy ->]. apply Byte.byte_dec_bl in Hxy. congruence.
  - intros [= -> ->]. split; [apply Byte.byte_dec_lb|]; reflexivity.
Qed.

Lemma cons_neq {A} (x : A) l : l <> x :: l.
Proof.
  intros H. apply (f_equal (@length A)) in H. cbn [length] in H. lia.
Qed.

Section EngineFacts.
Context (X : Externals).

Lemma Ping_ktable e p dest : ktable (snd (Ping X e p dest)) = ktable p.
Proof.
  unfold Ping. destruct (peers p !! ID X dest) as [pr|].
  - destruct (Since (pe_since e) (SentPing pr) <? Hour); [reflexivity|].
    destruct (snd (pe_write e)); reflexivity.
  - destruct (snd (pe_write e)); reflexivity.
Qed.

Lemma pingRecords_ktable w rs : forall k p,
  ktable (snd (pingRecords X w k p rs)) = ktable p.
Proof.
  induction rs as [|r rs IH]; intros k p; cbn [pingRecords]; [reflexivity|].
  pose proof (Ping_ktable (w_ping w k) p r) as H.
  destruct (Ping X (w_ping w k) p r) as [[err|] p']; cbn [snd] in *; [exact H|].
  rewrite IH. exact H.
Qed.


Lemma bonded_true r : bonded r = true <-> ReceivedPing r <> 0 /\ ReceivedPong r <> 0.
Proof.
  unfold bonded, IsZero. rewrite andb_true_iff, !negb_true_iff, !Z.eqb_neq. tauto.
Qed.

Lemma handlePing_grows w p req packet :
  grows_bonded p (snd (handlePing X w p req packet)).
Proof.
  unfold grows_bonded, handlePing.
  destruct (rlp_Decode X _) as [it|err]; [|left; reflexivity].
  destruct (IP X _) as [reqFrom|err]; [|left; reflexivity].
  destruct (negb (IP_Equal X reqFrom (Ip req))); [left; reflexivity|].
  destruct (negb (_ =? UdpPort req)); [left; reflexivity|].
  destruct (w_pong w); [left; reflexivity|].
  set (peer := set_ReceivedPing _ _).
  destruct (Hour <? _).
  - rewrite Ping_ktable. destruct (bonded peer) eqn:E; [|left; reflexivity].
    right. exists peer. split; [reflexivity|]. apply bonded_true, E.
  - cbn [snd]. destruct (bonded peer) eqn:E; [|left; reflexivity].
    right. exists peer. split; [reflexivity|]. apply bonded_true, E.
Qed.

Lemma handlePong_grows w p req packet :
  grows_bonded p (snd (handlePong X w p req packet)).
Proof.
  unfold grows_bonded, handlePong.
  destruct (rlp_Decode X _) as [it|err]; [|left; reflexivity].
  destruct (Hash X _) as [hash|err]; [|left; reflexivity].
  destruct (peers p !! ID X req) as [peer|]; [|left; reflexivity].
  destruct (negb (bytes_Equal _ _)); [left; reflexivity|].
  destruct (Minute <? _); [left; reflexivity|].
  cbn [snd]. set (peer' := set_ReceivedPong _ _).
  destruct (bonded peer') eqn:E; [|left; reflexivity].
  right. exists peer'. split; [reflexivity|]. apply bonded_true, E.
Qed.

Lemma serve_grows w p uaddr packet :
  grows_bonded p (snd (serve X w p uaddr packet)).
Proof.
  unfold grows_bonded, serve.
  destruct (_ <=? headerSize); [left; reflexivity|].
  destruct (negb (bytes_Equal _ _)); [left; reflexivity|].
  destruct (Recover X _ _) as [pub|err]; [|left; reflexivity].
  set (req := mkRecord _ _ _ _ _ _ _ _). set (kind := b2z _).
  destruct (kind =? 1).
  { pose proof (handlePing_grows w p req packet) as H. unfold grows_bonded in H.
    destruct (handlePing X w p req packet). exact H. }
  destruct (kind =? 2).
  { pose proof (handlePong_grows w p req packet) as H. unfold grows_bonded in H.
    destruct (handlePong X w p req packet). exact H. }
  destruct (kind =? 3).
  { unfold handleFindNode. destruct (rlp_Decode X _); left; reflexivity. }
  destruct (kind =? 4).
  { unfold handleNeighbors. destruct (rlp_Decode X _) as [it|]; [|left; reflexivity].
    destruct (neighborRecords X p _ _ _) as [rs|]; [|left; reflexivity].
    pose proof (pingRecords_ktable w rs 0%nat p) as H.
    destruct (pingRecords X w 0 p rs). left. exact H. }
  destruct (kind =? 5).
  { unfold handleENRRequest. destruct (rlp_Decode X _); [|left; reflexivity].
    destruct (_ <? w_now w); [left; reflexivity|].
    destruct (MarshalRLP X (self p)); left; reflexivity. }
  left. reflexivity.
Qed.

Lemma handlePing_accepted w p req packet it reqFrom :
  rlp_Decode X (skipn (Z.to_nat headerSize) packet) = inl it ->
  IP X (At X (At X it 1) 0) = inl reqFrom ->
  IP_Equal X reqFrom (Ip req) = true ->
  Uint16 X (At X (At X it 1) 1) = UdpPort req ->
  w_pong w = None ->
  let peer := set_ReceivedPing
                (match peers p !! ID X req with Some pr => pr | None => req end)
                (w_now w) in
  ktable (snd (handlePing X w p req packet))
  = if bonded peer then peer :: ktable p else ktable p.
Proof.
  intros Hd Hip Heq Hport Hpong peer. unfold handlePing.
  rewrite Hd, Hip, Heq, Hport, Z.eqb_refl, Hpong. cbn [negb]. fold peer.
  destruct (Hour <? _).
  - rewrite Ping_ktable. destruct (bonded peer); reflexivity.
  - cbn [snd]. destruct (bonded peer); reflexivity.
Qed.

Lemma handlePong_accepted w p req packet it hash peer0 :
  rlp_Decode X (skipn (Z.to_nat headerSize) packet) = inl it ->
  Hash X (At X it 1) = inl hash ->
  peers p !! ID X req = Some peer0 ->
  SentPingHash peer0 = hash ->
  Since (w_since w) (SentPing peer0) <= Minute ->
  let peer := set_ReceivedPong peer0 (w_now w) in
  handlePong X w p req packet
  = (None, let p1 := set_peers p (<[ID X req := peer]> (peers p)) in
           if bonded peer then ktable_Insert p1 peer else p1).
Proof.
  intros Hd Hh Hp Heq Ht peer. unfold handlePong.
  rewrite Hd, Hh, Hp, Heq.
  rewrite (proj2 (bytes_Equal_eq hash hash) eq_refl). cbn [negb].
  destruct (Minute <? _) eqn:E; [apply Z.ltb_lt in E; lia|]. reflexivity.
Qed.

End EngineFacts.




(** C10.  When a Ping has passed the checks of its from field and the
    write of the Pong fails, [handlePing] returns that error and the
    process is as it was: the peer map (so also every [ReceivedPing])
    and the routing table are untouched, and a sender that was not in
    the map is still not in it. *)
Theorem handlePing_pong_failure X w p req packet it reqFrom e :
  rlp_Decode X (skipn (Z.to_nat headerSize) packet) = inl it ->
  IP X (At X (At X it 1) 0) = inl reqFrom ->
  IP_Equal X reqFrom (Ip req) = true ->
  Uint16 X (At X (At X it 1) 1) = UdpPort req ->
  w_pong w = Some e ->
  handlePing X w p req packet = (Some e, p).
Proof.
  intros Hd Hip Heq Hport Hpong. unfold handlePing.
  rewrite Hd, Hip, Heq, Hport, Z.eqb_refl, Hpong. reflexivity.
Qed.

Lemma handlePing_pong_failure_witness :
  peers testProcess !! ID testExternals testRecord = None /\
  handlePing testExternals (testWorld (Some "write failed"%string)) testProcess
    testRecord [] = (Some "write failed"%string, testProcess).
Proof.
  split; [reflexivity|].
  apply (handlePing_pong_failure testExternals _ _ _ _ tt []); reflexivity.
Defined.

Ltac rejected :=
  repeat split;
  try solve [intros; eexists; reflexivity | intros; discriminate
            | intros; congruence | intros; reflexivity].

(** C7.  [handlePong] returns an error and leaves the process as it
    was when the sender is not in the peer map, when the ping hash of
    the payload is not the [SentPingHash] of the peer, and when more
    than a minute has passed since [SentPing]; whenever it returns an
    error the process is unchanged; and when it returns nil the three
    checks have passed and the peer is stored with [ReceivedPong] set
    to the reading of the clock. *)
Theorem handlePong_rejects X w p req packet :
  let r := handlePong X w p req packet in
  (peers p !! ID X req = None -> exists e, r = (Some e, p)) /\
  (forall it hash peer,
      rlp_Decode X (skipn (Z.to_nat headerSize) packet) = inl it ->
      Hash X (At X it 1) = inl hash ->
      peers p !! ID X req = Some peer ->
      SentPingHash peer <> hash ->
      r = (Some "invalid ping hash"%string, p)) /\
  (forall peer,
      peers p !! ID X req = Some peer ->
      Minute < Since (w_since w) (SentPing peer) ->
      exists e, r = (Some e, p)) /\
  (fst r <> None -> snd r = p) /\
  (fst r = None ->
   exists it hash peer,
      rlp_Decode X (skipn (Z.to_nat headerSize) packet) = inl it /\
      Hash X (At X it 1) = inl hash /\
      peers p !! ID X req = Some peer /\
      SentPingHash peer = hash /\
      Since (w_since w) (SentPing peer) <= Minute /\
      peers (snd r) !! ID X req = Some (set_ReceivedPong peer (w_now w))).
Proof.
  cbv zeta. unfold handlePong.
  destruct (rlp_Decode X _) as [it|err] eqn:Hd; [|rejected].
  destruct (Hash X _) as [hash|err] eqn:Hh; [|rejected].
  destruct (peers p !! ID X req) as [peer|] eqn:Hp; [|rejected].
  destruct (bytes_Equal (SentPingHash peer) hash) eqn:Heq; cbn [negb].
  2:{ rejected. }
  apply bytes_Equal_eq in Heq.
  destruct (Minute <? _) eqn:Ht.
  { rejected. }
  apply Z.ltb_ge in Ht. cbn [fst snd]. rejected.
  - intros peer' [= <-] Hlt. lia.
  - intros _. exists it, hash, peer. repeat split; try assumption.
    destruct (bonded _); cbn [peers ktable_Insert set_peers]; apply lookup_insert_eq.
Qed.

Lemma handlePong_rejects_witness :
  let p := mkProcess testRecord
             (<[7 := mkRecord 7 [] 0 0 90 [x01] 5 0]> ∅) [] in
  handlePong testExternals (testWorld None) p testRecord []
  = (Some "invalid ping hash"%string, p).
Proof.
  intros p.
  apply (proj1 (proj2 (handlePong_rejects testExternals (testWorld None) p
                         testRecord [])) tt [] (mkRecord 7 [] 0 0 90 [x01] 5 0));
    [reflexivity|reflexivity|reflexivity|discriminate].
Defined.

(** C6.  Serving a datagram adds nothing to the routing table, or one
    record whose [ReceivedPing] and [ReceivedPong] are both non-zero.
    A Ping that passes its checks and is answered, and a Pong that
    passes its checks, insert the sender's record exactly when both of
    its timestamps are non-zero after the update. *)
Theorem table_insert_iff_bonded X w p :
  (forall uaddr packet,
      let p' := snd (serve X w p uaddr packet) in
      ktable p' = ktable p \/
      exists r, ktable p' = r :: ktable p /\
                ReceivedPing r <> 0 /\ ReceivedPong r <> 0) /\
  (forall req packet it reqFrom,
      rlp_Decode X (skipn (Z.to_nat headerSize) packet) = inl it ->
      IP X (At X (At X it 1) 0) = inl reqFrom ->
      IP_Equal X reqFrom (Ip req) = true ->
      Uint16 X (At X (At X it 1) 1) = UdpPort req ->
      w_pong w = None ->
      let peer := set_ReceivedPing
                    (match peers p !! ID X req with Some pr => pr | None => req end)
                    (w_now w) in
      let p' := snd (handlePing X w p req packet) in
      (ReceivedPing peer <> 0 /\ ReceivedPong peer <> 0
       <-> ktable p' = peer :: ktable p) /\
      (ktable p' = ktable p \/ ktable p' = peer :: ktable p)) /\
  (forall req packet it hash peer0,
      rlp_Decode X (skipn (Z.to_nat headerSize) packet) = inl it ->
      Hash X (At X it 1) = inl hash ->
      peers p !! ID X req = Some peer0 ->
      SentPingHash peer0 = hash ->
      Since (w_since w) (SentPing peer0) <= Minute ->
      let peer := set_ReceivedPong peer0 (w_now w) in
      let p' := snd (handlePong X w p req packet) in
      (ReceivedPing peer <> 0 /\ ReceivedPong peer <> 0
       <-> ktable p' = peer :: ktable p) /\
      (ktable p' = ktable p \/ ktable p' = peer :: ktable p)).
Proof.
  split; [|split].
  - intros uaddr packet. apply serve_grows.
  - intros req packet it reqFrom Hd Hip Heq Hport Hpong peer p'.
    assert (Hk : ktable p' = if bonded peer then peer :: ktable p else ktable p)
      by (eapply handlePing_accepted; eassumption).
    rewrite Hk, <- bonded_true. destruct (bonded peer); split; try tauto.
    + split; [discriminate|]. intros H. exfalso. exact (cons_neq _ _ H).
  - intros req packet it hash peer0 Hd Hh Hp Heq Ht peer p'.
    assert (Hk : ktable p' = if bonded peer then peer :: ktable p else ktable p).
    { unfold p'. rewrite (handlePong_accepted X w p req packet it hash peer0)
        by assumption. cbn [snd]. fold peer. destruct (bonded peer); reflexivity. }
    rewrite Hk, <- bonded_true. destruct (bonded peer); split; try tauto.
    + split; [discriminate|]. intros H. exfalso. exact (cons_neq _ _ H).
Qed.

Lemma table_insert_iff_bonded_witness :
  let peer0 := mkRecord 7 [] 0 0 90 [] 5 0 in
  let p := mkProcess testRecord (<[7 := peer0]> ∅) [] in
  ktable (snd (handlePong testExternals (testWorld None) p testRecord []))
  = [set_ReceivedPong peer0 100].
Proof.
  intros peer0 p.
  apply (proj1 (proj2 (proj2 (table_insert_iff_bonded testExternals
                                (testWorld None) p))
                  testRecord [] tt [] peer0 eq_refl eq_refl eq_refl eq_refl
                  ltac:(vm_compute; discriminate))).
  split; discriminate.
Defined.

(** C9.  With the error-wrapping helper as the spec describes it (a
    nil error is formatted into a non-nil one), [serve] never returns
    a nil error, also when the handler it dispatched to returned nil. *)
Theorem serve_error_never_nil X w p uaddr packet :
  (forall prefix err, isxerrors_Errorf prefix err <> None) /\
  fst (serve X w p uaddr packet) <> None.
Proof.
  split; [discriminate|]. unfold serve.
  destruct (_ <=? headerSize); [discriminate|].
  destruct (negb (bytes_Equal _ _)); [discriminate|].
  destruct (Recover X _ _) as [pub|err]; [|discriminate].
  match goal with |- context [let '(_, _) := ?h in _] => destruct h end.
  discriminate.
Qed.

(** A valid Pong that bonds the peer: the handler returns nil, [serve] does not. *)
Example serve_accepted_pong :
  let peer0 := mkRecord 7 [] 0 0 90 [] 5 0 in
  let p := mkProcess testRecord (<[7 := peer0]> ∅) [] in
  let packet := repeat x00 97 ++ [x02; xc0] in
  handlePong testExternals (testWorld None) p
    (mkRecord 7 [] 9 0 0 [] 0 0) packet
  = (None, mkProcess testRecord (<[7 := set_ReceivedPong peer0 100]> (<[7 := peer0]> ∅))
             [set_ReceivedPong peer0 100]) /\
  fst (serve testExternals (testWorld None) p ([], 9) packet)
  = Some "serving: %!w(<nil>)"%string.
Proof. split; reflexivity. Qed.

(** *** What a ping changes *)

Section EngineState.
Context (X : Externals).

Lemma Ping_cases e p dest :
  (Ping X e p dest = (None, p) /\
   exists pr, peers p !! ID X dest = Some pr /\
              Since (pe_since e) (SentPing pr) < Hour) \/
  (exists err, snd (pe_write e) = Some err /\
     (forall pr, peers p !! ID X dest = Some pr ->
                 Hour <= Since (pe_since e) (SentPing pr)) /\
     Ping X e p dest = (Some err, p)) \/
  (snd (pe_write e) = None /\
   (forall pr, peers p !! ID X dest = Some pr ->
               Hour <= Since (pe_since e) (SentPing pr)) /\
   Ping X e p dest
   = (None, set_peers p (<[ID X dest := set_SentPing dest (pe_now e) (fst (pe_write e))]>
                           (peers p)))).
Proof.
  unfold Ping. destruct (peers p !! ID X dest) as [pr|] eqn:Hp.
  - destruct (Z.ltb_spec (Since (pe_since e) (SentPing pr)) Hour) as [Hlt|Hge].
    + left. split; [reflexivity|]. exists pr. split; [reflexivity|exact Hlt].
    + right. destruct (snd (pe_write e)) as [err|] eqn:Hw.
      * left. exists err. split; [reflexivity|]. split; [|reflexivity].
        intros pr' [= <-]. exact Hge.
      * right. split; [reflexivity|]. split; [|reflexivity].
        intros pr' [= <-]. exact Hge.
  - right. destruct (snd (pe_write e)) as [err|] eqn:Hw.
    + left. exists err. split; [reflexivity|]. split; [|reflexivity]. intros pr' [=].
    + right. split; [reflexivity|]. split; [|reflexivity]. intros pr' [=].
Qed.

Lemma keeps_refl p : keeps_peers X p p.
Proof. split; [reflexivity|]. split; intros; assumption. Qed.

Lemma keeps_trans p1 p2 p3 :
  keeps_peers X p1 p2 -> keeps_peers X p2 p3 -> keeps_peers X p1 p3.
Proof.
  intros (Hs1 & Hk1 & Hm1) (Hs2 & Hk2 & Hm2). split; [congruence|]. split.
  - intros H. apply Hk2, Hk1, H.
  - intros k H. apply Hm2, Hm1, H.
Qed.

Lemma keeps_insert p k r :
  (keyed_by_ID X p -> ID X r = k) ->
  keeps_peers X p (set_peers p (<[k := r]> (peers p))).
Proof.
  intros Hr. unfold keeps_peers, keyed_by_ID, set_peers in *. cbn [self peers].
  split; [reflexivity|]. split.
  - intros Hk k' r' H. apply lookup_insert_Some in H as [[<- <-]|[_ H]].
    + apply Hr, Hk.
    + exact (Hk _ _ H).
  - intros k' H. destruct (decide (k = k')) as [<-|Hne].
    + rewrite lookup_insert_eq. eauto.
    + rewrite lookup_insert_ne by exact Hne. exact H.
Qed.

Lemma keeps_ktable_Insert p r : keeps_peers X p (ktable_Insert p r).
Proof. split; [reflexivity|]. split; intros; assumption. Qed.

Lemma Ping_keeps e p dest : keeps_peers X p (snd (Ping X e p dest)).
Proof.
  destruct (Ping_cases e p dest) as [[-> _]|[(err & _ & _ & ->)|(_ & _ & ->)]];
    cbn [snd]; try apply keeps_refl.
  apply keeps_insert. reflexivity.
Qed.

Lemma Ping_other e p dest k :
  k <> ID X dest -> peers (snd (Ping X e p dest)) !! k = peers p !! k.
Proof.
  intros Hk.
  destruct (Ping_cases e p dest) as [[-> _]|[(err & _ & _ & ->)|(_ & _ & ->)]];
    cbn [snd set_peers peers]; try reflexivity.
  apply lookup_insert_ne. congruence.
Qed.

Lemma pingRecords_keeps w rs : forall k p,
  keeps_peers X p (snd (pingRecords X w k p rs)).
Proof.
  induction rs as [|r rs IH]; intros k p; cbn [pingRecords]; [apply keeps_refl|].
  pose proof (Ping_keeps (w_ping w k) p r) as H.
  destruct (Ping X (w_ping w k) p r) as [[err|] p']; cbn [snd] in *; [exact H|].
  eapply keeps_trans; [exact H|apply IH].
Qed.

Lemma pingRecords_other w rs key : forall k p,
  Forall (fun r => ID X r <> key) rs ->
  peers (snd (pingRecords X w k p rs)) !! key = peers p !! key.
Proof.
  induction rs as [|r rs IH]; intros k p Hall; cbn [pingRecords]; [reflexivity|].
  apply Forall_cons in Hall as [Hr Hrs].
  pose proof (Ping_other (w_ping w k) p r key ltac:(congruence)) as H.
  destruct (Ping X (w_ping w k) p r) as [[err|] p']; cbn [snd] in *; [exact H|].
  rewrite IH by exact Hrs. exact H.
Qed.

Lemma neighborRecords_not_self p nodes idx : forall records rs,
  neighborRecords X p nodes idx records = inl rs ->
  Forall (fun r => ID X r <> ID X (self p)) records ->
  Forall (fun r => ID X r <> ID X (self p)) rs.
Proof.
  induction idx as [|i idx IH]; intros records rs H Hall; cbn [neighborRecords] in H.
  - injection H as <-. exact Hall.
  - destruct (IP X _) as [ip|]; [|discriminate H].
    destruct (Secp256k1PublicKey X _) as [pub|]; [|discriminate H].
    match type of H with context [if ?c then _ else _] => destruct c eqn:E end.
    + eapply IH; eassumption.
    + eapply IH; [exact H|]. apply Forall_app. split; [exact Hall|].
      apply Z.eqb_neq in E. constructor; [exact E|constructor].
Qed.

Lemma handlePing_keeps w p req packet :
  keeps_peers X p (snd (handlePing X w p req packet)).
Proof.
  unfold handlePing.
  destruct (rlp_Decode X _) as [it|err]; [|apply keeps_refl].
  destruct (IP X _) as [reqFrom|err]; [|apply keeps_refl].
  destruct (negb (IP_Equal X reqFrom (Ip req))); [apply keeps_refl|].
  destruct (negb (_ =? UdpPort req)); [apply keeps_refl|].
  destruct (w_pong w); [apply keeps_refl|]. cbv zeta.
  set (peer := set_ReceivedPing _ _).
  set (p1 := set_peers p _).
  assert (H1 : keeps_peers X p p1).
  { apply keeps_insert. intros Hk. unfold peer.
    destruct (peers p !! ID X req) as [pr|] eqn:E; [exact (Hk _ _ E)|reflexivity]. }
  assert (H2 : keeps_peers X p (if bonded peer then ktable_Insert p1 peer else p1)).
  { destruct (bonded peer); [|exact H1].
    eapply keeps_trans; [exact H1|apply keeps_ktable_Insert]. }
  destruct (Hour <? _); [|exact H2].
  eapply keeps_trans; [exact H2|apply Ping_keeps].
Qed.

Lemma handlePong_keeps w p req packet :
  keeps_peers X p (snd (handlePong X w p req packet)).
Proof.
  unfold handlePong.
  destruct (rlp_Decode X _) as [it|err]; [|apply keeps_refl].
  destruct (Hash X _) as [hash|err]; [|apply keeps_refl].
  destruct (peers p !! ID X req) as [peer|] eqn:E; [|apply keeps_refl].
  destruct (negb (bytes_Equal _ _)); [apply keeps_refl|].
  destruct (Minute <? _); [apply keeps_refl|]. cbv zeta. cbn [snd].
  set (peer' := set_ReceivedPong _ _).
  assert (H1 : keeps_peers X p (set_peers p (<[ID X req := peer']> (peers p)))).
  { apply keeps_insert. intros Hk. exact (Hk _ _ E). }
  destruct (bonded peer'); [|exact H1].
  eapply keeps_trans; [exact H1|apply keeps_ktable_Insert].
Qed.

Lemma handleNeighbors_keeps w p req packet :
  keeps_peers X p (snd (handleNeighbors X w p req packet)).
Proof.
  unfold handleNeighbors.
  destruct (rlp_Decode X _) as [it|err]; [|apply keeps_refl].
  destruct (neighborRecords X p _ _ _) as [rs|err]; [|apply keeps_refl].
  apply pingRecords_keeps.
Qed.

Lemma handleFindNode_same w p req packet :
  snd (handleFindNode X w p req packet) = p.
Proof. unfold handleFindNode. destruct (rlp_Decode X _); reflexivity. Qed.

Lemma handleENRRequest_same w p req packet :
  snd (handleENRRequest X w p req packet) = p.
Proof.
  unfold handleENRRequest. destruct (rlp_Decode X _); [|reflexivity].
  destruct (_ <? w_now w); [reflexivity|].
  destruct (MarshalRLP X (self p)); reflexivity.
Qed.

Lemma serve_keeps w p uaddr packet :
  keeps_peers X p (snd (serve X w p uaddr packet)).
Proof.
  unfold serve.
  destruct (_ <=? headerSize); [apply keeps_refl|].
  destruct (negb (bytes_Equal _ _)); [apply keeps_refl|].
  destruct (Recover X _ _) as [pub|err]; [|apply keeps_refl].
  set (req := mkRecord _ _ _ _ _ _ _ _). set (kind := b2z _).
  destruct (kind =? 1).
  { pose proof (handlePing_keeps w p req packet) as H.
    destruct (handlePing X w p req packet). exact H. }
  destruct (kind =? 2).
  { pose proof (handlePong_keeps w p req packet) as H.
    destruct (handlePong X w p req packet). exact H. }
  destruct (kind =? 3).
  { pose proof (handleFindNode_same w p req packet) as H.
    destruct (handleFindNode X w p req packet). cbn [snd] in *. subst. apply keeps_refl. }
  destruct (kind =? 4).
  { pose proof (handleNeighbors_keeps w p req packet) as H.
    destruct (handleNeighbors X w p req packet). exact H. }
  destruct (kind =? 5).
  { pose proof (handleENRRequest_same w p req packet) as H.
    destruct (handleENRRequest X w p req packet). cbn [snd] in *. subst. apply keeps_refl. }
  apply keeps_refl.
Qed.

Lemma serveAll_app inputs : forall p more,
  serveAll X p (inputs ++ more) = serveAll X (serveAll X p inputs) more.
Proof.
  induction inputs as [|[[w uaddr] packet] inputs IH]; intros p more; [reflexivity|].
  cbn [app serveAll]. apply IH.
Qed.

Lemma serveAll_keeps inputs : forall p, keeps_peers X p (serveAll X p inputs).
Proof.
  induction inputs as [|[[w uaddr] packet] inputs IH]; intros p; [apply keeps_refl|].
  cbn [serveAll]. eapply keeps_trans; [apply serve_keeps|apply IH].
Qed.

Lemma serveAll_bonded inputs : forall p,
  Forall (fun r => ReceivedPing r <> 0 /\ ReceivedPong r <> 0) (ktable p) ->
  Forall (fun r => ReceivedPing r <> 0 /\ ReceivedPong r <> 0)
    (ktable (serveAll X p inputs)).
Proof.
  induction inputs as [|[[w uaddr] packet] inputs IH]; intros p Hp; [exact Hp|].
  cbn [serveAll]. apply IH.
  destruct (serve_grows X w p uaddr packet) as [->|(r & -> & Hr)]; [exact Hp|].
  constructor; [exact Hr|exact Hp].
Qed.

End EngineState.

(** X12.  In every state that the process reaches from [New] by
    serving datagrams, whatever they hold: the own record is the one
    given to [New]; every peer is filed under its own ID; and every
    record that was handed to the routing table had a non-zero
    [ReceivedPing] and a non-zero [ReceivedPong] when it was.  A peer
    that is in the map stays in it, whatever is served next. *)
Theorem served_states X self0 inputs :
  let p := serveAll X (New self0) inputs in
  self p = self0 /\
  keyed_by_ID X p /\
  Forall (fun r => ReceivedPing r <> 0 /\ ReceivedPong r <> 0) (ktable p) /\
  forall more k, is_Some (peers p !! k) ->
                 is_Some (peers (serveAll X (New self0) (inputs ++ more)) !! k).
Proof.
  cbv zeta. destruct (serveAll_keeps X inputs (New self0)) as (Hs & Hk & _).
  split; [exact Hs|]. split.
  { apply Hk. intros k r H. cbn [New peers] in H. rewrite lookup_empty in H.
    discriminate H. }
  split; [apply serveAll_bonded; constructor|].
  intros more k H. rewrite serveAll_app.
  destruct (serveAll_keeps X more (serveAll X (New self0) inputs)) as (_ & _ & Hm).
  apply Hm, H.
Qed.

(** X13.  [Ping] leaves the own record, the routing table and every
    peer other than the destination as they are.  When it returns an
    error, that is the error of the write and nothing has changed.  A
    destination that was pinged less than an hour ago is skipped:
    nothing is written or changed.  Otherwise, once the write has
    succeeded, the record filed under the destination's ID is the record
    passed, with [SentPing] and [SentPingHash] set, whatever was filed
    there before. *)
Theorem Ping_effect X e p dest :
  let r := Ping X e p dest in
  self (snd r) = self p /\ ktable (snd r) = ktable p /\
  (forall k, k <> ID X dest -> peers (snd r) !! k = peers p !! k) /\
  (fst r <> None -> snd r = p /\ fst r = snd (pe_write e)) /\
  (forall pr, peers p !! ID X dest = Some pr ->
     Since (pe_since e) (SentPing pr) < Hour -> r = (None, p)) /\
  ((forall pr, peers p !! ID X dest = Some pr ->
      Hour <= Since (pe_since e) (SentPing pr)) ->
   snd (pe_write e) = None ->
   fst r = None /\
   peers (snd r) !! ID X dest
   = Some (set_SentPing dest (pe_now e) (fst (pe_write e)))).
Proof.
  cbv zeta. split; [apply (Ping_keeps X e p dest)|].
  split; [apply Ping_ktable|]. split; [intros k Hk; apply Ping_other, Hk|].
  destruct (Ping_cases X e p dest)
    as [[Hr (pr & Hpr & Hlt)]|[(err & Hw & Hge & Hr)|(Hw & Hge & Hr)]]; rewrite Hr;
    cbn [fst snd].
  - split; [intros H; now elim H|]. split; [reflexivity|].
    intros Hall _. specialize (Hall pr Hpr). lia.
  - split; [intros _; split; [reflexivity|symmetry; exact Hw]|].
    split; [|intros _ Hn; congruence].
    intros pr Hpr Hlt. specialize (Hge pr Hpr). lia.
  - split; [intros H; now elim H|]. split.
    + intros pr Hpr Hlt. specialize (Hge pr Hpr). lia.
    + intros _ _. split; [reflexivity|]. cbn [set_peers peers]. apply lookup_insert_eq.
Qed.

Lemma Ping_effect_witness :
  let known := mkRecord 7 [] 0 0 90 [x01] 5 6 in
  let p := mkProcess testRecord (<[7 := known]> ∅) [] in
  let e := mkPingEnv (Hour + 100) 200 ([x02], None) in
  fst (Ping testExternals e p testRecord) = None /\
  peers (snd (Ping testExternals e p testRecord)) !! 7
  = Some (mkRecord 7 [] 0 0 200 [x02] 0 0).
Proof.
  intros known p e.
  apply (proj2 (proj2 (proj2 (proj2 (proj2 (Ping_effect testExternals e p testRecord)))))).
  - intros pr Hpr. vm_compute in Hpr. injection Hpr as <-. vm_compute. discriminate.
  - reflexivity.
Defined.

(** X14.  [handleNeighbors] never touches the routing table nor the
    own record, never pings a listed node that has the ID of the
    process itself, so that what is filed under that ID stays as it is,
    and drops no peer. *)
Theorem handleNeighbors_effect X w p req packet :
  let r := handleNeighbors X w p req packet in
  self (snd r) = self p /\ ktable (snd r) = ktable p /\
  peers (snd r) !! ID X (self p) = peers p !! ID X (self p) /\
  forall k, is_Some (peers p !! k) -> is_Some (peers (snd r) !! k).
Proof.
  cbv zeta. destruct (handleNeighbors_keeps X w p req packet) as (Hs & _ & Hm).
  split; [exact Hs|]. split; [|split; [|exact Hm]]; unfold handleNeighbors.
  - destruct (rlp_Decode X _) as [it|err]; [|reflexivity].
    destruct (neighborRecords X p _ _ _) as [rs|err]; [|reflexivity].
    apply pingRecords_ktable.
  - destruct (rlp_Decode X _) as [it|err]; [|reflexivity].
    destruct (neighborRecords X p _ _ _) as [rs|err] eqn:E; [|reflexivity].
    apply pingRecords_other.
    exact (neighborRecords_not_self X p _ _ _ _ E (List.Forall_nil _)).
Qed.

(** X15.  The exchange that bonds a peer.  A Ping from a sender that
    is not in the peer map, once it has passed its checks and been
    answered, files the sender with [ReceivedPing] set and has a Ping
    sent back, without touching the routing table.  When the Pong that
    carries the hash of that Ping arrives within a minute, the sender's
    record, with both timestamps set, is handed to the routing table. *)
Theorem bonding_exchange X w1 w2 p key ip port packet1 packet2 it1 reqFrom it2 h :
  let req := mkRecord key ip port 0 0 [] 0 0 in
  let bonded_peer :=
    mkRecord key ip port 0 (pe_now (w_ping w1 0%nat)) h (w_now w1) (w_now w2) in
  peers p !! ID X req = None ->
  rlp_Decode X (skipn (Z.to_nat headerSize) packet1) = inl it1 ->
  IP X (At X (At X it1 1) 0) = inl reqFrom ->
  IP_Equal X reqFrom ip = true ->
  Uint16 X (At X (At X it1 1) 1) = port ->
  w_pong w1 = None -> w_now w1 <> 0 -> Hour < w_since w1 ->
  Hour <= pe_since (w_ping w1 0%nat) ->
  pe_write (w_ping w1 0%nat) = (h, None) ->
  rlp_Decode X (skipn (Z.to_nat headerSize) packet2) = inl it2 ->
  Hash X (At X it2 1) = inl h ->
  Since (w_since w2) (pe_now (w_ping w1 0%nat)) <= Minute -> w_now w2 <> 0 ->
  let r1 := handlePing X w1 p req packet1 in
  let r2 := handlePong X w2 (snd r1) req packet2 in
  fst r1 = None /\ ktable (snd r1) = ktable p /\
  fst r2 = None /\ ktable (snd r2) = bonded_peer :: ktable p /\
  peers (snd r2) !! ID X req = Some bonded_peer.
Proof.
  intros req bonded_peer Hnew Hd1 Hip Heq Hport Hpong Hnow1 Hsince1 Hpsince Hwrite
    Hd2 Hh Hsince2 Hnow2.
  set (peer1 := mkRecord key ip port 0 0 [] (w_now w1) 0).
  set (peer2 := mkRecord key ip port 0 (pe_now (w_ping w1 0%nat)) h (w_now w1) 0).
  assert (Hr1 : handlePing X w1 p req packet1
                = (None, set_peers (set_peers p (<[ID X req := peer1]> (peers p)))
                           (<[ID X req := peer2]> (<[ID X req := peer1]> (peers p))))).
  { unfold handlePing. rewrite Hd1, Hip. cbn [Ip UdpPort req]. rewrite Heq, Hport, Z.eqb_refl.
    cbn [negb]. rewrite Hpong, Hnew. cbv zeta.
    change (set_ReceivedPing req (w_now w1)) with peer1.
    assert (Hb : bonded peer1 = false).
    { unfold bonded, peer1. cbn [ReceivedPing ReceivedPong IsZero]. unfold IsZero.
      rewrite Z.eqb_refl. cbn [negb]. apply andb_false_r. }
    rewrite Hb. cbn [SentPing peer1]. unfold Since at 1. rewrite Z.sub_0_r.
    rewrite (proj2 (Z.ltb_lt Hour (w_since w1)) Hsince1).
    unfold Ping. cbn [set_peers peers].
    change (ID X peer1) with (ID X req). rewrite lookup_insert_eq.
    cbn [SentPing peer1]. unfold Since. rewrite Z.sub_0_r.
    rewrite (proj2 (Z.ltb_ge _ _) Hpsince), Hwrite. cbn [fst snd]. reflexivity. }
  cbv zeta. rewrite Hr1. cbn [fst snd].
  set (p1 := set_peers (set_peers p _) _).
  split; [reflexivity|]. split; [reflexivity|].
  rewrite (handlePong_accepted X w2 p1 req packet2 it2 h peer2 Hd2 Hh);
    [|unfold p1; cbn [set_peers peers]; apply lookup_insert_eq|reflexivity
     |exact Hsince2].
  cbv zeta. change (set_ReceivedPong peer2 (w_now w2)) with bonded_peer.
  assert (Hb : bonded bonded_peer = true).
  { apply bonded_true. split; assumption. }
  rewrite Hb. cbn [fst snd ktable_Insert set_peers ktable peers].
  split; [reflexivity|]. split; [reflexivity|]. apply lookup_insert_eq.
Qed.

Lemma bonding_exchange_witness :
  let w1 := mkWorld None 100 (Hour + 100)
              (fun _ => mkPingEnv (Hour + 100) 200 ([], None)) ([], None) in
  let w2 := mkWorld None 300 250 (fun _ => mkPingEnv 0 0 ([], None)) ([], None) in
  let req := mkRecord 7 [] 0 0 0 [] 0 0 in
  let r1 := handlePing testExternals w1 testProcess req [] in
  let r2 := handlePong testExternals w2 (snd r1) req [] in
  fst r1 = None /\ ktable (snd r1) = ktable testProcess /\
  fst r2 = None /\
  ktable (snd r2) = mkRecord 7 [] 0 0 200 [] 100 300 :: ktable testProcess /\
  peers (snd r2) !! ID testExternals req = Some (mkRecord 7 [] 0 0 200 [] 100 300).
Proof.
  intros w1 w2 req.
  apply (bonding_exchange testExternals w1 w2 testProcess 7 [] 0 [] [] tt [] tt []);
    try reflexivity; vm_compute; discriminate.
Defined.

(** X16.  [serve] changes the state of the process only when it
    serves a Ping, a Pong or a Neighbors packet that is longer than the
    header, carries the hash of its own content and a signature from
    which a key is recovered.  A packet that fails one of these checks,
    a FindNode, an ENRRequest and a packet of unknown kind leave the
    process as it was. *)
Theorem serve_changes_state_only X w p uaddr packet :
  snd (serve X w p uaddr packet) <> p ->
  headerSize < Z.of_nat (length packet) /\
  firstn (Z.to_nat hashSize) packet = Keccak X (skipn (Z.to_nat hashSize) packet) /\
  (exists key,
      Recover X (firstn (Z.to_nat sigSize) (skipn (Z.to_nat hashSize) packet))
        (Keccak X (skipn (Z.to_nat (hashSize + sigSize)) packet)) = inl key) /\
  let kind := b2z (nth (Z.to_nat (hashSize + sigSize)) packet x00) in
  kind = 1 \/ kind = 2 \/ kind = 4.
Proof.
  unfold serve. intros H.
  destruct (Z.leb_spec (Z.of_nat (length packet)) headerSize) as [Hle|Hgt];
    [now elim H|].
  destruct (bytes_Equal _ _) eqn:Eh; cbn [negb] in H; [|now elim H].
  apply bytes_Equal_eq in Eh.
  destruct (Recover X _ _) as [key|err] eqn:Er; [|now elim H].
  split; [exact Hgt|]. split; [exact Eh|]. split; [exists key; reflexivity|].
  cbv zeta. set (kind := b2z _) in *.
  set (req := mkRecord _ _ _ _ _ _ _ _) in H.
  destruct (Z.eqb_spec kind 1) as [H1|_]; [left; exact H1|].
  destruct (Z.eqb_spec kind 2) as [H2|_]; [right; left; exact H2|].
  destruct (Z.eqb_spec kind 3) as [_|_].
  { exfalso. apply H. pose proof (handleFindNode_same X w p req packet) as Hs.
    destruct (handleFindNode X w p req packet). exact Hs. }
  destruct (Z.eqb_spec kind 4) as [H4|_]; [right; right; exact H4|].
  destruct (Z.eqb_spec kind 5) as [_|_].
  { exfalso. apply H. pose proof (handleENRRequest_same X w p req packet) as Hs.
    destruct (handleENRRequest X w p req packet). exact Hs. }
  now elim H.
Qed.

Lemma serve_changes_state_only_witness :
  let p := mkProcess testRecord (<[7 := mkRecord 7 [] 0 0 90 [] 5 0]> ∅) [] in
  let packet := repeat x00 97 ++ [x02; xc0] in
  headerSize < Z.of_nat (length packet) /\
  firstn (Z.to_nat hashSize) packet
  = Keccak testExternals (skipn (Z.to_nat hashSize) packet) /\
  (exists key,
      Recover testExternals
        (firstn (Z.to_nat sigSize) (skipn (Z.to_nat hashSize) packet))
        (Keccak testExternals (skipn (Z.to_nat (hashSize + sigSize)) packet))
      = inl key) /\
  let kind := b2z (nth (Z.to_nat (hashSize + sigSize)) packet x00) in
  kind = 1 \/ kind = 2 \/ kind = 4.
Proof.
  intros p packet.
  apply (serve_changes_state_only testExternals (testWorld None) p ([], 9) packet).
  intros H. apply (f_equal ktable) in H. vm_compute in H. discriminate H.
Defined.

(** X17.  An error from [handlePing] does not mean that nothing
    happened.  When the Ping has passed its checks and the Pong is
    written, the sender is filed with [ReceivedPing] set, and handed to
    the routing table if it has both timestamps, before the Ping back is
    tried; if the write of that Ping fails, [handlePing] returns the
    error and the process keeps what was recorded. *)
Theorem handlePing_ping_back_failure X w p req packet it reqFrom err :
  let peer := set_ReceivedPing
                (match peers p !! ID X req with Some pr => pr | None => req end)
                (w_now w) in
  keyed_by_ID X p ->
  rlp_Decode X (skipn (Z.to_nat headerSize) packet) = inl it ->
  IP X (At X (At X it 1) 0) = inl reqFrom ->
  IP_Equal X reqFrom (Ip req) = true ->
  Uint16 X (At X (At X it 1) 1) = UdpPort req ->
  w_pong w = None ->
  Hour < Since (w_since w) (SentPing peer) ->
  Hour <= Since (pe_since (w_ping w 0%nat)) (SentPing peer) ->
  snd (pe_write (w_ping w 0%nat)) = Some err ->
  let r := handlePing X w p req packet in
  fst r = Some err /\
  peers (snd r) !! ID X req = Some peer /\
  ktable (snd r) = (if bonded peer then peer :: ktable p else ktable p) /\
  self (snd r) = self p.
Proof.
  intros peer Hk Hd Hip Heq Hport Hpong Hsince Hpsince Hw. cbv zeta.
  assert (Hid : ID X peer = ID X req).
  { unfold peer. destruct (peers p !! ID X req) as [pr|] eqn:E; [exact (Hk _ _ E)|reflexivity]. }
  unfold handlePing. rewrite Hd, Hip, Heq, Hport, Z.eqb_refl, Hpong. cbn [negb]. cbv zeta.
  fold peer. rewrite (proj2 (Z.ltb_lt _ _) Hsince).
  set (p1 := set_peers p (<[ID X req := peer]> (peers p))).
  set (p2 := if bonded peer then ktable_Insert p1 peer else p1).
  assert (Hp2 : peers p2 = <[ID X req := peer]> (peers p))
    by (unfold p2; destruct (bonded peer); reflexivity).
  assert (Hr : Ping X (w_ping w 0%nat) p2 peer = (Some err, p2)).
  { destruct (Ping_cases X (w_ping w 0%nat) p2 peer)
      as [[_ (pr & Hpr & Hlt)]|[(err' & Hw' & _ & Hr)|(Hw' & _)]].
    - rewrite Hp2, Hid, lookup_insert_eq in Hpr. injection Hpr as <-. lia.
    - congruence.
    - congruence. }
  rewrite Hr. cbn [fst snd]. split; [reflexivity|]. split; [|split].
  - rewrite Hp2. apply lookup_insert_eq.
  - unfold p2. destruct (bonded peer); reflexivity.
  - unfold p2. destruct (bonded peer); reflexivity.
Qed.

Lemma handlePing_ping_back_failure_witness :
  let w := mkWorld None 100 (Hour + 100)
             (fun _ => mkPingEnv (Hour + 100) 200 ([], Some "no route"%string))
             ([], None) in
  let r := handlePing testExternals w testProcess testRecord [] in
  fst r = Some "no route"%string /\
  peers (snd r) !! ID testExternals testRecord = Some (mkRecord 7 [] 0 0 0 [] 100 0) /\
  ktable (snd r) = [] /\
  self (snd r) = testRecord.
Proof.
  intros w.
  apply (handlePing_ping_back_failure testExternals w testProcess testRecord []
           tt [] "no route"%string);
    try reflexivity; try (vm_compute; discriminate).
Defined.

(** *** Packets that the process writes *)

Lemma firstn_exact {A} (a b : list A) n : length a = n -> firstn n (a ++ b) = a.
Proof.
  intros <-. induction a as [|x a IH]; cbn [length firstn app]; [reflexivity|].
  f_equal. exact IH.
Qed.

Lemma skipn_exact {A} (a b : list A) n : length a = n -> skipn n (a ++ b) = b.
Proof.
  intros <-. induction a as [|x a IH]; cbn [length skipn app]; [reflexivity|exact IH].
Qed.

(** X18.  A packet that [write] hands to the connection is framed as
    [serve] expects it.  It is the hash, the signature, the packet type
    and the encoded Item, in this order; it is longer than the header,
    because [Encode] never returns an empty payload; [serve] finds in
    it the hash of its content, the signature that was made and, behind
    the header, the payload that was encoded.  So [serve] never rejects
    it for its size or its hash, and recovers the sender's key from
    that signature over the digest that was signed.  The digest has 32
    bytes and the signature 65. *)
Theorem write_packet_passes_checks X sign wr pt it packet hash err :
  (forall bs, length (Keccak X bs) = 32%nat) ->
  (forall d sig, sign d = inl sig -> length sig = 65%nat) ->
  write X sign wr pt it = Ok (Some packet, (hash, err)) ->
  exists pd sig,
    Rlp.Encode it = Ok pd /\ sign (Keccak X (pt :: pd)) = inl sig /\
    packet = hash ++ sig ++ pt :: pd /\
    hash = Keccak X (sig ++ pt :: pd) /\ err = wr /\
    headerSize < Z.of_nat (length packet) /\
    firstn (Z.to_nat sigSize) (skipn (Z.to_nat hashSize) packet) = sig /\
    skipn (Z.to_nat (hashSize + sigSize)) packet = pt :: pd /\
    skipn (Z.to_nat headerSize) packet = pd /\
    forall w p uaddr,
      fst (serve X w p uaddr packet) <> Some "discv4 packet too small"%string /\
      fst (serve X w p uaddr packet) <> Some "packet contains invalid hash"%string /\
      (forall e, Recover X sig (Keccak X (pt :: pd)) = inr e ->
         serve X w p uaddr packet
         = (Some "unable to extract pubkey from packet"%string, p)).
Proof.
  intros Hk Hsig H. unfold write in H.
  destruct (Rlp.Encode it) as [pd| |] eqn:Epd; cbn [rbind] in H; try discriminate H.
  cbn [app] in H.
  destruct (sign (Keccak X (pt :: pd))) as [sig|e] eqn:Es; [|discriminate H].
  injection H as <- <- <-.
  exists pd, sig. split; [reflexivity|]. split; [exact Es|].
  set (hash := Keccak X (sig ++ pt :: pd)).
  assert (Hp : (hash ++ sig ++ [pt]) ++ pd = hash ++ sig ++ pt :: pd)
    by (rewrite <- !app_assoc; reflexivity).
  rewrite Hp. clear Hp. set (packet := hash ++ sig ++ pt :: pd).
  split; [reflexivity|]. split; [reflexivity|]. split; [reflexivity|].
  assert (Hh : length hash = 32%nat) by apply Hk.
  assert (Hs : length sig = 65%nat) by (eapply Hsig; exact Es).
  destruct (Encode_head it pd Epd) as (b0 & rest & Hpd & _).
  assert (Hlen : headerSize < Z.of_nat (length packet)).
  { unfold packet, headerSize, hashSize, sigSize, kindSize.
    rewrite !length_app. cbn [length]. rewrite Hh, Hs, Hpd. cbn [length]. lia. }
  assert (H32 : skipn (Z.to_nat hashSize) packet = sig ++ pt :: pd)
    by (apply skipn_exact; exact Hh).
  assert (Hf32 : firstn (Z.to_nat hashSize) packet = hash)
    by (apply firstn_exact; exact Hh).
  assert (H65 : firstn (Z.to_nat sigSize) (skipn (Z.to_nat hashSize) packet) = sig)
    by (rewrite H32; apply firstn_exact; exact Hs).
  assert (H97 : skipn (Z.to_nat (hashSize + sigSize)) packet = pt :: pd).
  { unfold packet. rewrite app_assoc. apply skipn_exact.
    rewrite length_app, Hh, Hs. reflexivity. }
  assert (H98 : skipn (Z.to_nat headerSize) packet = pd).
  { unfold packet.
    replace (hash ++ sig ++ pt :: pd) with ((hash ++ sig ++ [pt]) ++ pd)
      by (rewrite <- !app_assoc; reflexivity).
    apply skipn_exact. rewrite !length_app, Hh, Hs. reflexivity. }
  split; [exact Hlen|]. split; [exact H65|]. split; [exact H97|]. split; [exact H98|].
  intros w p uaddr. unfold serve.
  rewrite (proj2 (Z.leb_gt _ _) Hlen), Hf32, H65, H32, H97.
  fold hash. rewrite (proj2 (bytes_Equal_eq hash hash) eq_refl). cbn [negb].
  destruct (Recover X sig (Keccak X (pt :: pd))) as [key|e].
  - match goal with |- context [let '(_, _) := ?h in _] => destruct h end.
    cbn [fst isxerrors_Errorf String.append].
    split; [discriminate|]. split; [discriminate|]. intros e' [=].
  - cbn [fst]. split; [discriminate|]. split; [discriminate|]. reflexivity.
Qed.

Lemma write_packet_passes_checks_witness :
  let sign := fun _ : list byte => inl (repeat x01 65) : list byte + error in
  let packet := repeat x00 32 ++ repeat x01 65 ++ [x01; xc0] in
  exists pd sig,
    Rlp.Encode (lst []) = Ok pd /\ sign (Keccak testExternals (x01 :: pd)) = inl sig /\
    packet = repeat x00 32 ++ sig ++ x01 :: pd /\
    repeat x00 32 = Keccak testExternals (sig ++ x01 :: pd) /\
    (None : option error) = None /\
    headerSize < Z.of_nat (length packet) /\
    firstn (Z.to_nat sigSize) (skipn (Z.to_nat hashSize) packet) = sig /\
    skipn (Z.to_nat (hashSize + sigSize)) packet = x01 :: pd /\
    skipn (Z.to_nat headerSize) packet = pd /\
    forall w p uaddr,
      fst (serve testExternals w p uaddr packet)
      <> Some "discv4 packet too small"%string /\
      fst (serve testExternals w p uaddr packet)
      <> Some "packet contains invalid hash"%string /\
      (forall e, Recover testExternals sig (Keccak testExternals (x01 :: pd)) = inr e ->
         serve testExternals w p uaddr packet
         = (Some "unable to extract pubkey from packet"%string, p)).
Proof.
  intros sign packet.
  apply (write_packet_passes_checks testExternals sign None x01 (lst []) packet
           (repeat x00 32) None).
  - intros bs. reflexivity.
  - intros d sig [= <-]. reflexivity.
  - reflexivity.
Defined.
